(** * MiniNest: dependency injection container and request pipeline

    A shallow embedding of the [mini-nest] runtime of the nest-tutorial
    repository (TypeScript), and the properties of its specification.

    Conventions of the embedding.
    - A class ([Type<any>]) is a value of [Class]: an identity and the
      [name] property of the constructor function.  What the decorators store
      with [Reflect.defineMetadata] is read from a [Reflection] table.
    - Objects with identity that the code mutates after creation
      ([InstanceWrapper]) live in a store and are referred to by address;
      [Module] objects are referred to by their token, the key under which
      [NestContainer] holds them.
    - JavaScript [Map] and [Set] iterate in insertion order, so they are
      association lists and duplicate-free lists.
    - The request pipeline is sequential inside one request: its [async]
      functions are computations of a state-and-exception monad over the
      [World] (response object, console, user state).
    - The injector runs several [async] calls side by side
      ([Promise.all(dependencies.map(...))]): its functions are resumptions
      that are suspended at every [await].
    - [console.log] lines of the request path are kept as structured
      entries (those printed while bootstrapping are left out); the response
      object is a record updated by assignments ([setHeader] and [end] never
      fail in the model). *)

From Stdlib Require Import List String Ascii ZArith Bool Arith Lia PeanoNat.
From Stdlib Require Import Sorting.Sorted Sorting.Permutation DecimalString.
Import ListNotations.
Open Scope string_scope.
Open Scope nat_scope.
Open Scope list_scope.

Set Implicit Arguments.
Set Warnings "-register-all".

(* ================================================================== *)
(** * Part I. Values shared by both halves                              *)
(* ================================================================== *)

(** Classes outside the [Error] family: [Object], [Array], and every class
    that a [class name extends parent] declaration derives from them (a class
    without [extends] derives from [Object]); [name] stands for the
    declaration. *)
Inductive OtherClass : Type :=
| ObjectClass
| ArrayClass
| OtherSubclass (name : string) (parent : OtherClass).

(** JavaScript values that travel through the pipeline.  [JsObject] is an
    ordinary object (an object literal, the result of [JSON.parse]) given by
    its own properties; [JsInstance cls name] is any other object, which the
    model does not look into: an instance of the class [cls], be it a class
    of the program or of the platform, such as the request and the response. *)
Inductive JsValue : Type :=
| JsUndefined
| JsNull
| JsBool (b : bool)
| JsNumber (n : Z)
| JsString (s : string)
| JsArray (items : list JsValue)
| JsObject (fields : list (string * JsValue))
| JsInstance (cls : OtherClass) (name : string).

(** The class of a value that is an object; a primitive value has none. *)
Definition value_class (v : JsValue) : option OtherClass :=
  match v with
  | JsArray _ => Some ArrayClass
  | JsObject _ => Some ObjectClass
  | JsInstance cls _ => Some cls
  | _ => None
  end.

(** An instance built by [new metatype(...)]: its address in the store of
    instances. *)
Definition InstanceRef : Type := nat.

(** [s.toUpperCase()] and [s.toLowerCase()] on ASCII letters. *)
Definition upper_ascii (c : ascii) : ascii :=
  let n := nat_of_ascii c in
  if andb (97 <=? n) (n <=? 122) then ascii_of_nat (n - 32) else c.

Definition lower_ascii (c : ascii) : ascii :=
  let n := nat_of_ascii c in
  if andb (65 <=? n) (n <=? 90) then ascii_of_nat (n + 32) else c.

Fixpoint toUpperCase (s : string) : string :=
  match s with
  | EmptyString => EmptyString
  | String c r => String (upper_ascii c) (toUpperCase r)
  end.

Fixpoint toLowerCase (s : string) : string :=
  match s with
  | EmptyString => EmptyString
  | String c r => String (lower_ascii c) (toLowerCase r)
  end.

(* ================================================================== *)
(** * Part II. The request pipeline                                     *)
(* ================================================================== *)

(** ** Exceptions (exceptions/http-exception.ts) *)

(** [HttpException] and the classes derived from it. *)
Inductive HttpClass : Type :=
| HttpException
| BadRequestException
| UnauthorizedException
| ForbiddenException
| NotFoundException
| InternalServerErrorException
| HttpSubclass (name : string) (parent : HttpClass).

(** [Error] and user classes derived from it outside the HTTP family. *)
Inductive PlainClass : Type :=
| ErrorClass
| ErrorSubclass (name : string) (parent : PlainClass).

(** The [response] field of an [HttpException]: [string | object]. *)
Inductive HttpResponse : Type :=
| RespString (s : string)
| RespObject (fields : list (string * JsValue)).

(** Whatever a [throw] can carry: an [HttpException], another [Error], or
    a value that is no [Error]. *)
Inductive Exception : Type :=
| HttpError (cls : HttpClass) (response : HttpResponse) (status : Z)
| PlainError (cls : PlainClass) (message : string)
| ThrownValue (v : JsValue).

(** A class named in [@Catch(...)]. *)
Inductive CatchType : Type :=
| CatchHttp (cls : HttpClass)
| CatchPlain (cls : PlainClass)
| CatchOther (cls : OtherClass).

Fixpoint HttpClass_eqb (a b : HttpClass) : bool :=
  match a, b with
  | HttpException, HttpException => true
  | BadRequestException, BadRequestException => true
  | UnauthorizedException, UnauthorizedException => true
  | ForbiddenException, ForbiddenException => true
  | NotFoundException, NotFoundException => true
  | InternalServerErrorException, InternalServerErrorException => true
  | HttpSubclass n p, HttpSubclass m q => andb (String.eqb n m) (HttpClass_eqb p q)
  | _, _ => false
  end.

Fixpoint PlainClass_eqb (a b : PlainClass) : bool :=
  match a, b with
  | ErrorClass, ErrorClass => true
  | ErrorSubclass n p, ErrorSubclass m q => andb (String.eqb n m) (PlainClass_eqb p q)
  | _, _ => false
  end.

(** [c] is [t] or derives from it, inside the HTTP family. *)
Fixpoint http_extends (c t : HttpClass) : bool :=
  if HttpClass_eqb c t then true
  else match c with
       | HttpException => false
       | HttpSubclass _ p => http_extends p t
       | _ => HttpClass_eqb t HttpException
       end.

Fixpoint plain_extends (c t : PlainClass) : bool :=
  if PlainClass_eqb c t then true
  else match c with
       | ErrorClass => false
       | ErrorSubclass _ p => plain_extends p t
       end.

Fixpoint OtherClass_eqb (a b : OtherClass) : bool :=
  match a, b with
  | ObjectClass, ObjectClass => true
  | ArrayClass, ArrayClass => true
  | OtherSubclass n p, OtherSubclass m q => andb (String.eqb n m) (OtherClass_eqb p q)
  | _, _ => false
  end.

(** [c] is [t] or derives from it, outside the [Error] family. *)
Fixpoint other_extends (c t : OtherClass) : bool :=
  if OtherClass_eqb c t then true
  else match c with
       | ObjectClass => false
       | ArrayClass => OtherClass_eqb t ObjectClass
       | OtherSubclass _ p => other_extends p t
       end.

(** [exception instanceof type]: the class of the exception is [type] or
    derives from it.  [Error] derives from [Object], and from no other class
    outside its family; a thrown value that is no [Error] is an instance of
    the classes its own class derives from, and of none if it is a primitive
    value. *)
Definition instanceof (e : Exception) (t : CatchType) : bool :=
  match e, t with
  | HttpError c _ _, CatchHttp t' => http_extends c t'
  | HttpError _ _ _, CatchPlain t' => PlainClass_eqb t' ErrorClass
  | PlainError c _, CatchPlain t' => plain_extends c t'
  | PlainError _ _, CatchHttp _ => false
  | HttpError _ _ _, CatchOther t' => OtherClass_eqb t' ObjectClass
  | PlainError _ _, CatchOther t' => OtherClass_eqb t' ObjectClass
  | ThrownValue v, CatchOther t' =>
      match value_class v with
      | Some c => other_extends c t'
      | None => false
      end
  | ThrownValue _, CatchHttp _ => false
  | ThrownValue _, CatchPlain _ => false
  end.

(** The class name, [this.constructor.name]. *)
Definition HttpClass_name (c : HttpClass) : string :=
  match c with
  | HttpException => "HttpException"
  | BadRequestException => "BadRequestException"
  | UnauthorizedException => "UnauthorizedException"
  | ForbiddenException => "ForbiddenException"
  | NotFoundException => "NotFoundException"
  | InternalServerErrorException => "InternalServerErrorException"
  | HttpSubclass n _ => n
  end.

Fixpoint lookup_field (k : string) (fields : list (string * JsValue)) : option JsValue :=
  match fields with
  | [] => None
  | (k', v) :: r => if String.eqb k k' then Some v else lookup_field k r
  end.

(** JavaScript truthiness, for [x || fallback]. *)
Definition truthy (v : JsValue) : bool :=
  match v with
  | JsUndefined | JsNull => false
  | JsBool b => b
  | JsNumber n => negb (Z.eqb n 0)
  | JsString s => negb (String.eqb s "")
  | JsArray _ | JsObject _ | JsInstance _ _ => true
  end.

(** [HttpException.getStatus()] and [getResponse()] are the constructor
    arguments of [HttpError]; [new ForbiddenException(message)] and its
    siblings fix the status. *)
Definition new_BadRequestException (message : HttpResponse) : Exception :=
  HttpError BadRequestException message 400.
Definition new_UnauthorizedException (message : HttpResponse) : Exception :=
  HttpError UnauthorizedException message 401.
Definition new_ForbiddenException (message : HttpResponse) : Exception :=
  HttpError ForbiddenException message 403.
Definition new_NotFoundException (message : HttpResponse) : Exception :=
  HttpError NotFoundException message 404.
Definition new_InternalServerErrorException (message : HttpResponse) : Exception :=
  HttpError InternalServerErrorException message 500.

(** ** Request, response and the world *)

Record IncomingMessage : Type := {
  req_method : option string;
  req_url : option string;
  req_headers : list (string * string);
  req_payload : string
}.

(** What [JSON.stringify] was applied to; the text itself is not needed. *)
Inductive Payload : Type :=
| JSON_stringify (v : JsValue).

Record ServerResponse : Type := {
  statusCode : Z;
  res_headers : list (string * string);
  res_body : list Payload;
  writableEnded : bool
}.

Definition fresh_response : ServerResponse :=
  {| statusCode := 200; res_headers := []; res_body := []; writableEnded := false |}.

Definition set_statusCode (code : Z) (r : ServerResponse) : ServerResponse :=
  {| statusCode := code; res_headers := res_headers r;
     res_body := res_body r; writableEnded := writableEnded r |}.

Definition setHeader (k v : string) (r : ServerResponse) : ServerResponse :=
  {| statusCode := statusCode r;
     res_headers := (k, v) :: filter (fun p => negb (String.eqb (fst p) k)) (res_headers r);
     res_body := res_body r; writableEnded := writableEnded r |}.

Definition res_end (p : Payload) (r : ServerResponse) : ServerResponse :=
  {| statusCode := statusCode r; res_headers := res_headers r;
     res_body := res_body r ++ [p]; writableEnded := true |}.

(** One entry per [console.log] call of the pipeline code. *)
Inductive LogEntry : Type :=
| LogSeparator
| LogRequest (method pathname : string)
| LogRunGuards
| LogRunPipes
| LogRunInterceptors
| LogRunHandler
| LogRunExceptionHandling
| LogGuardDenied (guard : string)
| LogGuardPassed (guard : string)
| LogPipe (pipe : string)
| LogInterceptorEnter (interceptor : string)
| LogInterceptorExit (interceptor : string)
| LogFilterUsed (filter : string)
| LogDefaultHandler (status : Z) (message : JsValue).

(** ** Sequential [async] code: state and exceptions *)

Inductive Completion (A : Type) : Type :=
| Normal (a : A)
| Abrupt (e : Exception).
Arguments Normal {A} a.
Arguments Abrupt {A} e.

Definition Action (S A : Type) : Type := S -> Completion A * S.

Definition ret {S A : Type} (a : A) : Action S A := fun w => (Normal a, w).

Definition throw {S A : Type} (e : Exception) : Action S A := fun w => (Abrupt e, w).

Definition bind {S A B : Type} (m : Action S A) (k : A -> Action S B) : Action S B :=
  fun w => match m w with
           | (Normal a, w') => k a w'
           | (Abrupt e, w') => (Abrupt e, w')
           end.

(** [try { m } catch (error) { h error }] *)
Definition try_catch {S A : Type} (m : Action S A) (h : Exception -> Action S A) : Action S A :=
  fun w => match m w with
           | (Normal a, w') => (Normal a, w')
           | (Abrupt e, w') => h e w'
           end.

Declare Scope action_scope.
Delimit Scope action_scope with action.
Notation "x <- m ;; k" := (bind m (fun x => k))
  (at level 61, m at next level, right associativity) : action_scope.
Notation "m ;;; k" := (bind m (fun _ => k))
  (at level 61, right associativity) : action_scope.
Open Scope action_scope.

(** [array[index]] and [array[index] = v] on JavaScript arrays: reading
    past the end gives [undefined], writing past the end extends the array. *)
Definition array_get (index : nat) (l : list JsValue) : JsValue := nth index l JsUndefined.

Fixpoint array_set (index : nat) (v : JsValue) (l : list JsValue) : list JsValue :=
  match index, l with
  | O, [] => [v]
  | O, _ :: r => v :: r
  | S i, [] => JsUndefined :: array_set i v []
  | S i, x :: r => x :: array_set i v r
  end.

(** [{ ...base, ...fields }]: a key already present keeps its place and takes
    the new value, a new key is appended. *)
Fixpoint object_put (k : string) (v : JsValue) (o : list (string * JsValue)) : list (string * JsValue) :=
  match o with
  | [] => [(k, v)]
  | (k', v') :: r => if String.eqb k k' then (k, v) :: r else (k', v') :: object_put k v r
  end.

Definition object_spread (base fields : list (string * JsValue)) : list (string * JsValue) :=
  fold_left (fun o kv => object_put (fst kv) (snd kv) o) fields base.

(** ** Interfaces (interfaces.ts) *)

Section PipelineDefinitions.

(** State that user code (guards, pipes, interceptors, handlers, filters)
    keeps between calls. *)
Variable U : Type.

Record World : Type := {
  response : ServerResponse;
  console : list LogEntry;
  user : U
}.

(** [console.log(...)] *)
Definition log (entry : LogEntry) : Action World unit :=
  fun w => (Normal tt, {| response := response w; console := console w ++ [entry]; user := user w |}).

Definition update_response (f : ServerResponse -> ServerResponse) : Action World unit :=
  fun w => (Normal tt, {| response := f (response w); console := console w; user := user w |}).

Record ExecutionContext : Type := {
  getRequest : IncomingMessage;
  getClass : string;
  getHandler : string
}.

(** [createExecutionContext(req, res, controllerClass, handler)]; the
    response object is the one of the world. *)
Definition createExecutionContext (req : IncomingMessage) (controllerClass handler : string)
  : ExecutionContext :=
  {| getRequest := req; getClass := controllerClass; getHandler := handler |}.

Record CanActivate : Type := {
  guard_name : string;
  canActivate : ExecutionContext -> Action World bool
}.

Inductive ParamKind : Type := KindBody | KindQuery | KindParam | KindCustom.

Record ArgumentMetadata : Type := {
  arg_type : ParamKind;
  arg_data : option string
}.

Record PipeTransform : Type := {
  pipe_name : string;
  transform : JsValue -> ArgumentMetadata -> Action World JsValue
}.

(** [next] is [CallHandler.handle]. *)
Record NestInterceptor : Type := {
  interceptor_name : string;
  intercept : ExecutionContext -> Action World JsValue -> Action World JsValue
}.

Record ArgumentsHost : Type := {
  host_request : IncomingMessage
}.

Definition createArgumentsHost (req : IncomingMessage) : ArgumentsHost :=
  {| host_request := req |}.

(** [catch_types] is the [FILTER_CATCH_EXCEPTIONS] metadata of the filter's
    class, [[]] when there is none. *)
Record ExceptionFilter : Type := {
  filter_name : string;
  catch_types : list CatchType;
  catch : Exception -> ArgumentsHost -> Action World unit
}.

Inductive RouteParamtypes : Type :=
| REQUEST | RESPONSE | BODY | QUERY | PARAM | HEADERS.

Record RouteParamMetadata : Type := {
  index : nat;
  data : option string;
  type : RouteParamtypes
}.

(** ** GuardsConsumer (guards/guards-consumer.ts) *)

(** The [for (const guard of guards)] loop of [tryActivate]. *)
Fixpoint tryActivate_loop (guards : list CanActivate) (context : ExecutionContext)
  : Action World unit :=
  match guards with
  | [] => ret tt
  | guard :: rest =>
      result <- canActivate guard context ;;
      if negb result
      then log (LogGuardDenied (guard_name guard)) ;;;
           throw (new_ForbiddenException (RespString "Forbidden resource"))
      else log (LogGuardPassed (guard_name guard)) ;;;
           tryActivate_loop rest context
  end.

Definition tryActivate (guards : list CanActivate) (context : ExecutionContext)
  : Action World bool :=
  match guards with
  | [] => ret true
  | _ => tryActivate_loop guards context ;;; ret true
  end.

(** ** PipesConsumer (pipes/pipes-consumer.ts) *)

Fixpoint applyPipes_loop (pipes : list PipeTransform) (transformedValue : JsValue)
  (metadata : ArgumentMetadata) : Action World JsValue :=
  match pipes with
  | [] => ret transformedValue
  | pipe :: rest =>
      log (LogPipe (pipe_name pipe)) ;;;
      v <- transform pipe transformedValue metadata ;;
      applyPipes_loop rest v metadata
  end.

Definition applyPipes (value : JsValue) (metadata : ArgumentMetadata)
  (pipes : list PipeTransform) : Action World JsValue :=
  match pipes with
  | [] => ret value
  | _ => applyPipes_loop pipes value metadata
  end.

(** ** InterceptorsConsumer (interceptors/interceptors-consumer.ts) *)

(** The function that [reduceRight] builds around [nextFn] for one
    interceptor. *)
Definition intercept_step (context : ExecutionContext) (interceptor : NestInterceptor)
  (nextFn : Action World JsValue) : Action World JsValue :=
  log (LogInterceptorEnter (interceptor_name interceptor)) ;;;
  result <- intercept interceptor context nextFn ;;
  log (LogInterceptorExit (interceptor_name interceptor)) ;;;
  ret result.

Definition InterceptorsConsumer_intercept (interceptors : list NestInterceptor)
  (context : ExecutionContext) (next : Action World JsValue) : Action World JsValue :=
  match interceptors with
  | [] => next
  | _ => fold_right (intercept_step context) next interceptors
  end.

(** ** ExceptionsHandler (exceptions/exceptions-handler.ts) *)

Record ExceptionsHandler : Type := {
  filters : list ExceptionFilter
}.

Definition setCustomFilters (this : ExceptionsHandler) (fs : list ExceptionFilter)
  : ExceptionsHandler :=
  {| filters := fs |}.

Fixpoint findFilter_loop (fs : list ExceptionFilter) (exception : Exception)
  : option ExceptionFilter :=
  match fs with
  | [] => None
  | filter :: rest =>
      match catch_types filter with
      | [] => Some filter
      | exceptionTypes =>
          if existsb (instanceof exception) exceptionTypes then Some filter
          else findFilter_loop rest exception
      end
  end.

Definition findFilter (this : ExceptionsHandler) (exception : Exception)
  : option ExceptionFilter :=
  findFilter_loop (filters this) exception.

Definition generic_message : string := "Internal Server Error".

(** The [status], [message] and [body] that [handleDefault] computes. *)
Definition default_status (exception : Exception) : Z :=
  match exception with
  | HttpError _ _ status => status
  | _ => 500%Z
  end.

Definition default_message (exception : Exception) : JsValue :=
  match exception with
  | HttpError _ (RespString s) _ => JsString s
  | HttpError _ (RespObject fields) _ =>
      match lookup_field "message" fields with
      | Some m => if truthy m then m else JsString generic_message
      | None => JsString generic_message
      end
  | PlainError _ message => JsString message
  | ThrownValue _ => JsString generic_message
  end.

Definition default_body (exception : Exception) : JsValue :=
  match exception with
  | HttpError _ (RespString s) status =>
      JsObject [("statusCode", JsNumber status); ("message", JsString s)]
  | HttpError _ (RespObject fields) status =>
      JsObject (object_spread [("statusCode", JsNumber status)] fields)
  | PlainError _ message =>
      JsObject [("statusCode", JsNumber 500); ("message", JsString message)]
  | ThrownValue _ =>
      JsObject [("statusCode", JsNumber 500); ("message", JsString generic_message)]
  end.

Definition handleDefault (exception : Exception) (host : ArgumentsHost) : Action World unit :=
  log (LogDefaultHandler (default_status exception) (default_message exception)) ;;;
  update_response (set_statusCode (default_status exception)) ;;;
  update_response (setHeader "Content-Type" "application/json") ;;;
  update_response (res_end (JSON_stringify (default_body exception))).

Definition handle (this : ExceptionsHandler) (exception : Exception) (host : ArgumentsHost)
  : Action World unit :=
  match findFilter this exception with
  | Some filter =>
      log (LogFilterUsed (filter_name filter)) ;;;
      catch filter exception host
  | None => handleDefault exception host
  end.

(** ** RouterExecutionContext (router/router-execution-context.ts) *)

(** The consumers carry no state; the exceptions handler does. *)
Record RouterExecutionContext : Type := {
  exceptionsHandler : ExceptionsHandler
}.

Definition new_RouterExecutionContext : RouterExecutionContext :=
  {| exceptionsHandler := {| filters := [] |} |}.

(** What the decorators left on a handler method: [PATH_METADATA] and
    [METHOD_METADATA] ([None] when the method is no route), the lists of
    [@UseGuards], [@UsePipes], [@UseInterceptors] and [@UseFilters], the
    [ROUTE_ARGS_METADATA] of the method in key order, and the method itself,
    applied to the controller instance and the arguments. *)
Record HandlerMethod : Type := {
  methodName : string;
  method_path : option string;
  method_verb : option string;
  method_guards : list CanActivate;
  method_pipes : list PipeTransform;
  method_interceptors : list NestInterceptor;
  method_filters : list ExceptionFilter;
  method_args : list (string * RouteParamMetadata);
  method_apply : InstanceRef -> list JsValue -> Action World JsValue
}.

(** The same for a controller class; [prototype_methods] are the functions
    of [metatype.prototype] other than the constructor, in property order. *)
Record ControllerClass : Type := {
  controller_name : string;
  controller_path : option string;
  controller_guards : list CanActivate;
  controller_pipes : list PipeTransform;
  controller_interceptors : list NestInterceptor;
  controller_filters : list ExceptionFilter;
  prototype_methods : list HandlerMethod
}.

(** [reflectGuards] and its three siblings: controller level first, then
    method level.  [instantiate] builds an instance of every class in the
    list; the lists here hold the instances. *)
Definition reflectGuards (controllerClass : ControllerClass) (handler : HandlerMethod)
  : list CanActivate :=
  controller_guards controllerClass ++ method_guards handler.

Definition reflectPipes (controllerClass : ControllerClass) (handler : HandlerMethod)
  : list PipeTransform :=
  controller_pipes controllerClass ++ method_pipes handler.

Definition reflectInterceptors (controllerClass : ControllerClass) (handler : HandlerMethod)
  : list NestInterceptor :=
  controller_interceptors controllerClass ++ method_interceptors handler.

Definition reflectFilters (controllerClass : ControllerClass) (handler : HandlerMethod)
  : list ExceptionFilter :=
  controller_filters controllerClass ++ method_filters handler.

Definition paramTypeToString (t : RouteParamtypes) : ParamKind :=
  match t with
  | BODY => KindBody
  | QUERY => KindQuery
  | PARAM => KindParam
  | _ => KindCustom
  end.

(** The [for (const key of Object.keys(argsMetadata))] loop of
    [applyPipesToArgs]; every entry reads [args[index]] and writes
    [transformedArgs[index]]. *)
Fixpoint applyPipesToArgs_loop (entries : list (string * RouteParamMetadata))
  (args transformedArgs : list JsValue) (pipes : list PipeTransform)
  : Action World (list JsValue) :=
  match entries with
  | [] => ret transformedArgs
  | (_, entry) :: rest =>
      let metadata := {| arg_type := paramTypeToString (type entry); arg_data := data entry |} in
      v <- applyPipes (array_get (index entry) args) metadata pipes ;;
      applyPipesToArgs_loop rest args (array_set (index entry) v transformedArgs) pipes
  end.

Definition applyPipesToArgs (args : list JsValue) (pipes : list PipeTransform)
  (argsMetadata : list (string * RouteParamMetadata)) : Action World (list JsValue) :=
  match pipes with
  | [] => ret args
  | _ => applyPipesToArgs_loop argsMetadata args args pipes
  end.

(** The closure that [create] returns.  It reads [this.exceptionsHandler]
    when it runs, so it takes the execution context of that moment. *)
Definition RequestHandler : Type :=
  RouterExecutionContext -> IncomingMessage -> Action World unit.

(** The [try] block of the closure, from body acquisition on. *)
Definition pipeline_after_guards (instance : InstanceRef) (handler : HandlerMethod)
  (pipes : list PipeTransform) (interceptors : list NestInterceptor)
  (resolveParams : IncomingMessage -> JsValue -> Action World (list JsValue))
  (parseBody : IncomingMessage -> Action World JsValue)
  (req : IncomingMessage) (context : ExecutionContext) : Action World unit :=
  body <- parseBody req ;;
  args <- resolveParams req body ;;
  log LogRunPipes ;;;
  args' <- applyPipesToArgs args pipes (method_args handler) ;;
  log LogRunInterceptors ;;;
  result <- InterceptorsConsumer_intercept interceptors context
              (log LogRunHandler ;;; method_apply handler instance args') ;;
  (fun w =>
     if negb (writableEnded (response w))
     then (update_response (setHeader "Content-Type" "application/json") ;;;
           update_response (res_end (JSON_stringify result))) w
     else (Normal tt, w)).

(** The whole [try] block. *)
Definition pipeline_body (instance : InstanceRef) (handler : HandlerMethod)
  (guards : list CanActivate) (pipes : list PipeTransform)
  (interceptors : list NestInterceptor)
  (resolveParams : IncomingMessage -> JsValue -> Action World (list JsValue))
  (parseBody : IncomingMessage -> Action World JsValue)
  (req : IncomingMessage) (context : ExecutionContext) : Action World unit :=
  log LogRunGuards ;;;
  tryActivate guards context ;;;
  pipeline_after_guards instance handler pipes interceptors resolveParams parseBody req context.

Definition create (this : RouterExecutionContext) (instance : InstanceRef)
  (handler : HandlerMethod) (controllerClass : ControllerClass)
  (resolveParams : IncomingMessage -> JsValue -> Action World (list JsValue))
  (parseBody : IncomingMessage -> Action World JsValue)
  : RouterExecutionContext * RequestHandler :=
  let guards := reflectGuards controllerClass handler in
  let pipes := reflectPipes controllerClass handler in
  let interceptors := reflectInterceptors controllerClass handler in
  let filters := reflectFilters controllerClass handler in
  ({| exceptionsHandler := setCustomFilters (exceptionsHandler this) filters |},
   fun this_now req =>
     let context :=
       createExecutionContext req (controller_name controllerClass) (methodName handler) in
     try_catch
       (pipeline_body instance handler guards pipes interceptors
          resolveParams parseBody req context)
       (fun error =>
          log LogRunExceptionHandling ;;;
          handle (exceptionsHandler this_now) error (createArgumentsHost req))).

(** ** RouterExplorer (router/router.ts) *)

Record RouteInfo : Type := {
  route_method : string;
  route_path : string;
  route_handler : HandlerMethod;
  route_instance : InstanceRef;
  route_controllerClass : ControllerClass;
  requestHandler : RequestHandler
}.

Record RouterExplorer : Type := {
  routes : list RouteInfo;
  executionContext : RouterExecutionContext
}.

Definition new_RouterExplorer : RouterExplorer :=
  {| routes := []; executionContext := new_RouterExecutionContext |}.

(** [p.replace(/^\/+|\/+$/g, '')] *)
Fixpoint strip_leading_slashes (s : string) : string :=
  match s with
  | String "/" r => strip_leading_slashes r
  | _ => s
  end.

Fixpoint strip_trailing_slashes (s : string) : string :=
  match s with
  | EmptyString => EmptyString
  | String c r =>
      let r' := strip_trailing_slashes r in
      if andb (Ascii.eqb c "/") (String.eqb r' "") then EmptyString else String c r'
  end.

Definition normalizePath (paths : list string) : string :=
  let stripped := map (fun p => strip_trailing_slashes (strip_leading_slashes p)) paths in
  "/" ++ String.concat "/" (filter (fun p => negb (String.eqb p "")) stripped).

(** [x || '/'] on an optional string. *)
Definition or_slash (x : option string) : string :=
  match x with
  | Some s => if String.eqb s "" then "/" else s
  | None => "/"
  end.

(** Services of the platform and the two helpers of [RouterExplorer] that
    no property below looks into:
    - [URL_pathname req] is [new URL(req.url || '/', `http://${req.headers.host}`).pathname],
      [None] when the constructor throws;
    - [RegExp_test path pathname] is
      [new RegExp(`^${path.replace(/:([^\/]+)/g, '([^/]+)')}$`).test(pathname)];
    - [createParamsResolver] and [createBodyParser] build the two functions
      handed to [RouterExecutionContext.create]. *)
Variable URL_pathname : IncomingMessage -> option string.
Variable RegExp_test : string -> string -> bool.
Variable createParamsResolver :
  ControllerClass -> HandlerMethod -> string -> IncomingMessage -> JsValue -> Action World (list JsValue).
Variable createBodyParser : IncomingMessage -> Action World JsValue.

(** The body of [methodNames.forEach] in [exploreController]. *)
Definition exploreMethod (this : RouterExplorer) (instance : InstanceRef)
  (metatype : ControllerClass) (method : HandlerMethod) : RouterExplorer :=
  match method_path method, method_verb method with
  | Some routePath, Some requestMethod =>
      let controllerPath := or_slash (controller_path metatype) in
      let fullPath := normalizePath [controllerPath; routePath] in
      let resolveParams := createParamsResolver metatype method fullPath in
      let parseBody := createBodyParser in
      let '(ctx, handler_fn) :=
        create (executionContext this) instance method metatype resolveParams parseBody in
      {| routes := routes this ++
                   [{| route_method := requestMethod;
                       route_path := fullPath;
                       route_handler := method;
                       route_instance := instance;
                       route_controllerClass := metatype;
                       requestHandler := handler_fn |}];
         executionContext := ctx |}
  | _, _ => this
  end.

(** [wrapper.instance] is [None] for a wrapper that holds no instance. *)
Definition exploreController (this : RouterExplorer) (instance : option InstanceRef)
  (metatype : ControllerClass) : RouterExplorer :=
  match instance with
  | None => this
  | Some inst =>
      fold_left (fun explorer method => exploreMethod explorer inst metatype method)
                (prototype_methods metatype) this
  end.

(** [explore(moduleRef)]: the controllers of the module with the instance
    each wrapper holds, in the order of the [Map]. *)
Definition explore (this : RouterExplorer)
  (controllers : list (option InstanceRef * ControllerClass)) : RouterExplorer :=
  fold_left (fun explorer c => exploreController explorer (fst c) (snd c)) controllers this.

Definition findRoute (this : RouterExplorer) (method pathname : string) : option RouteInfo :=
  find (fun route =>
          if negb (String.eqb (route_method route) method) then false
          else RegExp_test (route_path route) pathname)
       (routes this).

Definition not_found_body (method pathname : string) : JsValue :=
  JsObject [("statusCode", JsNumber 404);
            ("message", JsString ("Cannot " ++ toUpperCase method ++ " " ++ pathname))].

Definition invalid_url : Exception :=
  PlainError (ErrorSubclass "TypeError" ErrorClass) "Invalid URL".

(** [(req.method || 'GET').toLowerCase()] *)
Definition request_method (req : IncomingMessage) : string :=
  toLowerCase (match req_method req with
               | Some m => if String.eqb m "" then "GET" else m
               | None => "GET"
               end).

Definition createRequestHandler (this : RouterExplorer) (req : IncomingMessage)
  : Action World unit :=
  match URL_pathname req with
  | None => throw invalid_url
  | Some pathname =>
      let method := request_method req in
      log LogSeparator ;;;
      log (LogRequest (toUpperCase method) pathname) ;;;
      log LogSeparator ;;;
      match findRoute this method pathname with
      | None =>
          update_response (set_statusCode 404) ;;;
          update_response (setHeader "Content-Type" "application/json") ;;;
          update_response (res_end (JSON_stringify (not_found_body method pathname)))
      | Some route => requestHandler route (executionContext this) req
      end
  end.

End PipelineDefinitions.

(* ================================================================== *)
(** * Part III. The dependency-injection container                      *)
(* ================================================================== *)

(** ** Classes and what the decorators recorded about them *)

(** A class ([Type<any>]): the identity of the constructor function and its
    [name] property.  Two classes may carry the same name. *)
Record Class : Type := {
  class_id : nat;
  class_name : string
}.

Definition Class_eqb (a b : Class) : bool :=
  andb (Nat.eqb (class_id a) (class_id b)) (String.eqb (class_name a) (class_name b)).

(** The argument of [@Module({...})]; an absent section is the empty list
    ([Reflect.getMetadata(...) || []]). *)
Record ModuleMetadata : Type := {
  md_imports : list Class;
  md_providers : list Class;
  md_controllers : list Class;
  md_exports : list Class
}.

Definition no_metadata : ModuleMetadata :=
  {| md_imports := []; md_providers := []; md_controllers := []; md_exports := [] |}.

(** The metadata that [reflect-metadata] holds: the sections of every
    [@Module] class and the [design:paramtypes] of every decorated class.  An
    entry of [paramtypes] is [None] where the compiler emitted [undefined]. *)
Record Reflection : Type := {
  module_metadata : list (Class * ModuleMetadata);
  paramtypes : list (Class * list (option Class))
}.

Fixpoint assoc_class {V : Type} (k : Class) (l : list (Class * V)) : option V :=
  match l with
  | [] => None
  | (k', v) :: r => if Class_eqb k k' then Some v else assoc_class k r
  end.

Fixpoint assoc_string {V : Type} (k : string) (l : list (string * V)) : option V :=
  match l with
  | [] => None
  | (k', v) :: r => if String.eqb k k' then Some v else assoc_string k r
  end.

(** [Reflect.getMetadata(MODULE_METADATA.X, module) || []] *)
Definition getModuleMetadata (R : Reflection) (module : Class) : ModuleMetadata :=
  match assoc_class module (module_metadata R) with
  | Some md => md
  | None => no_metadata
  end.

(** [Reflect.getMetadata(PARAMTYPES_METADATA, metatype) || []] *)
Definition getParamtypes (R : Reflection) (metatype : Class) : list (option Class) :=
  match assoc_class metatype (paramtypes R) with
  | Some l => l
  | None => []
  end.

(** ** InstanceWrapper (core/instance-wrapper.ts) *)

Inductive Scope : Type := DEFAULT | TRANSIENT | REQUEST_SCOPE.

(** A wrapper is an object of the store; [host] is the token of the module
    that created it. *)
Record InstanceWrapper : Type := {
  name : string;
  token : Class;
  metatype : option Class;
  scope : Scope;
  host : option string;
  instance : option InstanceRef;
  isResolved : bool
}.

(** [new InstanceWrapper({ name, token, metatype, host })] *)
Definition new_InstanceWrapper (n : string) (t : Class) (mt : option Class) (h : option string)
  : InstanceWrapper :=
  {| name := n; token := t; metatype := mt; scope := DEFAULT; host := h;
     instance := None; isResolved := false |}.

(** [set instance(value)] *)
Definition set_instance (value : option InstanceRef) (w : InstanceWrapper) : InstanceWrapper :=
  {| name := name w; token := token w; metatype := metatype w; scope := scope w;
     host := host w; instance := value;
     isResolved := match value with Some _ => true | None => isResolved w end |}.

Definition setResolved (w : InstanceWrapper) : InstanceWrapper :=
  {| name := name w; token := token w; metatype := metatype w; scope := scope w;
     host := host w; instance := instance w; isResolved := true |}.

Definition isSingleton (w : InstanceWrapper) : bool :=
  match scope w with DEFAULT => true | _ => false end.

(** ** Module (core/module.ts) *)

(** A wrapper is named by its address in the store, an imported module by
    its token.  The maps and sets keep insertion order. *)
Record Module : Type := {
  module_token : string;
  module_metatype : Class;
  providers : list (Class * nat);
  controllers : list (Class * nat);
  imports : list string;
  exports : list Class;
  distance : nat
}.

Definition new_Module (mt : Class) (tok : string) : Module :=
  {| module_token := tok; module_metatype := mt; providers := []; controllers := [];
     imports := []; exports := []; distance := 0 |}.

(** [map.set(key, value)]: an existing key keeps its place. *)
Fixpoint map_set_class {V : Type} (k : Class) (v : V) (l : list (Class * V)) : list (Class * V) :=
  match l with
  | [] => [(k, v)]
  | (k', v') :: r => if Class_eqb k k' then (k, v) :: r else (k', v') :: map_set_class k v r
  end.

Fixpoint map_set_string {V : Type} (k : string) (v : V) (l : list (string * V))
  : list (string * V) :=
  match l with
  | [] => [(k, v)]
  | (k', v') :: r => if String.eqb k k' then (k, v) :: r else (k', v') :: map_set_string k v r
  end.

(** [set.add(x)] *)
Definition set_add_string (x : string) (l : list string) : list string :=
  if existsb (String.eqb x) l then l else l ++ [x].

Definition set_add_class (x : Class) (l : list Class) : list Class :=
  if existsb (Class_eqb x) l then l else l ++ [x].

Definition hasExport (m : Module) (t : Class) : bool := existsb (Class_eqb t) (exports m).

(** ** The store: the container and the objects it reaches *)

Record Instance : Type := {
  instance_class : Class;
  instance_args : list (option InstanceRef)
}.

(** [modules] is the [ModulesContainer]; [wrappers] holds every
    [InstanceWrapper] created so far and [instances] every object built by
    [new metatype(...)], each at the index that names it. *)
Record NestState : Type := {
  modules : list (string * Module);
  globalModules : list string;
  wrappers : list InstanceWrapper;
  instances : list Instance
}.

(** [new NestContainer()] *)
Definition new_NestContainer : NestState :=
  {| modules := []; globalModules := []; wrappers := []; instances := [] |}.

Definition with_modules (ms : list (string * Module)) (s : NestState) : NestState :=
  {| modules := ms; globalModules := globalModules s;
     wrappers := wrappers s; instances := instances s |}.

Definition with_wrappers (ws : list InstanceWrapper) (s : NestState) : NestState :=
  {| modules := modules s; globalModules := globalModules s;
     wrappers := ws; instances := instances s |}.

Definition with_instances (objs : list Instance) (s : NestState) : NestState :=
  {| modules := modules s; globalModules := globalModules s;
     wrappers := wrappers s; instances := objs |}.

(** [this.modules.get(token)] *)
Definition getModuleByKey (s : NestState) (moduleKey : string) : option Module :=
  assoc_string moduleKey (modules s).

Fixpoint list_update {V : Type} (i : nat) (f : V -> V) (l : list V) : list V :=
  match i, l with
  | _, [] => []
  | O, x :: r => f x :: r
  | S j, x :: r => x :: list_update j f r
  end.

(** Assignment to fields of the wrapper at an address. *)
Definition update_wrapper (addr : nat) (f : InstanceWrapper -> InstanceWrapper) (s : NestState)
  : NestState :=
  with_wrappers (list_update addr f (wrappers s)) s.

Definition wrapper_at (s : NestState) (addr : nat) : option InstanceWrapper :=
  nth_error (wrappers s) addr.

(** Mutation of the module held under a token. *)
Definition update_module (tok : string) (f : Module -> Module) (s : NestState) : NestState :=
  with_modules (map (fun kv => if String.eqb (fst kv) tok then (fst kv, f (snd kv)) else kv)
                    (modules s)) s.

(** ** NestContainer (core/container.ts) *)

(** [addModule(metatype, scope)] returns the token of the module and
    [inserted]. *)
Definition addModule (metatype : Class) (scope : list Class) (s : NestState)
  : (string * bool) * NestState :=
  let token := class_name metatype in
  match getModuleByKey s token with
  | Some _ => ((token, false), s)
  | None =>
      let moduleRef :=
        {| module_token := token; module_metatype := metatype; providers := [];
           controllers := []; imports := []; exports := []; distance := List.length scope |} in
      ((token, true), with_modules (map_set_string token moduleRef (modules s)) s)
  end.

Definition unknown_module (token : string) : Exception :=
  PlainError ErrorClass ("未知模块: " ++ token).

(** [Module.addProvider(provider)]: a new wrapper, stored under the class. *)
Definition Module_addProvider (tok : string) (provider : Class) (s : NestState) : NestState :=
  let addr := List.length (wrappers s) in
  let wrapper :=
    new_InstanceWrapper (class_name provider) provider (Some provider) (Some tok) in
  update_module tok
    (fun m => {| module_token := module_token m; module_metatype := module_metatype m;
                 providers := map_set_class provider addr (providers m);
                 controllers := controllers m; imports := imports m;
                 exports := exports m; distance := distance m |})
    (with_wrappers (wrappers s ++ [wrapper]) s).

Definition Module_addController (tok : string) (controller : Class) (s : NestState) : NestState :=
  let addr := List.length (wrappers s) in
  let wrapper :=
    new_InstanceWrapper (class_name controller) controller (Some controller) (Some tok) in
  update_module tok
    (fun m => {| module_token := module_token m; module_metatype := module_metatype m;
                 providers := providers m;
                 controllers := map_set_class controller addr (controllers m);
                 imports := imports m; exports := exports m; distance := distance m |})
    (with_wrappers (wrappers s ++ [wrapper]) s).

Definition Module_addImport (tok related : string) (s : NestState) : NestState :=
  update_module tok
    (fun m => {| module_token := module_token m; module_metatype := module_metatype m;
                 providers := providers m; controllers := controllers m;
                 imports := set_add_string related (imports m);
                 exports := exports m; distance := distance m |}) s.

Definition Module_addExport (tok : string) (exportToken : Class) (s : NestState) : NestState :=
  update_module tok
    (fun m => {| module_token := module_token m; module_metatype := module_metatype m;
                 providers := providers m; controllers := controllers m;
                 imports := imports m;
                 exports := set_add_class exportToken (exports m); distance := distance m |}) s.

Definition addProvider (provider : Class) (token : string) : Action NestState unit :=
  fun s => match getModuleByKey s token with
           | None => (Abrupt (unknown_module token), s)
           | Some _ => (Normal tt, Module_addProvider token provider s)
           end.

Definition addController (controller : Class) (token : string) : Action NestState unit :=
  fun s => match getModuleByKey s token with
           | None => (Abrupt (unknown_module token), s)
           | Some _ => (Normal tt, Module_addController token controller s)
           end.

Definition addImport (relatedModule : Class) (token : string) : Action NestState unit :=
  fun s => match getModuleByKey s token, getModuleByKey s (class_name relatedModule) with
           | Some _, Some relatedModuleRef =>
               (Normal tt, Module_addImport token (module_token relatedModuleRef) s)
           | _, _ => (Normal tt, s)
           end.

Definition addExport (token : string) (exportToken : Class) : Action NestState unit :=
  fun s => match getModuleByKey s token with
           | Some _ => (Normal tt, Module_addExport token exportToken s)
           | None => (Normal tt, s)
           end.

Definition addGlobalModule (tok : string) (s : NestState) : NestState :=
  {| modules := modules s; globalModules := set_add_string tok (globalModules s);
     wrappers := wrappers s; instances := instances s |}.

Definition bindGlobalScope (s : NestState) : NestState :=
  fold_left
    (fun st moduleRef =>
       fold_left
         (fun st' globalModule =>
            if negb (String.eqb moduleRef globalModule)
            then Module_addImport moduleRef globalModule st'
            else st')
         (globalModules s) st)
    (map fst (modules s)) s.

(** ** DependenciesScanner (core/scanner.ts) *)

(** [registry] is the array that every recursive call shares; [None] is a
    recursion deeper than [fuel]. *)
Fixpoint scanForModules (R : Reflection) (fuel : nat) (module : Class) (scope : list Class)
  (registry : list Class) (s : NestState) : option (list Class * NestState) :=
  match fuel with
  | O => None
  | S fuel' =>
      if existsb (Class_eqb module) registry then Some (registry, s)
      else
        let registry1 := registry ++ [module] in
        let s1 := snd (addModule module scope s) in
        fold_left
          (fun acc innerModule =>
             match acc with
             | None => None
             | Some (reg, st) => scanForModules R fuel' innerModule (scope ++ [module]) reg st
             end)
          (md_imports (getModuleMetadata R module))
          (Some (registry1, s1))
  end.

Fixpoint for_each {S A : Type} (f : A -> Action S unit) (l : list A) : Action S unit :=
  match l with
  | [] => ret tt
  | x :: r => f x ;;; for_each f r
  end.

Definition reflectImports (R : Reflection) (module : Class) (token : string)
  : Action NestState unit :=
  for_each (fun relatedModule => addImport relatedModule token)
           (md_imports (getModuleMetadata R module)).

Definition reflectProviders (R : Reflection) (module : Class) (token : string)
  : Action NestState unit :=
  for_each (fun provider => addProvider provider token)
           (md_providers (getModuleMetadata R module)).

Definition reflectControllers (R : Reflection) (module : Class) (token : string)
  : Action NestState unit :=
  for_each (fun controller => addController controller token)
           (md_controllers (getModuleMetadata R module)).

Definition reflectExports (R : Reflection) (module : Class) (token : string)
  : Action NestState unit :=
  for_each (fun exportToken => addExport token exportToken)
           (md_exports (getModuleMetadata R module)).

Definition scanModulesForDependencies (R : Reflection) : Action NestState unit :=
  fun s =>
    for_each
      (fun entry : string * Module =>
         let token := fst entry in
         let metatype := module_metatype (snd entry) in
         reflectImports R metatype token ;;;
         reflectProviders R metatype token ;;;
         reflectControllers R metatype token ;;;
         reflectExports R metatype token)
      (modules s) s.

(** What a call that was awaited to its end has done: returned, thrown, or
    not ended within the fuel. *)
Inductive Outcome (A : Type) : Type :=
| Returned (a : A)
| Threw (e : Exception)
| OutOfFuel.
Arguments Returned {A} a.
Arguments Threw {A} e.
Arguments OutOfFuel {A}.

Definition scan (R : Reflection) (fuel : nat) (module : Class) (s : NestState)
  : Outcome unit * NestState :=
  match scanForModules R fuel module [] [] s with
  | None => (OutOfFuel, s)
  | Some (_, s1) =>
      match scanModulesForDependencies R s1 with
      | (Abrupt e, s2) => (Threw e, s2)
      | (Normal _, s2) => (Returned tt, bindGlobalScope s2)
      end
  end.

(** ** [async] functions that run side by side *)

(** The state of a call of an [async] function, seen from its promise:
    fulfilled, rejected, or suspended at an [await] until the microtask that
    resumes it runs in the store of that later moment.  [Exhausted] marks a
    recursion deeper than the fuel of the model. *)
Inductive Task (A : Type) : Type :=
| Done (a : A)
| Failed (e : Exception)
| Exhausted
| Suspended (resume : NestState -> NestState * Task A).
Arguments Done {A} a.
Arguments Failed {A} e.
Arguments Exhausted {A}.
Arguments Suspended {A} resume.

(** Calling an [async] function runs its body up to the first [await]. *)
Definition Async (A : Type) : Type := NestState -> NestState * Task A.

Definition async_ret {A : Type} (a : A) : Async A := fun s => (s, Done a).

Definition async_throw {A : Type} (e : Exception) : Async A := fun s => (s, Failed e).

Definition exhausted {A : Type} : Async A := fun s => (s, Exhausted).

(** The rest [k] of a function body after the part that yields [t]. *)
Fixpoint then_task {A B : Type} (t : Task A) (k : A -> Async B) (s : NestState)
  : NestState * Task B :=
  match t with
  | Done a => k a s
  | Failed e => (s, Failed e)
  | Exhausted => (s, Exhausted)
  | Suspended resume =>
      (s, Suspended (fun s1 => let (s2, t2) := resume s1 in then_task t2 k s2))
  end.

Definition async_bind {A B : Type} (m : Async A) (k : A -> Async B) : Async B :=
  fun s => let (s1, t) := m s in then_task t k s1.

(** The promise seen by [await]: the continuation runs in a microtask of
    its own, after the promise has settled. *)
Fixpoint settle_then_resume {A : Type} (t : Task A) : Task A :=
  match t with
  | Done a => Suspended (fun s => (s, Done a))
  | Failed e => Suspended (fun s => (s, Failed e))
  | Exhausted => Exhausted
  | Suspended resume =>
      Suspended (fun s1 => let (s2, t2) := resume s1 in (s2, settle_then_resume t2))
  end.

(** [await call]: the call is made at once, the caller is suspended. *)
Definition await {A : Type} (call : Async A) : Async A :=
  fun s => let (s1, t) := call s in (s1, settle_then_resume t).

(** One turn of the microtask queue for a task. *)
Definition resume_task {A : Type} (t : Task A) (s : NestState) : NestState * Task A :=
  match t with
  | Suspended resume => resume s
  | _ => (s, t)
  end.

(** Two promises side by side, the first ahead of the second in every
    turn; a rejection of either rejects the pair. *)
Fixpoint both {A : Type} (t1 : Task A) : Task (list A) -> Task (list A) :=
  match t1 with
  | Done a =>
      fix rest (t2 : Task (list A)) : Task (list A) :=
        match t2 with
        | Done l => Done (a :: l)
        | Failed e => Failed e
        | Exhausted => Exhausted
        | Suspended resume =>
            Suspended (fun s => let (s2, t2') := resume s in (s2, rest t2'))
        end
  | Failed e => fun _ => Failed e
  | Exhausted => fun _ => Exhausted
  | Suspended resume => fun t2 =>
      match t2 with
      | Failed e => Failed e
      | Exhausted => Exhausted
      | _ => Suspended (fun s => let (s1, t1') := resume s in
                                  let (s2, t2') := resume_task t2 s1 in
                                  (s2, both t1' t2'))
      end
  end.

(** [calls.map(call => call())]: every call is started, in order. *)
Fixpoint start_all {A : Type} (calls : list (Async A)) (s : NestState)
  : NestState * list (Task A) :=
  match calls with
  | [] => (s, [])
  | call :: rest =>
      let (s1, t) := call s in
      let (s2, ts) := start_all rest s1 in
      (s2, t :: ts)
  end.

(** [Promise.all(promises)]: fulfilled at once for the empty list, otherwise
    one microtask after the last promise is fulfilled or the first one is
    rejected.  After a rejection the calls still pending are not followed:
    the store of a rejected run is the store at the rejection, without what
    those calls go on to write. *)
Definition Promise_all {A : Type} (calls : list (Async A)) : Async (list A) :=
  fun s =>
    let (s1, tasks) := start_all calls s in
    match tasks with
    | [] => (s1, Done [])
    | _ => (s1, settle_then_resume (fold_right both (Done []) tasks))
    end.

(** The microtask queue runs until the promise has settled. *)
Fixpoint run_task {A : Type} (t : Task A) (s : NestState) : Outcome A * NestState :=
  match t with
  | Done a => (Returned a, s)
  | Failed e => (Threw e, s)
  | Exhausted => (OutOfFuel, s)
  | Suspended resume => let (s1, t1) := resume s in run_task t1 s1
  end.

Definition run_async {A : Type} (call : Async A) (s : NestState) : Outcome A * NestState :=
  let (s1, t) := call s in run_task t s1.

Declare Scope async_scope.
Delimit Scope async_scope with async.
Notation "x <~ m ;; k" := (async_bind m (fun x => k))
  (at level 61, m at next level, right associativity) : async_scope.
Notation "m ;;~ k" := (async_bind m (fun _ => k))
  (at level 61, right associativity) : async_scope.

Open Scope async_scope.

(** ** Injector (core/injector.ts) *)

(** Reading the module behind a reference; every reference the container
    hands out names a module it holds. *)
Definition imports_of (s : NestState) (moduleRef : string) : list string :=
  match getModuleByKey s moduleRef with
  | Some m => imports m
  | None => []
  end.

Definition module_hasExport (s : NestState) (moduleRef : string) (t : Class) : bool :=
  match getModuleByKey s moduleRef with
  | Some m => hasExport m t
  | None => false
  end.

(** [moduleRef.providers.get(token)] *)
Definition providers_get (s : NestState) (moduleRef : string) (t : Class) : option nat :=
  match getModuleByKey s moduleRef with
  | Some m => assoc_class t (providers m)
  | None => None
  end.

Definition wrapper_isResolved (s : NestState) (wrapper : nat) : bool :=
  match wrapper_at s wrapper with
  | Some w => isResolved w
  | None => false
  end.

Definition wrapper_instance (s : NestState) (wrapper : nat) : option InstanceRef :=
  match wrapper_at s wrapper with
  | Some w => instance w
  | None => None
  end.

Definition wrapper_metatype (s : NestState) (wrapper : nat) : option Class :=
  match wrapper_at s wrapper with
  | Some w => metatype w
  | None => None
  end.

Definition wrapper_name (s : NestState) (wrapper : nat) : string :=
  match wrapper_at s wrapper with
  | Some w => name w
  | None => ""
  end.

Definition wrapper_host (s : NestState) (wrapper : nat) : option string :=
  match wrapper_at s wrapper with
  | Some w => host w
  | None => None
  end.

(** The [for (const relatedModule of moduleRef.imports)] loop of
    [lookupComponentInImports], given the function for the recursive call. *)
Fixpoint lookup_loop (recurse : string -> Class -> Async (option nat))
  (related : list string) (t : Class) : Async (option nat) :=
  match related with
  | [] => async_ret None
  | relatedModule :: rest =>
      fun s =>
        if negb (module_hasExport s relatedModule t)
        then (found <~ await (recurse relatedModule t) ;;
              match found with
              | Some w => async_ret (Some w)
              | None => lookup_loop recurse rest t
              end) s
        else match providers_get s relatedModule t with
             | Some provider => (s, Done (Some provider))
             | None => lookup_loop recurse rest t s
             end
  end.

Fixpoint lookupComponentInImports (fuel : nat) (moduleRef : string) (t : Class)
  : Async (option nat) :=
  match fuel with
  | O => exhausted
  | S fuel' =>
      fun s => lookup_loop (lookupComponentInImports fuel') (imports_of s moduleRef) t s
  end.

Definition number_to_string (n : nat) : string :=
  NilEmpty.string_of_uint (Nat.to_uint n).

Definition unresolved_parameter (wrapperName : string) (index : nat) : Exception :=
  PlainError ErrorClass
    ("无法解析 " ++ wrapperName ++ " 的第 " ++ number_to_string index ++ " 个参数的依赖").

Definition unresolved_dependency (dependency : Class) : Exception :=
  PlainError ErrorClass ("无法解析依赖 " ++ class_name dependency).

(** [loadProvider], given the function for [resolveConstructorParams]. *)
Definition loadProvider_with (resolveConstructorParams : nat -> string -> Async unit)
  (wrapper : nat) (moduleRef : string) : Async unit :=
  fun s =>
    if wrapper_isResolved s wrapper then (s, Done tt)
    else (await (resolveConstructorParams wrapper moduleRef) ;;~ async_ret tt) s.

(** The end of [resolveSingleParam], once the wrapper is found: load it if
    it is not resolved, and return its instance. *)
Definition instance_of_wrapper_with (resolveConstructorParams : nat -> string -> Async unit)
  (moduleRef : string) (instanceWrapper : nat) : Async (option InstanceRef) :=
  fun s =>
    if negb (wrapper_isResolved s instanceWrapper)
    then (await (loadProvider_with resolveConstructorParams instanceWrapper
                   (match wrapper_host s instanceWrapper with
                    | Some h => h
                    | None => moduleRef
                    end)) ;;~
          (fun s' => (s', Done (wrapper_instance s' instanceWrapper)))) s
    else (s, Done (wrapper_instance s instanceWrapper)).

(** [resolveSingleParam], given the function for [resolveConstructorParams]. *)
Definition resolveSingleParam_with (resolveConstructorParams : nat -> string -> Async unit)
  (fuel : nat) (dependency : option Class) (moduleRef : string) (wrapper : nat) (index : nat)
  : Async (option InstanceRef) :=
  match dependency with
  | None => fun s => (s, Failed (unresolved_parameter (wrapper_name s wrapper) index))
  | Some dep =>
      fun s =>
        match providers_get s moduleRef dep with
        | Some instanceWrapper =>
            instance_of_wrapper_with resolveConstructorParams moduleRef instanceWrapper s
        | None =>
            (found <~ await (lookupComponentInImports fuel moduleRef dep) ;;
             match found with
             | Some instanceWrapper =>
                 instance_of_wrapper_with resolveConstructorParams moduleRef instanceWrapper
             | None => async_throw (unresolved_dependency dep)
             end) s
        end
  end.

(** [new metatype(...instances)]: the object is added to the store. *)
Definition construct (mt : Class) (args : list (option InstanceRef)) (s : NestState)
  : InstanceRef * NestState :=
  (List.length (instances s),
   with_instances (instances s ++ [{| instance_class := mt; instance_args := args |}]) s).

Fixpoint mapi_from {A B : Type} (i : nat) (f : A -> nat -> B) (l : list A) : list B :=
  match l with
  | [] => []
  | x :: r => f x i :: mapi_from (S i) f r
  end.

(** [dependencies.map((dependency, index) => ...)] *)
Definition mapi {A B : Type} (f : A -> nat -> B) (l : list A) : list B := mapi_from 0 f l.

Fixpoint resolveConstructorParams (R : Reflection) (fuel : nat) (wrapper : nat)
  (moduleRef : string) : Async unit :=
  match fuel with
  | O => exhausted
  | S fuel' =>
      fun s =>
        match wrapper_metatype s wrapper with
        | None => (update_wrapper wrapper setResolved s, Done tt)
        | Some mt =>
            let dependencies := getParamtypes R mt in
            (instances <~ await (Promise_all
                            (mapi (fun dependency index =>
                                     resolveSingleParam_with (resolveConstructorParams R fuel')
                                       fuel' dependency moduleRef wrapper index)
                                  dependencies)) ;;
             (fun s1 =>
                let (ref, s2) := construct mt instances s1 in
                (update_wrapper wrapper setResolved
                   (update_wrapper wrapper (set_instance (Some ref)) s2),
                 Done tt))) s
        end
  end.

Definition loadProvider (R : Reflection) (fuel : nat) (wrapper : nat) (moduleRef : string)
  : Async unit :=
  loadProvider_with (resolveConstructorParams R fuel) wrapper moduleRef.

Definition loadController (R : Reflection) (fuel : nat) (wrapper : nat) (moduleRef : string)
  : Async unit :=
  loadProvider_with (resolveConstructorParams R fuel) wrapper moduleRef.

Definition resolveSingleParam (R : Reflection) (fuel : nat) (dependency : option Class)
  (moduleRef : string) (wrapper : nat) (index : nat) : Async (option InstanceRef) :=
  resolveSingleParam_with (resolveConstructorParams R fuel) fuel dependency moduleRef
    wrapper index.

(** ** MiniNestFactory (application.ts) *)

(** [[...modules.values()].sort((a, b) => a.distance - b.distance)]; the
    sort of an array is stable. *)
Fixpoint insert_by_distance (m : Module) (sorted : list Module) : list Module :=
  match sorted with
  | [] => [m]
  | x :: rest =>
      if distance m <=? distance x then m :: x :: rest
      else x :: insert_by_distance m rest
  end.

Definition sort_by_distance (l : list Module) : list Module :=
  fold_right insert_by_distance [] l.

(** A [for] loop with an [await] in its body. *)
Fixpoint await_each {A : Type} (call : A -> Async unit) (l : list A) : Async unit :=
  match l with
  | [] => async_ret tt
  | x :: rest => await (call x) ;;~ await_each call rest
  end.

(** The wrappers that the two loops of [createInstances] visit, each with
    its module, in the order of the visit. *)
Definition provider_bindings (sortedModules : list Module) : list (nat * string) :=
  flat_map (fun moduleRef => map (fun entry => (snd entry, module_token moduleRef))
                                 (providers moduleRef))
           sortedModules.

Definition controller_bindings (sortedModules : list Module) : list (nat * string) :=
  flat_map (fun moduleRef => map (fun entry => (snd entry, module_token moduleRef))
                                 (controllers moduleRef))
           sortedModules.

Definition createInstances (R : Reflection) (fuel : nat) : Async unit :=
  fun s =>
    let sortedModules := sort_by_distance (map snd (modules s)) in
    (await_each (fun b => loadProvider R fuel (fst b) (snd b))
                (provider_bindings sortedModules) ;;~
     await_each (fun b => loadController R fuel (fst b) (snd b))
                (controller_bindings sortedModules)) s.

Section Factory.

Variable U : Type.

(** The decorations of the controller classes, and the two helpers of
    [RouterExplorer] left open above. *)
Variable controller_class : Class -> ControllerClass U.
Variable createParamsResolver :
  ControllerClass U -> HandlerMethod U -> string -> IncomingMessage -> JsValue ->
  Action (World U) (list JsValue).
Variable createBodyParser : IncomingMessage -> Action (World U) JsValue.

Record MiniNestApplication : Type := {
  app_container : NestState;
  app_routerExplorer : RouterExplorer U
}.

(** The controllers of a module as [RouterExplorer.explore] reads them. *)
Definition module_controllers (s : NestState) (moduleRef : Module)
  : list (option InstanceRef * ControllerClass U) :=
  map (fun entry => (wrapper_instance s (snd entry), controller_class (fst entry)))
      (controllers moduleRef).

Definition register_routes (s : NestState) : RouterExplorer U :=
  fold_left (explore createParamsResolver createBodyParser)
            (map (fun entry => module_controllers s (snd entry)) (modules s))
            (new_RouterExplorer U).

(** [MiniNestFactory.create(module)] *)
Definition MiniNestFactory_create (R : Reflection) (fuel : nat) (module : Class)
  : Outcome MiniNestApplication :=
  let container := new_NestContainer in
  match scan R fuel module container with
  | (Threw e, _) => Threw e
  | (OutOfFuel, _) => OutOfFuel
  | (Returned _, s1) =>
      match run_async (createInstances R fuel) s1 with
      | (Threw e, _) => Threw e
      | (OutOfFuel, _) => OutOfFuel
      | (Returned _, s2) =>
          Returned {| app_container := s2; app_routerExplorer := register_routes s2 |}
      end
  end.

End Factory.

(* ================================================================== *)
(** * Part IV. Sample components, after the unit tests of the repository *)
(* ================================================================== *)

(** User state of the samples: a journal, as the [order] array of the
    interceptor test. *)
Definition Journal : Type := list JsValue.

Definition journal_push (v : JsValue) : Action (World Journal) unit :=
  fun w => (Normal tt,
            {| response := response w; console := console w; user := (user w ++ [v])%list |}).

Definition empty_world : World Journal :=
  {| response := fresh_response; console := []; user := [] |}.

Definition sample_request (method url : string) (headers : list (string * string))
  (payload : string) : IncomingMessage :=
  {| req_method := Some method; req_url := Some url;
     req_headers := headers; req_payload := payload |}.

Definition sample_context : ExecutionContext :=
  createExecutionContext (sample_request "GET" "/test" [] "") "TestController" "testHandler".

(** [transform: (value) => value + suffix], which also notes what it was
    given; only strings are fed to it. *)
Definition suffix_pipe (name suffix : string) : PipeTransform Journal :=
  {| pipe_name := name;
     transform := fun value _ =>
       journal_push value ;;;
       ret (match value with
            | JsString s => JsString (s ++ suffix)
            | _ => value
            end) |}.

Definition param_metadata (name : string) : ArgumentMetadata :=
  {| arg_type := KindParam; arg_data := Some name |}.

(** The interceptors of the onion test: push, call [next.handle()], push. *)
Definition around_interceptor (name : string) : NestInterceptor Journal :=
  {| interceptor_name := name;
     intercept := fun _ next =>
       journal_push (JsString (name ++ "-before")) ;;;
       result <- next ;;
       journal_push (JsString (name ++ "-after")) ;;;
       ret result |}.

Definition sample_handler : Action (World Journal) JsValue :=
  journal_push (JsString "handler") ;;; ret (JsString "done").

(** A guard that reads the [authorization] header. *)
Definition auth_guard : CanActivate Journal :=
  {| guard_name := "AuthGuard";
     canActivate := fun context =>
       journal_push (JsString "AuthGuard") ;;;
       ret (existsb (fun h => String.eqb (fst h) "authorization")
                    (req_headers (getRequest context))) |}.

Definition allow_guard (name : string) : CanActivate Journal :=
  {| guard_name := name;
     canActivate := fun _ => journal_push (JsString name) ;;; ret true |}.

(** A route whose only parameter is [@Param('id')], with two pipes on the
    method; the handler notes its arguments and returns the first. *)
Definition echo_method : HandlerMethod Journal :=
  {| methodName := "echo";
     method_path := Some ":id";
     method_verb := Some "get";
     method_guards := [];
     method_pipes := [suffix_pipe "first" "-first"; suffix_pipe "second" "-second"];
     method_interceptors := [];
     method_filters := [];
     method_args := [("5:0", {| index := 0; data := Some "id"; type := PARAM |})];
     method_apply := fun _ args => journal_push (JsArray args) ;;; ret (array_get 0 args) |}.

Definition echo_controller : ControllerClass Journal :=
  {| controller_name := "EchoController";
     controller_path := Some "echo";
     controller_guards := [];
     controller_pipes := [];
     controller_interceptors := [];
     controller_filters := [];
     prototype_methods := [echo_method] |}.

(** The parameter metadata of a handler with two decorated parameters,
    [@Param('id')] at position 0 and [@Query('q')] at position 2; position 1
    has no decorator. *)
Definition pair_args : list (string * RouteParamMetadata) :=
  [("5:0", {| index := 0; data := Some "id"; type := PARAM |});
   ("4:2", {| index := 2; data := Some "q"; type := QUERY |})].

Definition pair_pipes : list (PipeTransform Journal) :=
  [suffix_pipe "first" "-first"; suffix_pipe "second" "-second"].

(** Stand-ins for the parameter resolver and the body parser. *)
Definition sample_resolveParams (args : list JsValue)
  : IncomingMessage -> JsValue -> Action (World Journal) (list JsValue) :=
  fun _ _ => ret args.

Definition sample_parseBody : IncomingMessage -> Action (World Journal) JsValue :=
  fun _ => journal_push (JsString "parseBody") ;;; ret (JsObject []).

Definition echo_request_handler : RequestHandler Journal :=
  snd (create (new_RouterExecutionContext Journal) 0 echo_method echo_controller
         (sample_resolveParams [JsString "value"]) (fun _ => ret (JsObject []))).

(** [POST /cats]: guarded by [AuthGuard], validated by a pipe; the pipe,
    the interceptor and the handler note that they ran. *)
Definition counting_pipe : PipeTransform Journal :=
  {| pipe_name := "ValidationPipe";
     transform := fun value _ => journal_push (JsString "ValidationPipe") ;;; ret value |}.

Definition create_method : HandlerMethod Journal :=
  {| methodName := "create";
     method_path := Some "/";
     method_verb := Some "post";
     method_guards := [auth_guard];
     method_pipes := [counting_pipe];
     method_interceptors := [around_interceptor "LoggingInterceptor"];
     method_filters := [];
     method_args := [("3:0", {| index := 0; data := None; type := BODY |})];
     method_apply := fun _ args => journal_push (JsString "create") ;;; ret (array_get 0 args) |}.

Definition cats_controller : ControllerClass Journal :=
  {| controller_name := "CatsController";
     controller_path := Some "cats";
     controller_guards := [];
     controller_pipes := [];
     controller_interceptors := [];
     controller_filters := [];
     prototype_methods := [create_method] |}.

Definition post_cats_handler : RequestHandler Journal :=
  snd (create (new_RouterExecutionContext Journal) 0 create_method cats_controller
         (fun _ body => ret [body]) sample_parseBody).

Definition post_cats_anonymous : IncomingMessage :=
  sample_request "POST" "/cats" [("content-type", "application/json")] "{name: Tom}".

Definition post_cats_authorized : IncomingMessage :=
  sample_request "POST" "/cats"
    [("content-type", "application/json"); ("authorization", "Bearer valid-token")]
    "{name: Tom}".

(** Stand-ins for the platform services of [RouterExplorer]: the URL is
    its own path, and a route path matches the equal path. *)
Definition sample_URL_pathname (req : IncomingMessage) : option string :=
  match req_url req with
  | Some url => Some url
  | None => Some "/"
  end.

Definition sample_createParamsResolver (_ : ControllerClass Journal) (_ : HandlerMethod Journal)
  (_ : string) : IncomingMessage -> JsValue -> Action (World Journal) (list JsValue) :=
  fun _ body => ret [body].

Definition sample_explore :=
  explore sample_createParamsResolver sample_parseBody.

(** An explorer with the single route [POST /cats]. *)
Definition cats_explorer : RouterExplorer Journal :=
  sample_explore (new_RouterExplorer Journal) [(Some 0, cats_controller)].

(** A controller whose only route declares a catch-all filter and whose
    handler throws, followed by a controller that declares no filter. *)
Definition own_filter : ExceptionFilter Journal :=
  {| filter_name := "OwnFilter";
     catch_types := [];
     catch := fun _ _ =>
       journal_push (JsString "OwnFilter") ;;;
       update_response (set_statusCode 418) ;;;
       update_response (res_end (JSON_stringify (JsString "handled by OwnFilter"))) |}.

Definition failing_method : HandlerMethod Journal :=
  {| methodName := "findOne";
     method_path := Some "/";
     method_verb := Some "get";
     method_guards := [];
     method_pipes := [];
     method_interceptors := [];
     method_filters := [own_filter];
     method_args := [];
     method_apply := fun _ _ => throw (new_NotFoundException (RespString "no such cat")) |}.

Definition first_controller : ControllerClass Journal :=
  {| controller_name := "FirstController";
     controller_path := Some "first";
     controller_guards := [];
     controller_pipes := [];
     controller_interceptors := [];
     controller_filters := [];
     prototype_methods := [failing_method] |}.

Definition ping_method : HandlerMethod Journal :=
  {| methodName := "ping";
     method_path := Some "/";
     method_verb := Some "get";
     method_guards := [];
     method_pipes := [];
     method_interceptors := [];
     method_filters := [];
     method_args := [];
     method_apply := fun _ _ => ret (JsString "pong") |}.

Definition second_controller : ControllerClass Journal :=
  {| controller_name := "SecondController";
     controller_path := Some "second";
     controller_guards := [];
     controller_pipes := [];
     controller_interceptors := [];
     controller_filters := [];
     prototype_methods := [ping_method] |}.

Definition two_controller_modules : list (list (option InstanceRef * ControllerClass Journal)) :=
  [[(Some 0, first_controller)]; [(Some 1, second_controller)]].

Definition two_controller_explorer : RouterExplorer Journal :=
  fold_left sample_explore two_controller_modules (new_RouterExplorer Journal).

Definition first_route : RouteInfo Journal :=
  {| route_method := "get";
     route_path := "/first";
     route_handler := failing_method;
     route_instance := 0;
     route_controllerClass := first_controller;
     requestHandler :=
       snd (create (new_RouterExecutionContext Journal) 0 failing_method first_controller
              (sample_createParamsResolver first_controller failing_method "/first")
              sample_parseBody) |}.

Definition second_route : RouteInfo Journal :=
  {| route_method := "get";
     route_path := "/second";
     route_handler := ping_method;
     route_instance := 1;
     route_controllerClass := second_controller;
     requestHandler :=
       snd (create (new_RouterExecutionContext Journal) 1 ping_method second_controller
              (sample_createParamsResolver second_controller ping_method "/second")
              sample_parseBody) |}.

(** A filter declared with [@Catch(HttpException)], and a plain [Error]
    as a database driver would throw it. *)
Definition http_exception_filter : ExceptionFilter Journal :=
  {| filter_name := "HttpExceptionFilter";
     catch_types := [CatchHttp HttpException];
     catch := fun _ _ => journal_push (JsString "HttpExceptionFilter") |}.

Definition driver_error : Exception :=
  PlainError ErrorClass "connect ECONNREFUSED 10.0.0.5:5432 user=admin".

Definition sample_host : ArgumentsHost :=
  createArgumentsHost (sample_request "GET" "/cats" [] "").

(** ** Sample module graphs *)

Definition cls (id : nat) (n : string) : Class := {| class_id := id; class_name := n |}.

(** One module; [ServiceA] takes [ServiceB] and [ServiceC], [ServiceC]
    takes [ServiceB], [ServiceB] takes nothing; the providers are declared as
    [[ServiceA, ServiceB, ServiceC]]. *)
Definition ServiceA : Class := cls 1 "ServiceA".
Definition ServiceB : Class := cls 2 "ServiceB".
Definition ServiceC : Class := cls 3 "ServiceC".
Definition DiamondModule : Class := cls 4 "DiamondModule".

Definition diamond_reflection : Reflection :=
  {| module_metadata :=
       [(DiamondModule,
         {| md_imports := []; md_providers := [ServiceA; ServiceB; ServiceC];
            md_controllers := []; md_exports := [] |})];
     paramtypes :=
       [(ServiceA, [Some ServiceB; Some ServiceC]);
        (ServiceC, [Some ServiceB])] |}.

(** The container after [scan(DiamondModule)]. *)
Definition diamond_scanned : NestState :=
  snd (scan diamond_reflection 10 DiamondModule new_NestContainer).

(** A diamond: the root imports [ModuleA] and [SharedModule], and
    [ModuleA] imports [SharedModule] too.  The two graphs differ only in the
    order in which the root declares its imports. *)
Definition RootModule : Class := cls 10 "RootModule".
Definition ModuleA : Class := cls 11 "ModuleA".
Definition SharedModule : Class := cls 12 "SharedModule".

Definition imports_only (l : list Class) : ModuleMetadata :=
  {| md_imports := l; md_providers := []; md_controllers := []; md_exports := [] |}.

Definition diamond_A_first : Reflection :=
  {| module_metadata :=
       [(RootModule, imports_only [ModuleA; SharedModule]);
        (ModuleA, imports_only [SharedModule]);
        (SharedModule, imports_only [])];
     paramtypes := [] |}.

Definition diamond_shared_first : Reflection :=
  {| module_metadata :=
       [(RootModule, imports_only [SharedModule; ModuleA]);
        (ModuleA, imports_only [SharedModule]);
        (SharedModule, imports_only [])];
     paramtypes := [] |}.

(** The tokens and distances that the container holds. *)
Definition distances (s : NestState) : list (string * nat) :=
  map (fun entry => (fst entry, distance (snd entry))) (modules s).

(** Three modules in a row: [AppModule] imports [IntermediateModule], which
    imports [UpstreamModule] and exports nothing; [UpstreamModule] provides
    and exports [SharedService]; [AppService] of [AppModule] takes a
    [SharedService]. *)
Definition AppModule : Class := cls 20 "AppModule".
Definition IntermediateModule : Class := cls 21 "IntermediateModule".
Definition UpstreamModule : Class := cls 22 "UpstreamModule".
Definition SharedService : Class := cls 23 "SharedService".
Definition AppService : Class := cls 24 "AppService".

Definition look_through_reflection : Reflection :=
  {| module_metadata :=
       [(AppModule,
         {| md_imports := [IntermediateModule]; md_providers := [AppService];
            md_controllers := []; md_exports := [] |});
        (IntermediateModule, imports_only [UpstreamModule]);
        (UpstreamModule,
         {| md_imports := []; md_providers := [SharedService];
            md_controllers := []; md_exports := [SharedService] |})];
     paramtypes := [(AppService, [Some SharedService])] |}.

Definition look_through_scanned : NestState :=
  snd (scan look_through_reflection 10 AppModule new_NestContainer).

Definition look_through_rank (moduleRef : string) : nat :=
  if String.eqb moduleRef "AppModule" then 2
  else if String.eqb moduleRef "IntermediateModule" then 1
  else 0.

(** ** The sample application: [AppModule] imports [CatsModule], whose
    controller takes the [CatsService] that the module provides and
    exports. *)
Definition CatsAppModule : Class := cls 30 "AppModule".
Definition CatsModule : Class := cls 31 "CatsModule".
Definition CatsController : Class := cls 32 "CatsController".
Definition CatsService : Class := cls 33 "CatsService".

Definition cats_reflection : Reflection :=
  {| module_metadata :=
       [(CatsAppModule, imports_only [CatsModule]);
        (CatsModule,
         {| md_imports := []; md_providers := [CatsService];
            md_controllers := [CatsController]; md_exports := [CatsService] |})];
     paramtypes := [(CatsController, [Some CatsService])] |}.

Definition empty_controller (n : string) : ControllerClass Journal :=
  {| controller_name := n; controller_path := None; controller_guards := [];
     controller_pipes := []; controller_interceptors := []; controller_filters := [];
     prototype_methods := [] |}.

Definition cats_controller_class (c : Class) : ControllerClass Journal :=
  if Class_eqb c CatsController then cats_controller else empty_controller (class_name c).

Definition cats_application : Outcome (MiniNestApplication Journal) :=
  MiniNestFactory_create cats_controller_class sample_createParamsResolver sample_parseBody
    cats_reflection 10 CatsAppModule.

(* ================================================================== *)
(** * Part V. Properties of the request pipeline                        *)
(* ================================================================== *)

Section PipelineProperties.

Variable U : Type.

Lemma bind_ret_l (A B : Type) (a : A) (k : A -> Action (World U) B) :
  bind (ret a) k = k a.
Proof. reflexivity. Qed.

Lemma bind_normal (A B : Type) (m : Action (World U) A) (k : A -> Action (World U) B)
  (w w' : World U) (a : A) :
  m w = (Normal a, w') -> bind m k w = k a w'.
Proof. intros H. unfold bind. now rewrite H. Qed.

Lemma bind_abrupt (A B : Type) (m : Action (World U) A) (k : A -> Action (World U) B)
  (w w' : World U) (e : Exception) :
  m w = (Abrupt e, w') -> bind m k w = (Abrupt e, w').
Proof. intros H. unfold bind. now rewrite H. Qed.

Lemma try_catch_normal (A : Type) (m : Action (World U) A) (h : Exception -> Action (World U) A)
  (w w' : World U) (a : A) :
  m w = (Normal a, w') -> try_catch m h w = (Normal a, w').
Proof. intros H. unfold try_catch. now rewrite H. Qed.

Lemma try_catch_abrupt (A : Type) (m : Action (World U) A) (h : Exception -> Action (World U) A)
  (w w' : World U) (e : Exception) :
  m w = (Abrupt e, w') -> try_catch m h w = h e w'.
Proof. intros H. unfold try_catch. now rewrite H. Qed.

Lemma applyPipes_cons (value : JsValue) (metadata : ArgumentMetadata)
  (pipe : PipeTransform U) (rest : list (PipeTransform U)) (w : World U) :
  applyPipes value metadata (pipe :: rest) w =
  (log (LogPipe (pipe_name pipe)) ;;;
   v <- transform pipe value metadata ;;
   applyPipes v metadata rest) w.
Proof.
  unfold applyPipes at 1. cbn [applyPipes_loop].
  unfold bind. cbn.
  destruct (transform pipe value metadata _) as [[v | e] w']; [ | reflexivity ].
  destruct rest; reflexivity.
Qed.

(** A pipe whose [transform] computes [f] and touches nothing. *)
Definition pure_pipe (name : string) (f : JsValue -> ArgumentMetadata -> JsValue)
  : PipeTransform U :=
  {| pipe_name := name; transform := fun value metadata => ret (f value metadata) |}.

Definition add_console (entries : list LogEntry) (w : World U) : World U :=
  {| response := response w; console := console w ++ entries; user := user w |}.

Lemma add_console_nil (w : World U) : add_console [] w = w.
Proof. destruct w; unfold add_console; cbn. now rewrite app_nil_r. Qed.

Lemma add_console_app (l1 l2 : list LogEntry) (w : World U) :
  add_console l2 (add_console l1 w) = add_console (l1 ++ l2) w.
Proof. unfold add_console; cbn. now rewrite app_assoc. Qed.

Lemma applyPipes_pure (fs : list (string * (JsValue -> ArgumentMetadata -> JsValue)))
  (value : JsValue) (metadata : ArgumentMetadata) (w : World U) :
  applyPipes value metadata (map (fun nf => pure_pipe (fst nf) (snd nf)) fs) w =
  (Normal (fold_left (fun v nf => snd nf v metadata) fs value),
   add_console (map (fun nf => LogPipe (fst nf)) fs) w).
Proof.
  revert value w. induction fs as [ | [name f] fs IH]; intros value w.
  - cbn. now rewrite add_console_nil.
  - cbn [map]. rewrite applyPipes_cons. unfold bind at 1. cbn [log].
    unfold bind at 1. cbn [pure_pipe transform ret fst snd].
    rewrite IH. cbn [fold_left fst snd]. f_equal.
    unfold add_console; cbn. now rewrite <- app_assoc.
Qed.

Lemma array_get_set (i j : nat) (v : JsValue) (l : list JsValue) :
  array_get j (array_set i v l) = if Nat.eqb i j then v else array_get j l.
Proof.
  unfold array_get. revert j l. induction i as [ | i IH ]; intros j l.
  - destruct l, j; cbn; try reflexivity. now destruct j.
  - destruct l as [ | x l ], j as [ | j ]; cbn [array_set nth Nat.eqb]; try reflexivity.
    + rewrite IH. destruct (Nat.eqb i j); [ reflexivity | now destruct j ].
    + apply IH.
Qed.

Lemma length_array_set (i : nat) (v : JsValue) (l : list JsValue) :
  List.length (array_set i v l) = Nat.max (S i) (List.length l).
Proof.
  revert l. induction i as [ | i IH ]; intros l.
  - destruct l; cbn; [ reflexivity | ]. now destruct (List.length l).
  - destruct l as [ | x l ]; cbn [array_set List.length].
    + rewrite IH. cbn. lia.
    + rewrite IH. lia.
Qed.

Lemma applyPipesToArgs_loop_untouched (pipes : list (PipeTransform U))
  (entries : list (string * RouteParamMetadata)) (args : list JsValue) :
  forall transformedArgs (w w' : World U) result,
    applyPipesToArgs_loop entries args transformedArgs pipes w = (Normal result, w') ->
    List.length transformedArgs <= List.length result /\
    forall j, (forall key entry, In (key, entry) entries -> index entry <> j) ->
              array_get j result = array_get j transformedArgs.
Proof.
  induction entries as [ | [key entry] rest IH ]; intros transformedArgs w w' result H.
  - cbn in H. inversion H; subst. split; [ lia | reflexivity ].
  - cbn [applyPipesToArgs_loop] in H. unfold bind at 1 in H.
    destruct (applyPipes _ _ pipes w) as [[v | e] w1]; [ | discriminate ].
    destruct (IH _ _ _ _ H) as [Hlen Hget]. split.
    + rewrite length_array_set in Hlen. lia.
    + intros j Hj. rewrite Hget.
      * rewrite array_get_set.
        destruct (Nat.eqb (index entry) j) eqn:E; [ | reflexivity ].
        apply Nat.eqb_eq in E. exfalso. exact (Hj key entry (or_introl eq_refl) E).
      * intros key' entry' Hin. apply (Hj key'). now right.
Qed.

(** The world after the response has been sent with [result], if it had
    not been ended before. *)
Definition send_result (result : JsValue) (w : World U) : World U :=
  if writableEnded (response w) then w
  else {| response := res_end (JSON_stringify result)
                        (setHeader "Content-Type" "application/json" (response w));
          console := console w; user := user w |}.

(** The [ArgumentMetadata] that [applyPipesToArgs] builds for an entry. *)
Definition argument_metadata (entry : RouteParamMetadata) : ArgumentMetadata :=
  {| arg_type := paramTypeToString (type entry); arg_data := data entry |}.

Lemma applyPipesToArgs_loop_app (pipes : list (PipeTransform U))
  (pre post : list (string * RouteParamMetadata)) (args : list JsValue) :
  forall transformedArgs (w : World U),
    applyPipesToArgs_loop (pre ++ post) args transformedArgs pipes w =
    (done <- applyPipesToArgs_loop pre args transformedArgs pipes ;;
     applyPipesToArgs_loop post args done pipes) w.
Proof.
  induction pre as [ | [key entry] pre IH ]; intros transformedArgs w; [ reflexivity | ].
  cbn [app applyPipesToArgs_loop]. unfold bind.
  destruct (applyPipes _ _ pipes w) as [[v | e] w1]; [ | reflexivity ].
  rewrite IH. reflexivity.
Qed.

(** What a chain of transforms that compute functions makes of the
    argument of an entry. *)
Definition chain_output (fs : list (string * (JsValue -> ArgumentMetadata -> JsValue)))
  (args : list JsValue) (entry : RouteParamMetadata) : JsValue :=
  fold_left (fun v nf => snd nf v (argument_metadata entry)) fs (array_get (index entry) args).

Lemma applyPipesToArgs_loop_pure (fs : list (string * (JsValue -> ArgumentMetadata -> JsValue)))
  (entries : list (string * RouteParamMetadata)) (args : list JsValue) :
  forall transformedArgs (w : World U),
    applyPipesToArgs_loop entries args transformedArgs
      (map (fun nf => pure_pipe (fst nf) (snd nf)) fs) w =
    (Normal (fold_left (fun done kv => array_set (index (snd kv)) (chain_output fs args (snd kv)) done)
                       entries transformedArgs),
     add_console (flat_map (fun _ => map (fun nf => LogPipe (fst nf)) fs) entries) w).
Proof.
  induction entries as [ | [key entry] rest IH ]; intros transformedArgs w.
  - cbn. now rewrite add_console_nil.
  - cbn [applyPipesToArgs_loop]. unfold bind at 1.
    rewrite applyPipes_pure. rewrite IH. cbn [fold_left flat_map snd].
    now rewrite add_console_app.
Qed.

Lemma fold_array_set_other (g : RouteParamMetadata -> JsValue)
  (entries : list (string * RouteParamMetadata)) :
  forall done j,
    ~ In j (map (fun kv => index (snd kv)) entries) ->
    array_get j (fold_left (fun done kv => array_set (index (snd kv)) (g (snd kv)) done)
                           entries done) =
    array_get j done.
Proof.
  induction entries as [ | kv rest IH ]; intros done j Hnot; [ reflexivity | ].
  cbn [fold_left]. rewrite IH by (intros H; apply Hnot; now right).
  rewrite array_get_set. destruct (Nat.eqb (index (snd kv)) j) eqn:E; [ | reflexivity ].
  apply Nat.eqb_eq in E. exfalso. apply Hnot. now left.
Qed.

Lemma fold_array_set_own (g : RouteParamMetadata -> JsValue)
  (entries : list (string * RouteParamMetadata)) :
  forall done kv,
    NoDup (map (fun kv => index (snd kv)) entries) -> In kv entries ->
    array_get (index (snd kv))
      (fold_left (fun done kv => array_set (index (snd kv)) (g (snd kv)) done) entries done) =
    g (snd kv).
Proof.
  induction entries as [ | x rest IH ]; intros done kv Hnodup Hin; [ destruct Hin | ].
  inversion Hnodup as [ | ? ? Hx Hrest ]; subst. destruct Hin as [-> | Hin].
  - cbn [fold_left]. rewrite fold_array_set_other by exact Hx.
    now rewrite array_get_set, Nat.eqb_refl.
  - cbn [fold_left]. now apply IH.
Qed.

(** C8. Transforms are applied in declared order, each fed the output of
    the one before: an empty list returns the value untouched; a non-empty
    list runs its first transform on the value and the remaining transforms
    on the result; for transforms that compute functions the outcome is the
    left-to-right composition; the chain of the unit test turns ["value"]
    into ["value-first"] and then ["value-first-second"].  The result of the
    chain becomes the argument: for every entry of the parameter metadata,
    wherever it stands, [applyPipesToArgs] first deals with the entries before
    it, then runs the chain on the argument that the entry names, writes the
    result at its index and goes on with the entries after it; when it
    returns, the array holds at that index the result of that chain, unless a
    later entry names the same index; a chain that throws ends it; for
    transforms that compute functions and entries with distinct indexes,
    every decorated argument is the composition applied to it and every other
    argument is as it was.  The array that [applyPipesToArgs] returns is what
    the handler method is applied to. *)
Theorem transform_chaining :
  (forall value metadata (w : World U),
      applyPipes value metadata [] w = (Normal value, w)) /\
  (forall value metadata (pipe : PipeTransform U) rest w,
      applyPipes value metadata (pipe :: rest) w =
      (log (LogPipe (pipe_name pipe)) ;;;
       v <- transform pipe value metadata ;;
       applyPipes v metadata rest) w) /\
  (forall fs value metadata (w : World U),
      applyPipes value metadata (map (fun nf => pure_pipe (fst nf) (snd nf)) fs) w =
      (Normal (fold_left (fun v nf => snd nf v metadata) fs value),
       add_console (map (fun nf => LogPipe (fst nf)) fs) w)) /\
  (forall args (pipe : PipeTransform U) pipes key entry w,
      applyPipesToArgs args (pipe :: pipes) [(key, entry)] w =
      (v <- applyPipes (array_get (index entry) args)
              {| arg_type := paramTypeToString (type entry); arg_data := data entry |}
              (pipe :: pipes) ;;
       ret (array_set (index entry) v args)) w) /\
  (forall args (pipe : PipeTransform U) pipes pre key entry post w,
      applyPipesToArgs args (pipe :: pipes) (pre ++ (key, entry) :: post) w =
      (done <- applyPipesToArgs args (pipe :: pipes) pre ;;
       v <- applyPipes (array_get (index entry) args) (argument_metadata entry)
              (pipe :: pipes) ;;
       applyPipesToArgs_loop post args (array_set (index entry) v done) (pipe :: pipes)) w) /\
  (forall args (pipe : PipeTransform U) pipes pre key entry post w args' w',
      applyPipesToArgs args (pipe :: pipes) (pre ++ (key, entry) :: post) w =
      (Normal args', w') ->
      exists done w1 v w2,
        applyPipesToArgs args (pipe :: pipes) pre w = (Normal done, w1) /\
        applyPipes (array_get (index entry) args) (argument_metadata entry) (pipe :: pipes) w1 =
        (Normal v, w2) /\
        applyPipesToArgs_loop post args (array_set (index entry) v done) (pipe :: pipes) w2 =
        (Normal args', w') /\
        ((forall k e, In (k, e) post -> index e <> index entry) ->
         array_get (index entry) args' = v)) /\
  (forall args (pipe : PipeTransform U) pipes pre key entry post w done w1 e w2,
      applyPipesToArgs args (pipe :: pipes) pre w = (Normal done, w1) ->
      applyPipes (array_get (index entry) args) (argument_metadata entry) (pipe :: pipes) w1 =
      (Abrupt e, w2) ->
      applyPipesToArgs args (pipe :: pipes) (pre ++ (key, entry) :: post) w = (Abrupt e, w2)) /\
  (forall fs args argsMetadata (w : World U),
      fs <> [] ->
      NoDup (map (fun kv => index (snd kv)) argsMetadata) ->
      exists args',
        applyPipesToArgs args (map (fun nf => pure_pipe (fst nf) (snd nf)) fs) argsMetadata w =
        (Normal args',
         add_console (flat_map (fun _ => map (fun nf => LogPipe (fst nf)) fs) argsMetadata) w) /\
        (forall key entry,
            In (key, entry) argsMetadata ->
            array_get (index entry) args' =
            fold_left (fun v nf => snd nf v (argument_metadata entry)) fs
                      (array_get (index entry) args)) /\
        (forall j, ~ In j (map (fun kv => index (snd kv)) argsMetadata) ->
                   array_get j args' = array_get j args)) /\
  (forall (this this_now : RouterExecutionContext U) instance (handler : HandlerMethod U)
          (controllerClass : ControllerClass U) resolveParams parseBody req
          (w w1 w2 w3 w4 w5 : World U) allowed body args args' result,
      let context :=
        createExecutionContext req (controller_name controllerClass) (methodName handler) in
      tryActivate (reflectGuards controllerClass handler) context (add_console [LogRunGuards] w) =
      (Normal allowed, w1) ->
      parseBody req w1 = (Normal body, w2) ->
      resolveParams req body w2 = (Normal args, w3) ->
      applyPipesToArgs args (reflectPipes controllerClass handler) (method_args handler)
        (add_console [LogRunPipes] w3) = (Normal args', w4) ->
      InterceptorsConsumer_intercept (reflectInterceptors controllerClass handler) context
        (log LogRunHandler ;;; method_apply handler instance args')
        (add_console [LogRunInterceptors] w4) = (Normal result, w5) ->
      snd (create this instance handler controllerClass resolveParams parseBody) this_now req w =
      (Normal tt, send_result result w5)) /\
  (let out := applyPipes (JsString "value") (param_metadata "id")
                [suffix_pipe "first" "-first"; suffix_pipe "second" "-second"] empty_world in
   fst out = Normal (JsString "value-first-second") /\
   user (snd out) = [JsString "value"; JsString "value-first"]) /\
  (let out := echo_request_handler (new_RouterExecutionContext Journal)
                (sample_request "GET" "/echo/value" [] "") empty_world in
   user (snd out) = [JsString "value"; JsString "value-first";
                     JsArray [JsString "value-first-second"]] /\
   res_body (response (snd out)) = [JSON_stringify (JsString "value-first-second")]).
Proof.
  assert (Hsplit : forall args (pipe : PipeTransform U) pipes pre key entry post w,
             applyPipesToArgs args (pipe :: pipes) (pre ++ (key, entry) :: post) w =
             (done <- applyPipesToArgs args (pipe :: pipes) pre ;;
              v <- applyPipes (array_get (index entry) args) (argument_metadata entry)
                     (pipe :: pipes) ;;
              applyPipesToArgs_loop post args (array_set (index entry) v done) (pipe :: pipes))
               w).
  { intros args pipe pipes pre key entry post w. unfold applyPipesToArgs.
    now rewrite applyPipesToArgs_loop_app. }
  split; [ reflexivity | ].
  split; [ intros; apply applyPipes_cons | ].
  split; [ intros; apply applyPipes_pure | ].
  split; [ intros args pipe pipes key entry w; unfold applyPipesToArgs;
           cbn [applyPipesToArgs_loop]; reflexivity | ].
  split; [ exact Hsplit | ].
  split.
  { intros args pipe pipes pre key entry post w args' w' Hrun.
    rewrite Hsplit in Hrun. unfold bind at 1 in Hrun.
    destruct (applyPipesToArgs args (pipe :: pipes) pre w) as [[done | e] w1] eqn:Epre;
      [ | discriminate ].
    unfold bind at 1 in Hrun.
    destruct (applyPipes _ _ (pipe :: pipes) w1) as [[v | e] w2] eqn:Echain;
      [ | discriminate ].
    exists done, w1, v, w2. split; [ reflexivity | ]. split; [ exact Echain | ].
    split; [ exact Hrun | ].
    intros Hpost.
    destruct (applyPipesToArgs_loop_untouched _ _ _ _ _ Hrun) as [_ Hget].
    rewrite (Hget (index entry)) by (intros k e' Hin; exact (Hpost k e' Hin)).
    now rewrite array_get_set, Nat.eqb_refl. }
  split.
  { intros args pipe pipes pre key entry post w done w1 e w2 Hpre Hchain.
    rewrite Hsplit. rewrite bind_normal with (w' := w1) (a := done) by exact Hpre.
    now apply bind_abrupt. }
  split.
  { intros fs args argsMetadata w Hfs Hnodup. unfold applyPipesToArgs.
    destruct fs as [ | nf fs ]; [ congruence | ]. cbn [map].
    change (pure_pipe (fst nf) (snd nf) :: map (fun nf0 => pure_pipe (fst nf0) (snd nf0)) fs)
      with (map (fun nf0 => pure_pipe (fst nf0) (snd nf0)) (nf :: fs)).
    rewrite applyPipesToArgs_loop_pure. eexists. split; [ reflexivity | ]. split.
    - intros key entry Hin.
      exact (@fold_array_set_own (chain_output (nf :: fs) args) argsMetadata args (key, entry)
               Hnodup Hin).
    - intros j Hnot. now apply fold_array_set_other. }
  split.
  { intros this this_now instance handler controllerClass resolveParams parseBody req
           w w1 w2 w3 w4 w5 allowed body args args' result context
           Hguards Hbody Hargs Hpipes Hcall.
    cbn [create snd]. fold context.
    apply try_catch_normal. unfold pipeline_body, pipeline_after_guards.
    rewrite bind_normal with (w' := add_console [LogRunGuards] w) (a := tt) by reflexivity.
    rewrite bind_normal with (w' := w1) (a := allowed) by exact Hguards.
    rewrite bind_normal with (w' := w2) (a := body) by exact Hbody.
    rewrite bind_normal with (w' := w3) (a := args) by exact Hargs.
    rewrite bind_normal with (w' := add_console [LogRunPipes] w3) (a := tt) by reflexivity.
    rewrite bind_normal with (w' := w4) (a := args') by exact Hpipes.
    rewrite bind_normal with (w' := add_console [LogRunInterceptors] w4) (a := tt)
      by reflexivity.
    rewrite bind_normal with (w' := w5) (a := result) by exact Hcall.
    unfold send_result. destruct (writableEnded (response w5)); reflexivity. }
  split; vm_compute; split; reflexivity.
Qed.

Lemma intercept_cons (interceptor : NestInterceptor U) (rest : list (NestInterceptor U))
  (context : ExecutionContext) (next : Action (World U) JsValue) :
  InterceptorsConsumer_intercept (interceptor :: rest) context next =
  intercept_step context interceptor (InterceptorsConsumer_intercept rest context next).
Proof. destruct rest; reflexivity. Qed.

(** An interceptor that returns the result of [body] and never calls
    [next.handle()]. *)
Definition skipping_interceptor (name : string) (body : ExecutionContext -> Action (World U) JsValue)
  : NestInterceptor U :=
  {| interceptor_name := name; intercept := fun context _ => body context |}.

(** C4. The interceptors form an onion: with no interceptor the handler is
    run directly; otherwise the first interceptor is entered first and its
    [next.handle()] is the chain of the remaining interceptors around the
    handler, so the innermost callback is the handler itself; for the two
    interceptors of the unit test the order is I1-before, I2-before, handler,
    I2-after, I1-after; an interceptor that never calls [next.handle()] keeps
    the rest of the chain and the handler from running, and what it returns
    is the result. *)
Theorem interceptor_onion_order :
  (forall context (next : Action (World U) JsValue),
      InterceptorsConsumer_intercept [] context next = next) /\
  (forall (interceptor : NestInterceptor U) rest context next,
      InterceptorsConsumer_intercept (interceptor :: rest) context next =
      (log (LogInterceptorEnter (interceptor_name interceptor)) ;;;
       result <- intercept interceptor context
                   (InterceptorsConsumer_intercept rest context next) ;;
       log (LogInterceptorExit (interceptor_name interceptor)) ;;;
       ret result)) /\
  (forall (interceptor : NestInterceptor U) context next,
      InterceptorsConsumer_intercept [interceptor] context next =
      (log (LogInterceptorEnter (interceptor_name interceptor)) ;;;
       result <- intercept interceptor context next ;;
       log (LogInterceptorExit (interceptor_name interceptor)) ;;;
       ret result)) /\
  (let out := InterceptorsConsumer_intercept
                [around_interceptor "interceptor1"; around_interceptor "interceptor2"]
                sample_context sample_handler empty_world in
   fst out = Normal (JsString "done") /\
   user (snd out) = [JsString "interceptor1-before"; JsString "interceptor2-before";
                     JsString "handler";
                     JsString "interceptor2-after"; JsString "interceptor1-after"]) /\
  (forall name body rest context (next : Action (World U) JsValue),
      InterceptorsConsumer_intercept (skipping_interceptor name body :: rest) context next =
      (log (LogInterceptorEnter name) ;;;
       result <- body context ;;
       log (LogInterceptorExit name) ;;;
       ret result)).
Proof.
  split; [ reflexivity | ].
  split; [ intros; apply intercept_cons | ].
  split; [ reflexivity | ].
  split; [ vm_compute; split; reflexivity | ].
  intros name body rest context next. rewrite intercept_cons. reflexivity.
Qed.

(** Every guard of the list answers [true], one after the other, from
    world [w] to world [w']. *)
Inductive guards_allow (context : ExecutionContext)
  : list (CanActivate U) -> World U -> World U -> Prop :=
| guards_allow_nil : forall w, guards_allow context [] w w
| guards_allow_cons : forall guard rest w w1 w2,
    canActivate guard context w = (Normal true, w1) ->
    guards_allow context rest (add_console [LogGuardPassed (guard_name guard)] w1) w2 ->
    guards_allow context (guard :: rest) w w2.

Lemma tryActivate_loop_allow (context : ExecutionContext) (guards : list (CanActivate U))
  (w w' : World U) :
  guards_allow context guards w w' ->
  tryActivate_loop guards context w = (Normal tt, w').
Proof.
  induction 1 as [ w | guard rest w w1 w2 Hg _ IH ].
  - reflexivity.
  - cbn [tryActivate_loop]. unfold bind at 1. rewrite Hg. cbn. exact IH.
Qed.

Lemma tryActivate_loop_deny (context : ExecutionContext) (pre post : list (CanActivate U))
  (g : CanActivate U) (w w1 w2 : World U) :
  guards_allow context pre w w1 ->
  canActivate g context w1 = (Normal false, w2) ->
  tryActivate_loop (pre ++ g :: post) context w =
  (Abrupt (new_ForbiddenException (RespString "Forbidden resource")),
   add_console [LogGuardDenied (guard_name g)] w2).
Proof.
  intros Hpre Hg. induction Hpre as [ w | guard rest w w1 w3 Hguard _ IH ].
  - cbn [app tryActivate_loop]. unfold bind at 1. rewrite Hg. reflexivity.
  - cbn [app tryActivate_loop]. unfold bind at 1. rewrite Hguard. cbn. exact (IH Hg).
Qed.

Lemma tryActivate_allow (context : ExecutionContext) (guards : list (CanActivate U))
  (w w' : World U) :
  guards_allow context guards w w' ->
  tryActivate guards context w = (Normal true, w').
Proof.
  intros H. destruct guards as [ | g rest ].
  - inversion H; subst. reflexivity.
  - unfold tryActivate, bind. now rewrite (tryActivate_loop_allow H).
Qed.

Lemma tryActivate_deny (context : ExecutionContext) (pre post : list (CanActivate U))
  (g : CanActivate U) (w w1 w2 : World U) :
  guards_allow context pre w w1 ->
  canActivate g context w1 = (Normal false, w2) ->
  tryActivate (pre ++ g :: post) context w =
  (Abrupt (new_ForbiddenException (RespString "Forbidden resource")),
   add_console [LogGuardDenied (guard_name g)] w2).
Proof.
  intros Hpre Hg. unfold tryActivate.
  destruct (pre ++ g :: post) as [ | x l ] eqn:E.
  - now destruct pre.
  - rewrite <- E. unfold bind. now rewrite (tryActivate_loop_deny post g Hpre Hg).
Qed.

(** C3. The guards run first and in order.  When all of them allow (or
    there is none) the request goes on to body acquisition and the later
    stages.  At the first guard that denies, a [ForbiddenException] (403) is
    raised and handed to the exceptions handler in the world the guards left:
    the later guards, the body parser, the parameter resolver, the pipes, the
    interceptors and the handler do not appear in the outcome, whatever they
    are. *)
Theorem guard_short_circuit
  (this this_now : RouterExecutionContext U) (instance : InstanceRef)
  (handler : HandlerMethod U) (controllerClass : ControllerClass U)
  (resolveParams : IncomingMessage -> JsValue -> Action (World U) (list JsValue))
  (parseBody : IncomingMessage -> Action (World U) JsValue)
  (req : IncomingMessage) (w : World U) :
  let context := createExecutionContext req (controller_name controllerClass) (methodName handler) in
  let on_error := fun error =>
    log LogRunExceptionHandling ;;;
    handle (exceptionsHandler this_now) error (createArgumentsHost req) in
  (forall w1,
      guards_allow context (reflectGuards controllerClass handler)
                   (add_console [LogRunGuards] w) w1 ->
      snd (create this instance handler controllerClass resolveParams parseBody) this_now req w =
      try_catch
        (pipeline_after_guards instance handler (reflectPipes controllerClass handler)
           (reflectInterceptors controllerClass handler) resolveParams parseBody req context)
        on_error w1) /\
  (forall pre g post w1 w2,
      reflectGuards controllerClass handler = pre ++ g :: post ->
      guards_allow context pre (add_console [LogRunGuards] w) w1 ->
      canActivate g context w1 = (Normal false, w2) ->
      snd (create this instance handler controllerClass resolveParams parseBody) this_now req w =
      handle (exceptionsHandler this_now)
             (HttpError ForbiddenException (RespString "Forbidden resource") 403)
             (createArgumentsHost req)
             (add_console [LogGuardDenied (guard_name g); LogRunExceptionHandling] w2)).
Proof.
  intros context on_error. split.
  - intros w1 Hallow. cbn [create snd]. fold context.
    unfold try_catch at 1, pipeline_body.
    rewrite bind_normal with (w' := add_console [LogRunGuards] w) (a := tt) by reflexivity.
    rewrite bind_normal with (w' := w1) (a := true) by exact (tryActivate_allow Hallow).
    reflexivity.
  - intros pre g post w1 w2 Hguards Hpre Hg. cbn [create snd]. fold context.
    rewrite try_catch_abrupt
      with (e := new_ForbiddenException (RespString "Forbidden resource"))
           (w' := add_console [LogGuardDenied (guard_name g)] w2).
    + rewrite bind_normal
        with (w' := add_console [LogRunExceptionHandling]
                      (add_console [LogGuardDenied (guard_name g)] w2))
             (a := tt) by reflexivity.
      now rewrite add_console_app.
    + unfold pipeline_body.
      rewrite bind_normal with (w' := add_console [LogRunGuards] w) (a := tt) by reflexivity.
      apply bind_abrupt. rewrite Hguards. exact (tryActivate_deny post g Hpre Hg).
Qed.

(** ** Dispatch and error handling *)

Variable URL_pathname : IncomingMessage -> option string.
Variable RegExp_test : string -> string -> bool.
Variable createParamsResolver :
  ControllerClass U -> HandlerMethod U -> string -> IncomingMessage -> JsValue ->
  Action (World U) (list JsValue).
Variable createBodyParser : IncomingMessage -> Action (World U) JsValue.

Lemma findRoute_none (this : RouterExplorer U) (method pathname : string) :
  (forall route, In route (routes this) ->
                 route_method route <> method \/
                 RegExp_test (route_path route) pathname = false) ->
  findRoute RegExp_test this method pathname = None.
Proof.
  unfold findRoute. induction (routes this) as [ | r l IH ]; intros H.
  - reflexivity.
  - cbn [find]. destruct (H r (or_introl eq_refl)) as [Hm | Hp].
    + apply String.eqb_neq in Hm. rewrite Hm. cbn.
      apply IH. intros route Hin. apply H. now right.
    + rewrite Hp. rewrite Tauto.if_same. apply IH. intros route Hin. apply H. now right.
Qed.

(** C5. A request whose method and path match no registered route is
    answered at once: status 404, a JSON body with [statusCode] and
    [message], and nothing else happens to the world: the user state is
    untouched and the outcome does not depend on any guard, pipe, interceptor,
    handler or filter of the registered routes. *)
Theorem unmatched_route_404 (this : RouterExplorer U) (req : IncomingMessage)
  (w : World U) (pathname : string) :
  URL_pathname req = Some pathname ->
  (forall route, In route (routes this) ->
                 route_method route <> request_method req \/
                 RegExp_test (route_path route) pathname = false) ->
  createRequestHandler URL_pathname RegExp_test this req w =
  (Normal tt,
   {| response :=
        {| statusCode := 404;
           res_headers := res_headers
                            (setHeader "Content-Type" "application/json" (response w));
           res_body := res_body (response w) ++
                       [JSON_stringify
                          (JsObject
                             [("statusCode", JsNumber 404);
                              ("message",
                               JsString ("Cannot " ++ toUpperCase (request_method req)
                                                   ++ " " ++ pathname))])];
           writableEnded := true |};
      console := console w ++
                 [LogSeparator; LogRequest (toUpperCase (request_method req)) pathname;
                  LogSeparator];
      user := user w |}).
Proof.
  intros Hurl Hnone. unfold createRequestHandler. rewrite Hurl.
  cbv zeta. unfold bind at 1. cbn [log]. unfold bind at 1. cbn [log].
  unfold bind at 1. cbn [log].
  rewrite findRoute_none by exact Hnone.
  unfold bind, update_response, res_end, setHeader, set_statusCode, not_found_body. cbn.
  repeat rewrite <- app_assoc. reflexivity.
Qed.

(** No registered filter catches the exception: every filter names at least
    one class and the exception is an instance of none of them. *)
Definition no_filter_matches (this : ExceptionsHandler U) (exception : Exception) : Prop :=
  forall filter, In filter (filters this) ->
    catch_types filter <> [] /\
    forall t, In t (catch_types filter) -> instanceof exception t = false.

Lemma findFilter_none (this : ExceptionsHandler U) (exception : Exception) :
  no_filter_matches this exception -> findFilter this exception = None.
Proof.
  unfold no_filter_matches, findFilter.
  induction (filters this) as [ | f l IH ]; intros H; [ reflexivity | ].
  cbn [findFilter_loop].
  destruct (H f (or_introl eq_refl)) as [Hne Hinst].
  destruct (catch_types f) as [ | t ts ] eqn:E; [ congruence | ].
  assert (Hex : existsb (instanceof exception) (t :: ts) = false).
  { apply not_true_is_false. intros Hex. apply existsb_exists in Hex.
    destruct Hex as [x [Hin Hx]]. rewrite (Hinst x Hin) in Hx. discriminate. }
  rewrite Hex. apply IH. intros filter Hin. apply H. now right.
Qed.

(** C6, as the code has it.  When no registered filter matches, the
    default handler answers: an [HttpException] with its declared status and
    its message or body; any other [Error] with status 500 and the error's
    own message; a thrown value that is no [Error] with status 500 and the
    generic message.  The status and the message are logged. *)
Theorem default_error_mapping (this : ExceptionsHandler U) (exception : Exception)
  (host : ArgumentsHost) (w : World U) :
  no_filter_matches this exception ->
  handle this exception host w =
  (Normal tt,
   {| response :=
        {| statusCode := default_status exception;
           res_headers := res_headers
                            (setHeader "Content-Type" "application/json" (response w));
           res_body := res_body (response w) ++ [JSON_stringify (default_body exception)];
           writableEnded := true |};
      console := console w ++
                 [LogDefaultHandler (default_status exception) (default_message exception)];
      user := user w |}) /\
  (forall cls s status,
      default_status (HttpError cls (RespString s) status) = status /\
      default_body (HttpError cls (RespString s) status) =
      JsObject [("statusCode", JsNumber status); ("message", JsString s)]) /\
  (forall cls fields status,
      default_status (HttpError cls (RespObject fields) status) = status /\
      default_body (HttpError cls (RespObject fields) status) =
      JsObject (object_spread [("statusCode", JsNumber status)] fields)) /\
  (forall cls message,
      default_status (PlainError cls message) = 500%Z /\
      default_body (PlainError cls message) =
      JsObject [("statusCode", JsNumber 500); ("message", JsString message)]) /\
  (forall v,
      default_status (ThrownValue v) = 500%Z /\
      default_body (ThrownValue v) =
      JsObject [("statusCode", JsNumber 500); ("message", JsString "Internal Server Error")]).
Proof.
  intros Hnone. split.
  - unfold handle. rewrite (findFilter_none Hnone).
    unfold handleDefault, bind, update_response, log, res_end, setHeader, set_statusCode.
    cbn. reflexivity.
  - repeat split; reflexivity.
Qed.

(** ** One exceptions handler for all routes *)

(** The route was built by [exploreMethod]: its request handler is the
    closure that [create] returns for its controller class and method. *)
Definition built_by_explorer (route : RouteInfo U) : Prop :=
  requestHandler route =
  snd (create (new_RouterExecutionContext U) (route_instance route) (route_handler route)
         (route_controllerClass route)
         (createParamsResolver (route_controllerClass route) (route_handler route)
            (route_path route))
         createBodyParser).

(** The filters collected for the route created last, [[]] before any. *)
Definition last_route_filters (this : RouterExplorer U) : list (ExceptionFilter U) :=
  match hd_error (rev (routes this)) with
  | Some last => reflectFilters (route_controllerClass last) (route_handler last)
  | None => []
  end.

Definition explorer_invariant (this : RouterExplorer U) : Prop :=
  (forall route, In route (routes this) -> built_by_explorer route) /\
  filters (exceptionsHandler (executionContext this)) = last_route_filters this.

Lemma exploreMethod_invariant (this : RouterExplorer U) (instance : InstanceRef)
  (metatype : ControllerClass U) (method : HandlerMethod U) :
  explorer_invariant this ->
  explorer_invariant (exploreMethod createParamsResolver createBodyParser this instance metatype method).
Proof.
  intros [Hroutes Hfilters]. unfold exploreMethod.
  destruct (method_path method) as [ routePath | ]; [ | now split ].
  destruct (method_verb method) as [ requestMethod | ]; [ | now split ].
  cbn. split.
  - intros route Hin. cbn in Hin. apply in_app_or in Hin. destruct Hin as [Hin | [Heq | []]].
    + now apply Hroutes.
    + subst route. reflexivity.
  - unfold last_route_filters. cbn. rewrite rev_app_distr. reflexivity.
Qed.

Lemma exploreController_invariant (this : RouterExplorer U) (instance : option InstanceRef)
  (metatype : ControllerClass U) :
  explorer_invariant this ->
  explorer_invariant (exploreController createParamsResolver createBodyParser this instance metatype).
Proof.
  unfold exploreController. destruct instance as [ inst | ]; [ | trivial ].
  generalize (prototype_methods metatype). intros methods. revert this.
  induction methods as [ | m l IH ]; intros this H; [ exact H | ].
  cbn [fold_left]. apply IH. now apply exploreMethod_invariant.
Qed.

Lemma explore_invariant (this : RouterExplorer U)
  (controllers : list (option InstanceRef * ControllerClass U)) :
  explorer_invariant this ->
  explorer_invariant (explore createParamsResolver createBodyParser this controllers).
Proof.
  unfold explore. revert this.
  induction controllers as [ | c l IH ]; intros this H; [ exact H | ].
  cbn [fold_left]. apply IH. now apply exploreController_invariant.
Qed.

Lemma explore_all_invariant (modules : list (list (option InstanceRef * ControllerClass U)))
  (this : RouterExplorer U) :
  explorer_invariant this ->
  explorer_invariant
    (fold_left (explore createParamsResolver createBodyParser) modules this).
Proof.
  revert this. induction modules as [ | m l IH ]; intros this H; [ exact H | ].
  cbn [fold_left]. apply IH. now apply explore_invariant.
Qed.

Lemma new_RouterExplorer_invariant : explorer_invariant (new_RouterExplorer U).
Proof. split; [ intros route [] | reflexivity ]. Qed.

(** C10. After route extraction over all modules with one explorer, the
    single exceptions handler holds the filters collected for the route
    created last; a request that fails in the pipeline of any registered
    route is handled with that list, whatever filters the route's own
    controller and method declare. *)
Theorem shared_filters_last_writer_wins
  (modules : list (list (option InstanceRef * ControllerClass U)))
  (init : list (RouteInfo U)) (last : RouteInfo U) :
  let explorer :=
    fold_left (explore createParamsResolver createBodyParser) modules (new_RouterExplorer U) in
  routes explorer = init ++ [last] ->
  filters (exceptionsHandler (executionContext explorer)) =
  reflectFilters (route_controllerClass last) (route_handler last) /\
  forall route req w error w1,
    In route (routes explorer) ->
    pipeline_body (route_instance route) (route_handler route)
      (reflectGuards (route_controllerClass route) (route_handler route))
      (reflectPipes (route_controllerClass route) (route_handler route))
      (reflectInterceptors (route_controllerClass route) (route_handler route))
      (createParamsResolver (route_controllerClass route) (route_handler route)
         (route_path route))
      createBodyParser req
      (createExecutionContext req (controller_name (route_controllerClass route))
         (methodName (route_handler route)))
      w = (Abrupt error, w1) ->
    requestHandler route (executionContext explorer) req w =
    handle {| filters := reflectFilters (route_controllerClass last) (route_handler last) |}
           error (createArgumentsHost req) (add_console [LogRunExceptionHandling] w1).
Proof.
  intros explorer Hroutes.
  destruct (explore_all_invariant modules new_RouterExplorer_invariant) as [Hbuilt Hfilters].
  fold explorer in Hbuilt, Hfilters.
  assert (Hlast : filters (exceptionsHandler (executionContext explorer)) =
                  reflectFilters (route_controllerClass last) (route_handler last)).
  { rewrite Hfilters. unfold last_route_filters. rewrite Hroutes, rev_app_distr. reflexivity. }
  split; [ exact Hlast | ].
  intros route req w error w1 Hin Hbody.
  rewrite (Hbuilt route Hin). cbn [create snd].
  rewrite try_catch_abrupt with (e := error) (w' := w1) by exact Hbody.
  rewrite bind_normal with (w' := add_console [LogRunExceptionHandling] w1) (a := tt)
    by reflexivity.
  destruct (exceptionsHandler (executionContext explorer)) as [fs]. cbn in Hlast.
  now rewrite Hlast.
Qed.

End PipelineProperties.

(** Two decorated parameters and one without a decorator: both chains
    run, in the order of the metadata, each on its own argument; the argument
    in between stays. *)
Lemma transform_chaining_witness :
  fst (applyPipesToArgs [JsString "a"; JsString "b"; JsString "c"] pair_pipes pair_args
         empty_world) =
  Normal [JsString "a-first-second"; JsString "b"; JsString "c-first-second"] /\
  exists done w1 v w2,
    applyPipesToArgs [JsString "a"; JsString "b"; JsString "c"] pair_pipes
      [("5:0", {| index := 0; data := Some "id"; type := PARAM |})] empty_world =
    (Normal done, w1) /\
    applyPipes (JsString "c") {| arg_type := KindQuery; arg_data := Some "q" |} pair_pipes w1 =
    (Normal v, w2) /\
    done = [JsString "a-first-second"; JsString "b"; JsString "c"] /\
    user w1 = [JsString "a"; JsString "a-first"] /\
    v = JsString "c-first-second" /\
    user w2 = [JsString "a"; JsString "a-first"; JsString "c"; JsString "c-first"].
Proof.
  split; [ vm_compute; reflexivity | ].
  destruct (proj1 (proj2 (proj2 (proj2 (proj2 (proj2 (@transform_chaining Journal))))))
              [JsString "a"; JsString "b"; JsString "c"]
              (suffix_pipe "first" "-first") [suffix_pipe "second" "-second"]
              [("5:0", {| index := 0; data := Some "id"; type := PARAM |})]
              "4:2" {| index := 2; data := Some "q"; type := QUERY |} [] empty_world
              [JsString "a-first-second"; JsString "b"; JsString "c-first-second"]
              (snd (applyPipesToArgs [JsString "a"; JsString "b"; JsString "c"] pair_pipes
                      pair_args empty_world))
              eq_refl)
    as [done [w1 [v [w2 [Hpre [Hchain [Hrest Hget]]]]]]].
  exists done, w1, v, w2.
  split; [ exact Hpre | ]. split; [ exact Hchain | ].
  pose proof (Hget (fun k e (H : In (k, e) []) => match H with end)) as Hv.
  vm_compute in Hpre. inversion Hpre; subst done w1.
  vm_compute in Hchain. inversion Hchain; subst v w2.
  repeat split; reflexivity.
Defined.

(** [POST /cats] without the [authorization] header: the guard denies, the
    default handler answers 403, and only the guard has run.  With the header
    the request goes on to the body parser. *)
Lemma guard_short_circuit_witness :
  (let out := post_cats_handler (new_RouterExecutionContext Journal)
                post_cats_anonymous empty_world in
   statusCode (response (snd out)) = 403%Z /\
   user (snd out) = [JsString "AuthGuard"]) /\
  (let out := post_cats_handler (new_RouterExecutionContext Journal)
                post_cats_authorized empty_world in
   statusCode (response (snd out)) = 200%Z /\
   user (snd out) = [JsString "AuthGuard"; JsString "parseBody"; JsString "ValidationPipe";
                     JsString "LoggingInterceptor-before"; JsString "create";
                     JsString "LoggingInterceptor-after"]).
Proof.
  split.
  - cbv zeta. unfold post_cats_handler.
    rewrite (proj2 (guard_short_circuit
                      (new_RouterExecutionContext Journal) (new_RouterExecutionContext Journal)
                      0 create_method cats_controller
                      (fun _ body => ret [body]) sample_parseBody
                      post_cats_anonymous empty_world)
               [] auth_guard []
               (add_console [LogRunGuards] empty_world)
               {| response := fresh_response; console := [LogRunGuards];
                  user := [JsString "AuthGuard"] |}
               eq_refl (@guards_allow_nil Journal _ _) eq_refl).
    vm_compute. split; reflexivity.
  - cbv zeta. unfold post_cats_handler.
    rewrite (proj1 (guard_short_circuit
                      (new_RouterExecutionContext Journal) (new_RouterExecutionContext Journal)
                      0 create_method cats_controller
                      (fun _ body => ret [body]) sample_parseBody
                      post_cats_authorized empty_world)
               {| response := fresh_response;
                  console := [LogRunGuards; LogGuardPassed "AuthGuard"];
                  user := [JsString "AuthGuard"] |}
               (@guards_allow_cons Journal
                  (createExecutionContext post_cats_authorized "CatsController" "create")
                  auth_guard []
                  (add_console [LogRunGuards] empty_world)
                  {| response := fresh_response; console := [LogRunGuards];
                     user := [JsString "AuthGuard"] |}
                  {| response := fresh_response;
                     console := [LogRunGuards; LogGuardPassed "AuthGuard"];
                     user := [JsString "AuthGuard"] |}
                  eq_refl
                  (@guards_allow_nil Journal _ _))).
    vm_compute. split; reflexivity.
Defined.

(** [GET /dogs] against an explorer that only knows [POST /cats]. *)
Lemma unmatched_route_404_witness :
  createRequestHandler sample_URL_pathname String.eqb cats_explorer
    (sample_request "GET" "/dogs" [] "") empty_world =
  (Normal tt,
   {| response :=
        {| statusCode := 404;
           res_headers := [("Content-Type", "application/json")];
           res_body := [JSON_stringify
                          (JsObject [("statusCode", JsNumber 404);
                                     ("message", JsString "Cannot GET /dogs")])];
           writableEnded := true |};
      console := [LogSeparator; LogRequest "GET" "/dogs"; LogSeparator];
      user := [] |}).
Proof.
  apply (@unmatched_route_404 Journal sample_URL_pathname String.eqb cats_explorer
           (sample_request "GET" "/dogs" [] "") empty_world "/dogs" eq_refl).
  intros route [Heq | []]. subst route. left. cbn. discriminate.
Defined.

(** A plain [Error] passes the [@Catch(HttpException)] filter and reaches
    the default handler. *)
Lemma default_error_mapping_witness :
  handle {| filters := [http_exception_filter] |} driver_error sample_host empty_world =
  (Normal tt,
   {| response :=
        {| statusCode := 500;
           res_headers := [("Content-Type", "application/json")];
           res_body :=
             [JSON_stringify
                (JsObject [("statusCode", JsNumber 500);
                           ("message",
                            JsString "connect ECONNREFUSED 10.0.0.5:5432 user=admin")])];
           writableEnded := true |};
      console :=
        [LogDefaultHandler 500 (JsString "connect ECONNREFUSED 10.0.0.5:5432 user=admin")];
      user := [] |}).
Proof.
  apply (proj1 (@default_error_mapping Journal {| filters := [http_exception_filter] |}
                  driver_error sample_host empty_world
                  (fun filter Hin =>
                     match Hin with
                     | or_introl Heq =>
                         eq_ind http_exception_filter
                           (fun f => catch_types f <> [] /\
                                     forall t, In t (catch_types f) ->
                                               instanceof driver_error t = false)
                           (conj (fun H : [CatchHttp HttpException] = [] =>
                                    eq_ind [CatchHttp HttpException]
                                      (fun l => match l with [] => False | _ => True end)
                                      I [] H)
                                 (fun t Ht =>
                                    match Ht with
                                    | or_introl Et =>
                                        eq_ind (CatchHttp HttpException)
                                          (fun t' => instanceof driver_error t' = false)
                                          eq_refl t Et
                                    | or_intror F => False_ind _ F
                                    end))
                           filter Heq
                     | or_intror F => False_ind _ F
                     end))).
Defined.

(** C6 as stated fails: the message of an error that is no
    [HttpException] is part of the body of the 500 response, in place of the
    generic message. *)
Lemma non_http_error_detail_reaches_client :
  res_body (response (snd (handle {| filters := [] |} driver_error sample_host empty_world))) =
  [JSON_stringify
     (JsObject [("statusCode", JsNumber 500);
                ("message", JsString "connect ECONNREFUSED 10.0.0.5:5432 user=admin")])] /\
  default_body driver_error <>
  JsObject [("statusCode", JsNumber 500); ("message", JsString generic_message)].
Proof.
  split; [ reflexivity | ].
  unfold driver_error, default_body, generic_message. intros H. discriminate H.
Qed.

(** Two controllers explored in turn: the first route declares [OwnFilter],
    the route created last declares none.  The handler of the first route
    throws [NotFoundException]; the shared handler consults the empty list, so
    the default handler answers 404 and [OwnFilter] never runs. *)
Lemma shared_filters_last_writer_wins_witness :
  filters (exceptionsHandler (executionContext two_controller_explorer)) = [] /\
  (let out := requestHandler first_route (executionContext two_controller_explorer)
                (sample_request "GET" "/first" [] "") empty_world in
   statusCode (response (snd out)) = 404%Z /\
   user (snd out) = [JsString "parseBody"] /\
   reflectFilters (route_controllerClass first_route) (route_handler first_route)
   = [own_filter]).
Proof.
  pose proof (@shared_filters_last_writer_wins Journal sample_createParamsResolver
                sample_parseBody two_controller_modules [first_route] second_route eq_refl)
    as [Hfilters Hhandle].
  split; [ exact Hfilters | ].
  cbv zeta.
  pose proof (Hhandle first_route (sample_request "GET" "/first" [] "") empty_world
                (new_NotFoundException (RespString "no such cat"))
                {| response := fresh_response;
                   console := [LogRunGuards; LogRunPipes; LogRunInterceptors; LogRunHandler];
                   user := [JsString "parseBody"] |}
                (or_introl eq_refl) eq_refl) as H.
  split; [ | split; [ | reflexivity ] ].
  - exact (eq_trans (f_equal (fun o => statusCode (response (snd o))) H) eq_refl).
  - exact (eq_trans (f_equal (fun o => user (snd o)) H) eq_refl).
Defined.

(* ================================================================== *)
(** * Part VI. Properties of the scanner                                *)
(* ================================================================== *)

Lemma Class_eqb_eq (a b : Class) : Class_eqb a b = true <-> a = b.
Proof.
  unfold Class_eqb. rewrite andb_true_iff, Nat.eqb_eq, String.eqb_eq.
  destruct a, b; cbn. split.
  - intros [-> ->]. reflexivity.
  - intros H. inversion H. split; reflexivity.
Qed.

Lemma Class_eqb_refl (a : Class) : Class_eqb a a = true.
Proof. now apply Class_eqb_eq. Qed.

Lemma existsb_Class_eqb (x : Class) (l : list Class) :
  existsb (Class_eqb x) l = true <-> In x l.
Proof.
  rewrite existsb_exists. split.
  - intros [y [Hin Heq]]. apply Class_eqb_eq in Heq. now subst.
  - intros Hin. exists x. split; [ exact Hin | apply Class_eqb_refl ].
Qed.

Lemma existsb_Class_eqb_false (x : Class) (l : list Class) :
  existsb (Class_eqb x) l = false <-> ~ In x l.
Proof.
  rewrite <- existsb_Class_eqb. destruct (existsb (Class_eqb x) l); split; congruence.
Qed.

Lemma assoc_class_In {V : Type} (k : Class) (l : list (Class * V)) (v : V) :
  assoc_class k l = Some v -> In (k, v) l.
Proof.
  induction l as [ | [k' v'] l IH ]; cbn; [ discriminate | ].
  destruct (Class_eqb k k') eqn:E.
  - apply Class_eqb_eq in E. subst. intros H. inversion H. now left.
  - intros H. right. now apply IH.
Qed.

Lemma assoc_string_None {V : Type} (k : string) (l : list (string * V)) :
  ~ In k (map fst l) -> assoc_string k l = None.
Proof.
  induction l as [ | [k' v'] l IH ]; cbn; [ reflexivity | ].
  intros H. destruct (String.eqb k k') eqn:E.
  - apply String.eqb_eq in E. subst. exfalso. apply H. now left.
  - apply IH. intros Hin. apply H. now right.
Qed.

Lemma map_set_string_absent {V : Type} (k : string) (v : V) (l : list (string * V)) :
  ~ In k (map fst l) -> map_set_string k v l = l ++ [(k, v)].
Proof.
  induction l as [ | [k' v'] l IH ]; cbn; [ reflexivity | ].
  intros H. destruct (String.eqb k k') eqn:E.
  - apply String.eqb_eq in E. subst. exfalso. apply H. now left.
  - f_equal. apply IH. intros Hin. apply H. now right.
Qed.

Section ScannerProperties.

Variable R : Reflection.
Variable root : Class.

(** The declared imports of a module class. *)
Definition declared_imports (m : Class) : list Class := md_imports (getModuleMetadata R m).

(** [c] belongs to the import graph of the root. *)
Inductive reaches : Class -> Prop :=
| reaches_root : reaches root
| reaches_import : forall m c, reaches m -> In c (declared_imports m) -> reaches c.

(** [chain] is a chain of imports that leads from the root to [c]: the
    scope stack of a visit of [c]. *)
Inductive import_chain : list Class -> Class -> Prop :=
| import_chain_root : import_chain [] root
| import_chain_step : forall chain m c,
    import_chain chain m -> In c (declared_imports m) -> import_chain (chain ++ [m]) c.

(** The depth-first walk of the specification: modules are visited in
    declared import order, a module seen before is skipped, and every first
    visit is noted with the import chain that led to it. *)
Fixpoint first_visits (fuel : nat) (module : Class) (chain : list Class)
  (visits : list (Class * list Class)) : option (list (Class * list Class)) :=
  match fuel with
  | O => None
  | S fuel' =>
      if existsb (Class_eqb module) (map fst visits) then Some visits
      else fold_left
             (fun acc inner =>
                match acc with
                | None => None
                | Some v => first_visits fuel' inner (chain ++ [module]) v
                end)
             (declared_imports module)
             (Some (visits ++ [(module, chain)]))
  end.

(** The container entry of a module first visited with [chain]. *)
Definition registered (visit : Class * list Class) : string * Module :=
  (class_name (fst visit),
   {| module_token := class_name (fst visit); module_metatype := fst visit;
      providers := []; controllers := []; imports := []; exports := [];
      distance := List.length (snd visit) |}).

(** Every class that the walk can meet. *)
Definition universe : list Class :=
  root :: flat_map (fun entry => fst entry :: md_imports (snd entry)) (module_metadata R).

(** Tokens are unique names: no two classes of the graph share a name. *)
Definition unique_names : Prop :=
  forall a b, In a universe -> In b universe -> class_name a = class_name b -> a = b.

Lemma universe_closed (m c : Class) : In c (declared_imports m) -> In c universe.
Proof.
  unfold declared_imports, getModuleMetadata.
  destruct (assoc_class m (module_metadata R)) as [ md | ] eqn:E; [ | intros [] ].
  intros Hin. apply assoc_class_In in E. right.
  apply in_flat_map. exists (m, md). split; [ exact E | now right ].
Qed.

Lemma import_chain_reaches (chain : list Class) (c : Class) :
  import_chain chain c -> reaches c.
Proof. induction 1; [ constructor | econstructor; eassumption ]. Qed.

Lemma reaches_universe (c : Class) : reaches c -> In c universe.
Proof. induction 1; [ now left | eapply universe_closed; eassumption ]. Qed.

(** What holds between two calls of [scanForModules] on the stack
    [scope]: the registry has no repetition, the container mirrors the visits,
    every visited module off the stack has all its imports visited, and every
    visit carries a chain of imports. *)
Definition scan_invariant (scope : list Class) (visits : list (Class * list Class))
  (s : NestState) : Prop :=
  NoDup (map fst visits) /\
  incl (map fst visits) universe /\
  modules s = map registered visits /\
  (forall v, In v (map fst visits) -> ~ In v scope ->
             incl (declared_imports v) (map fst visits)) /\
  (forall v, In v visits -> import_chain (snd v) (fst v)).

Lemma registered_keys (visits : list (Class * list Class)) :
  map fst (map registered visits) = map class_name (map fst visits).
Proof. rewrite !map_map. reflexivity. Qed.

Lemma fresh_name (visits : list (Class * list Class)) (m : Class) :
  unique_names -> incl (map fst visits) universe -> In m universe ->
  ~ In m (map fst visits) ->
  ~ In (class_name m) (map fst (map registered visits)).
Proof.
  intros Hnames Hincl Hm Hfresh. rewrite registered_keys. intros Hin.
  apply in_map_iff in Hin. destruct Hin as [c [Hname Hc]].
  apply Hfresh. assert (E : c = m) by (apply Hnames; auto). subst c. exact Hc.
Qed.

Lemma addModule_fresh (visits : list (Class * list Class)) (m : Class) (scope : list Class)
  (s : NestState) :
  modules s = map registered visits ->
  ~ In (class_name m) (map fst (map registered visits)) ->
  modules (snd (addModule m scope s)) = map registered (visits ++ [(m, scope)]).
Proof.
  intros Hmods Hfresh. unfold addModule, getModuleByKey. rewrite Hmods.
  rewrite (assoc_string_None _ _ Hfresh). cbn [snd with_modules modules].
  rewrite (map_set_string_absent _ _ _ Hfresh), map_app. reflexivity.
Qed.

Hypothesis Hnames : unique_names.

(** The loop over the imports of a module, given the statement for every
    call made with the smaller [fuel]. *)
Lemma scan_imports_loop (fuel : nat) (scope : list Class) :
  (forall m visits s,
      scan_invariant scope visits s -> In m universe -> import_chain scope m ->
      List.length universe - List.length visits < fuel ->
      exists visits' s',
        first_visits fuel m scope visits = Some visits' /\
        scanForModules R fuel m scope (map fst visits) s = Some (map fst visits', s') /\
        scan_invariant scope visits' s' /\
        In m (map fst visits') /\
        exists ext, visits' = visits ++ ext) ->
  forall l visits s,
    (forall x, In x l -> In x universe /\ import_chain scope x) ->
    scan_invariant scope visits s ->
    List.length universe - List.length visits < fuel ->
    exists visits' s',
      fold_left (fun acc inner =>
                   match acc with
                   | None => None
                   | Some v => first_visits fuel inner scope v
                   end) l (Some visits) = Some visits' /\
      fold_left (fun acc innerModule =>
                   match acc with
                   | None => None
                   | Some (reg, st) => scanForModules R fuel innerModule scope reg st
                   end) l (Some (map fst visits, s)) = Some (map fst visits', s') /\
      scan_invariant scope visits' s' /\
      (forall x, In x l -> In x (map fst visits')) /\
      exists ext, visits' = visits ++ ext.
Proof.
  intros Hcall. induction l as [ | x l IH ]; intros visits s Hl Hinv Hfuel.
  - exists visits, s. cbn.
    split; [ reflexivity | ]. split; [ reflexivity | ]. split; [ exact Hinv | ].
    split; [ intros x [] | ]. exists []. now rewrite app_nil_r.
  - destruct (Hl x (or_introl eq_refl)) as [Hx Hchain].
    destruct (Hcall x visits s Hinv Hx Hchain Hfuel)
      as [v1 [s1 [Hspec [Hcode [Hinv1 [Hin1 [ext1 Hext1]]]]]]].
    assert (Hfuel1 : List.length universe - List.length v1 < fuel).
    { subst v1. rewrite length_app. lia. }
    destruct (IH v1 s1 (fun y Hy => Hl y (or_intror Hy)) Hinv1 Hfuel1)
      as [v2 [s2 [Hspec2 [Hcode2 [Hinv2 [Hin2 [ext2 Hext2]]]]]]].
    exists v2, s2. cbn [fold_left]. rewrite Hspec, Hcode.
    split; [ exact Hspec2 | ]. split; [ exact Hcode2 | ]. split; [ exact Hinv2 | ].
    split.
    + intros y [Hy | Hy]; [ | now apply Hin2 ].
      subst y. subst v2. rewrite map_app. apply in_or_app. now left.
    + exists (ext1 ++ ext2). subst v2 v1. now rewrite app_assoc.
Qed.

Lemma scan_step (fuel : nat) :
  forall scope m visits s,
    scan_invariant scope visits s -> In m universe -> import_chain scope m ->
    List.length universe - List.length visits < fuel ->
    exists visits' s',
      first_visits fuel m scope visits = Some visits' /\
      scanForModules R fuel m scope (map fst visits) s = Some (map fst visits', s') /\
      scan_invariant scope visits' s' /\
      In m (map fst visits') /\
      exists ext, visits' = visits ++ ext.
Proof.
  induction fuel as [ | fuel IH ]; intros scope m visits s Hinv Hm Hchain Hfuel; [ lia | ].
  cbn [first_visits scanForModules].
  destruct (existsb (Class_eqb m) (map fst visits)) eqn:Hseen.
  - exists visits, s.
    split; [ reflexivity | ]. split; [ reflexivity | ]. split; [ exact Hinv | ].
    split; [ now apply existsb_Class_eqb | ]. exists []. now rewrite app_nil_r.
  - apply existsb_Class_eqb_false in Hseen.
    destruct Hinv as [Hnodup [Hincl [Hmods [Hclosed Hchains]]]].
    set (visits1 := visits ++ [(m, scope)]).
    set (s1 := snd (addModule m scope s)).
    assert (Hnodup1 : NoDup (map fst visits1)).
    { unfold visits1. rewrite map_app. cbn [map fst].
      apply NoDup_app; [ exact Hnodup | repeat constructor; intros [] | ].
      intros x Hx [<- | []]. contradiction. }
    assert (Hincl1 : incl (map fst visits1) universe).
    { unfold visits1. rewrite map_app. apply incl_app; [ exact Hincl | ].
      intros x [<- | []]. exact Hm. }
    assert (Hinv1 : scan_invariant (scope ++ [m]) visits1 s1).
    { split; [ exact Hnodup1 | ]. split; [ exact Hincl1 | ]. split; [ | split ].
      - apply addModule_fresh; [ exact Hmods | ].
        now apply fresh_name.
      - intros v Hv Hoff. unfold visits1 in *. rewrite map_app in *.
        apply in_app_or in Hv. destruct Hv as [Hv | [<- | []]].
        + apply incl_appl. apply Hclosed; [ exact Hv | ].
          intros Hs. apply Hoff. apply in_or_app. now left.
        + exfalso. apply Hoff. apply in_or_app. right. now left.
      - intros v Hv. unfold visits1 in Hv. apply in_app_or in Hv.
        destruct Hv as [Hv | [<- | []]]; [ now apply Hchains | exact Hchain ]. }
    assert (Hlen : List.length (map fst visits1) <= List.length universe).
    { apply NoDup_incl_length; assumption. }
    rewrite length_map in Hlen.
    assert (Hfuel1 : List.length universe - List.length visits1 < fuel).
    { unfold visits1 in *. rewrite length_app in *. cbn [List.length] in *. lia. }
    destruct (scan_imports_loop (IH (scope ++ [m])) (declared_imports m)
                (visits := visits1) (s := s1))
      as [v2 [s2 [Hspec [Hcode [Hinv2 [Hin2 [ext2 Hext2]]]]]]];
      [ | exact Hinv1 | exact Hfuel1 | ].
    { intros x Hx. split; [ eapply universe_closed; eassumption | ].
      now apply import_chain_step. }
    exists v2, s2.
    assert (Hreg : map fst visits ++ [m] = map fst visits1).
    { unfold visits1. now rewrite map_app. }
    fold (declared_imports m). rewrite Hreg. fold s1.
    split; [ exact Hspec | ]. split; [ exact Hcode | ].
    assert (Hmin : In m (map fst v2)).
    { subst v2. rewrite map_app. apply in_or_app. left.
      unfold visits1. rewrite map_app. apply in_or_app. right. now left. }
    split; [ | split; [ exact Hmin | ] ].
    + destruct Hinv2 as [Hnodup2 [Hincl2 [Hmods2 [Hclosed2 Hchains2]]]].
      split; [ exact Hnodup2 | ]. split; [ exact Hincl2 | ]. split; [ exact Hmods2 | ].
      split; [ | exact Hchains2 ].
      intros v Hv Hoff.
      destruct (in_dec (fun a b => Bool.reflect_dec _ _ (iff_reflect _ _ (iff_sym (Class_eqb_eq a b))))
                       v (scope ++ [m])) as [Hon | Hoff'].
      * apply in_app_or in Hon. destruct Hon as [Hon | [<- | []]]; [ contradiction | ].
        intros x Hx. now apply Hin2.
      * now apply Hclosed2.
    + exists ([(m, scope)] ++ ext2). subst v2. unfold visits1. now rewrite app_assoc.
Qed.

Lemma NoDup_names (l : list Class) :
  NoDup l -> incl l universe -> NoDup (map class_name l).
Proof.
  induction 1 as [ | x l Hx Hnd IH ]; intros Hincl; cbn; constructor.
  - intros Hin. apply in_map_iff in Hin. destruct Hin as [y [Hname Hy]].
    apply Hx. assert (E : x = y).
    { apply Hnames; [ apply Hincl; now left | apply Hincl; now right | now symmetry ]. }
    subst y. exact Hy.
  - apply IH. intros y Hy. apply Hincl. now right.
Qed.

Lemma assoc_string_In {V : Type} (k : string) (v : V) (l : list (string * V)) :
  NoDup (map fst l) -> In (k, v) l -> assoc_string k l = Some v.
Proof.
  induction l as [ | [k' v'] l IH ]; cbn; [ intros _ [] | ].
  intros Hnd [Heq | Hin].
  - inversion Heq; subst. now rewrite String.eqb_refl.
  - inversion Hnd as [ | ? ? Hk' Hnd' ]; subst.
    destruct (String.eqb k k') eqn:E.
    + apply String.eqb_eq in E. subst. exfalso. apply Hk'.
      apply in_map_iff. exists (k', v). now split.
    + now apply IH.
Qed.

(** The scan of the whole graph from an empty container. *)
Lemma scan_from_root (fuel : nat) :
  List.length universe < fuel ->
  exists visits s,
    first_visits fuel root [] [] = Some visits /\
    scanForModules R fuel root [] [] new_NestContainer = Some (map fst visits, s) /\
    modules s = map registered visits /\
    NoDup (map fst (modules s)) /\
    (forall c, reaches c <-> In c (map fst visits)) /\
    (forall c, reaches c ->
               exists chain,
                 In (c, chain) visits /\ import_chain chain c /\
                 getModuleByKey s (class_name c) = Some (snd (registered (c, chain)))).
Proof.
  intros Hfuel.
  assert (Hinv0 : scan_invariant [] [] new_NestContainer).
  { split; [ constructor | ]. split; [ intros x [] | ]. split; [ reflexivity | ].
    split; [ intros v [] | intros v [] ]. }
  destruct (scan_step (fuel := fuel) (scope := []) (m := root) Hinv0
              (or_introl eq_refl) import_chain_root)
    as [visits [s [Hspec [Hcode [Hinv [Hroot _]]]]]]; [ cbn [List.length]; lia | ].
  destruct Hinv as [Hnodup [Hincl [Hmods [Hclosed Hchains]]]].
  exists visits, s.
  assert (Hkeys : NoDup (map fst (modules s))).
  { rewrite Hmods, registered_keys. now apply NoDup_names. }
  assert (Hreach : forall c, reaches c <-> In c (map fst visits)).
  { intros c. split.
    - induction 1 as [ | m c' _ IH Hc' ]; [ exact Hroot | ].
      apply (Hclosed m IH (fun F => F)). exact Hc'.
    - intros Hin. apply in_map_iff in Hin. destruct Hin as [[c' chain] [Heq Hin]].
      cbn in Heq. subst c'. exact (import_chain_reaches (Hchains _ Hin)). }
  split; [ exact Hspec | ]. split; [ exact Hcode | ]. split; [ exact Hmods | ].
  split; [ exact Hkeys | ]. split; [ exact Hreach | ].
  intros c Hc. apply Hreach in Hc. apply in_map_iff in Hc.
  destruct Hc as [[c' chain] [Heq Hin]]. cbn in Heq. subst c'.
  exists chain. split; [ exact Hin | ]. split; [ exact (Hchains _ Hin) | ].
  unfold getModuleByKey. apply assoc_string_In; [ exact Hkeys | ].
  rewrite Hmods. apply in_map_iff. exists (c, chain). now split.
Qed.

End ScannerProperties.

(** C7. For every import graph whose module classes have distinct names,
    [scanForModules] from the root ends, and what it leaves in the container
    is the list of first visits of the depth-first walk in declared import
    order: one entry per module of the graph and no other, under its name,
    with [distance] the length of the import chain that led to the first
    visit.  The value depends on the declared order and is not the length of
    the shortest chain: in the diamond whose root imports [ModuleA] before
    [SharedModule], [SharedModule] is first reached through [ModuleA] and gets
    distance 2, although the root imports it directly; with the two imports
    swapped it gets distance 1. *)
Theorem scanner_registration_and_distance :
  (forall (R : Reflection) (root : Class) (fuel : nat),
      unique_names R root ->
      List.length (universe R root) < fuel ->
      exists visits s,
        first_visits R fuel root [] [] = Some visits /\
        scanForModules R fuel root [] [] new_NestContainer = Some (map fst visits, s) /\
        modules s = map registered visits /\
        NoDup (map fst (modules s)) /\
        (forall c, reaches R root c <-> In c (map fst visits)) /\
        (forall c, reaches R root c ->
                   exists chain,
                     In (c, chain) visits /\ import_chain R root chain c /\
                     getModuleByKey s (class_name c) =
                     Some (snd (registered (c, chain))))) /\
  (option_map (fun r => distances (snd r))
     (scanForModules diamond_A_first 10 RootModule [] [] new_NestContainer) =
   Some [("RootModule", 0); ("ModuleA", 1); ("SharedModule", 2)] /\
   option_map (fun r => distances (snd r))
     (scanForModules diamond_shared_first 10 RootModule [] [] new_NestContainer) =
   Some [("RootModule", 0); ("SharedModule", 1); ("ModuleA", 1)] /\
   import_chain diamond_A_first RootModule [RootModule] SharedModule).
Proof.
  split.
  - intros R root fuel Hnames Hfuel. now apply scan_from_root.
  - split; [ reflexivity | ]. split; [ reflexivity | ].
    apply (import_chain_step (R := diamond_A_first) (root := RootModule)
             (chain := []) (m := RootModule)); [ constructor | ].
    cbn. right. now left.
Qed.

Lemma diamond_unique_names : unique_names diamond_A_first RootModule.
Proof.
  intros a b Ha Hb. cbn in Ha, Hb.
  repeat (destruct Ha as [<- | Ha]; [ | ]);
    try contradiction;
    repeat (destruct Hb as [<- | Hb]; [ | ]);
    try contradiction; intros H; try reflexivity; discriminate H.
Qed.

(** The diamond, scanned with its root importing [ModuleA] first. *)
Lemma scanner_registration_and_distance_witness :
  exists visits s,
    first_visits diamond_A_first 10 RootModule [] [] = Some visits /\
    scanForModules diamond_A_first 10 RootModule [] [] new_NestContainer =
    Some (map fst visits, s) /\
    modules s = map registered visits /\
    NoDup (map fst (modules s)) /\
    (forall c, reaches diamond_A_first RootModule c <-> In c (map fst visits)) /\
    (forall c, reaches diamond_A_first RootModule c ->
               exists chain,
                 In (c, chain) visits /\ import_chain diamond_A_first RootModule chain c /\
                 getModuleByKey s (class_name c) = Some (snd (registered (c, chain)))).
Proof.
  apply (proj1 scanner_registration_and_distance diamond_A_first RootModule 10
           diamond_unique_names).
  cbn. lia.
Defined.

(** ** The wrappers that the scanner creates *)

(** Every wrapper that a module names as a provider or a controller is in
    the store. *)
Definition bindings_allocated (s : NestState) : Prop :=
  forall tok m, In (tok, m) (modules s) ->
    forall c w, In (c, w) (providers m) \/ In (c, w) (controllers m) ->
                w < List.length (wrappers s).

Lemma in_map_set_string {V : Type} (k : string) (v : V) (l : list (string * V))
  (k' : string) (v' : V) :
  In (k', v') (map_set_string k v l) -> (k', v') = (k, v) \/ In (k', v') l.
Proof.
  induction l as [ | [k0 v0] l IH ]; cbn.
  - intros [H | []]. left. now symmetry.
  - destruct (String.eqb k k0); cbn.
    + intros [H | H]; [ left; now symmetry | right; now right ].
    + intros [H | H]; [ right; now left | ].
      destruct (IH H) as [H' | H']; [ now left | right; now right ].
Qed.

Lemma in_map_set_class {V : Type} (k : Class) (v : V) (l : list (Class * V))
  (k' : Class) (v' : V) :
  In (k', v') (map_set_class k v l) -> (k', v') = (k, v) \/ In (k', v') l.
Proof.
  induction l as [ | [k0 v0] l IH ]; cbn.
  - intros [H | []]. left. now symmetry.
  - destruct (Class_eqb k k0); cbn.
    + intros [H | H]; [ left; now symmetry | right; now right ].
    + intros [H | H]; [ right; now left | ].
      destruct (IH H) as [H' | H']; [ now left | right; now right ].
Qed.

Lemma in_update_module (tok : string) (f : Module -> Module) (s : NestState)
  (tok' : string) (m' : Module) :
  In (tok', m') (modules (update_module tok f s)) ->
  exists m0, In (tok', m0) (modules s) /\ (m' = m0 \/ m' = f m0).
Proof.
  unfold update_module. cbn. intros H. apply in_map_iff in H.
  destruct H as [[k m0] [Heq Hin]]. cbn in Heq. exists m0.
  destruct (String.eqb k tok); inversion Heq; subst; auto.
Qed.

Lemma addModule_allocated (metatype : Class) (scope : list Class) (s : NestState) :
  bindings_allocated s -> bindings_allocated (snd (addModule metatype scope s)).
Proof.
  intros H. unfold addModule.
  destruct (getModuleByKey s (class_name metatype)); [ exact H | ].
  cbn. intros tok m Hin c w Hcw. apply in_map_set_string in Hin.
  destruct Hin as [Heq | Hin]; [ | eapply H; eassumption ].
  inversion Heq; subst. cbn in Hcw. destruct Hcw as [[] | []].
Qed.

Lemma scanForModules_allocated (R : Reflection) (fuel : nat) :
  forall module scope registry s registry' s',
    bindings_allocated s ->
    scanForModules R fuel module scope registry s = Some (registry', s') ->
    bindings_allocated s'.
Proof.
  induction fuel as [ | fuel IH ]; intros module scope registry s registry' s' Hs;
    cbn [scanForModules]; [ discriminate | ].
  destruct (existsb (Class_eqb module) registry).
  - intros H. inversion H; subst. exact Hs.
  - generalize (md_imports (getModuleMetadata R module)).
    generalize (registry ++ [module]).
    pose proof (addModule_allocated module scope Hs) as H1.
    revert H1. generalize (snd (addModule module scope s)).
    intros s1 H1 reg l. revert reg s1 H1.
    induction l as [ | x l IHl ]; intros reg s1 H1; cbn [fold_left].
    + intros H. inversion H; subst. exact H1.
    + destruct (scanForModules R fuel x (scope ++ [module]) reg s1) as [[reg2 s2] | ] eqn:E.
      * apply IHl. eapply IH; eassumption.
      * intros H. exfalso. clear - H. induction l as [ | y l IHl' ]; cbn in H;
          [ discriminate | auto ].
Qed.

Lemma Module_addProvider_allocated (tok : string) (provider : Class) (s : NestState) :
  bindings_allocated s -> bindings_allocated (Module_addProvider tok provider s).
Proof.
  intros H tok' m' Hin c w Hcw. unfold Module_addProvider in *.
  apply in_update_module in Hin. destruct Hin as [m0 [Hin Hm']].
  cbn in Hin |- *. rewrite length_app. cbn.
  assert (H0 : forall c w, In (c, w) (providers m0) \/ In (c, w) (controllers m0) ->
                           w < List.length (wrappers s)) by (intros; eapply H; eassumption).
  destruct Hm' as [-> | ->].
  - specialize (H0 c w Hcw). lia.
  - cbn in Hcw. destruct Hcw as [Hp | Hc].
    + apply in_map_set_class in Hp. destruct Hp as [Heq | Hp].
      * inversion Heq. lia.
      * specialize (H0 c w (or_introl Hp)). lia.
    + specialize (H0 c w (or_intror Hc)). lia.
Qed.

Lemma Module_addController_allocated (tok : string) (controller : Class) (s : NestState) :
  bindings_allocated s -> bindings_allocated (Module_addController tok controller s).
Proof.
  intros H tok' m' Hin c w Hcw. unfold Module_addController in *.
  apply in_update_module in Hin. destruct Hin as [m0 [Hin Hm']].
  cbn in Hin |- *. rewrite length_app. cbn.
  assert (H0 : forall c w, In (c, w) (providers m0) \/ In (c, w) (controllers m0) ->
                           w < List.length (wrappers s)) by (intros; eapply H; eassumption).
  destruct Hm' as [-> | ->].
  - specialize (H0 c w Hcw). lia.
  - cbn in Hcw. destruct Hcw as [Hp | Hc].
    + specialize (H0 c w (or_introl Hp)). lia.
    + apply in_map_set_class in Hc. destruct Hc as [Heq | Hc].
      * inversion Heq. lia.
      * specialize (H0 c w (or_intror Hc)). lia.
Qed.

Lemma Module_addImport_allocated (tok related : string) (s : NestState) :
  bindings_allocated s -> bindings_allocated (Module_addImport tok related s).
Proof.
  intros H tok' m' Hin c w Hcw. unfold Module_addImport in *.
  apply in_update_module in Hin. destruct Hin as [m0 [Hin Hm']].
  destruct Hm' as [-> | ->]; cbn in *; eapply H; eassumption.
Qed.

Lemma Module_addExport_allocated (tok : string) (exportToken : Class) (s : NestState) :
  bindings_allocated s -> bindings_allocated (Module_addExport tok exportToken s).
Proof.
  intros H tok' m' Hin c w Hcw. unfold Module_addExport in *.
  apply in_update_module in Hin. destruct Hin as [m0 [Hin Hm']].
  destruct Hm' as [-> | ->]; cbn in *; eapply H; eassumption.
Qed.

(** An action of the scanner's second phase keeps the wrappers in the
    store, however it ends. *)
Definition keeps_allocated (m : Action NestState unit) : Prop :=
  forall s, bindings_allocated s -> bindings_allocated (snd (m s)).

Lemma keeps_allocated_bind (m : Action NestState unit) (k : unit -> Action NestState unit) :
  keeps_allocated m -> (forall a, keeps_allocated (k a)) -> keeps_allocated (bind m k).
Proof.
  intros Hm Hk s Hs. unfold bind. specialize (Hm s Hs).
  destruct (m s) as [[a | e] s1]; cbn in *; [ now apply Hk | exact Hm ].
Qed.

Lemma keeps_allocated_for_each {A : Type} (f : A -> Action NestState unit) (l : list A) :
  (forall x, keeps_allocated (f x)) -> keeps_allocated (for_each f l).
Proof.
  intros Hf. induction l as [ | x l IH ]; cbn [for_each].
  - intros s Hs. exact Hs.
  - apply keeps_allocated_bind; [ apply Hf | intros _; exact IH ].
Qed.

Lemma addProvider_keeps (provider : Class) (tok : string) :
  keeps_allocated (addProvider provider tok).
Proof.
  intros s Hs. unfold addProvider. destruct (getModuleByKey s tok); cbn;
    [ now apply Module_addProvider_allocated | exact Hs ].
Qed.

Lemma addController_keeps (controller : Class) (tok : string) :
  keeps_allocated (addController controller tok).
Proof.
  intros s Hs. unfold addController. destruct (getModuleByKey s tok); cbn;
    [ now apply Module_addController_allocated | exact Hs ].
Qed.

Lemma addImport_keeps (relatedModule : Class) (tok : string) :
  keeps_allocated (addImport relatedModule tok).
Proof.
  intros s Hs. unfold addImport. destruct (getModuleByKey s tok); cbn; [ | exact Hs ].
  destruct (getModuleByKey s (class_name relatedModule)); cbn;
    [ now apply Module_addImport_allocated | exact Hs ].
Qed.

Lemma addExport_keeps (tok : string) (exportToken : Class) :
  keeps_allocated (addExport tok exportToken).
Proof.
  intros s Hs. unfold addExport. destruct (getModuleByKey s tok); cbn;
    [ now apply Module_addExport_allocated | exact Hs ].
Qed.

Lemma scanModulesForDependencies_keeps (R : Reflection) :
  keeps_allocated (scanModulesForDependencies R).
Proof.
  intros s Hs. unfold scanModulesForDependencies.
  apply keeps_allocated_for_each; [ | exact Hs ].
  intros [tok m]. cbn [fst snd].
  unfold reflectImports, reflectProviders, reflectControllers, reflectExports.
  repeat (apply keeps_allocated_bind; [ | intros _ ]);
    apply keeps_allocated_for_each; intros x;
    auto using addImport_keeps, addProvider_keeps, addController_keeps, addExport_keeps.
Qed.

Lemma bindGlobalScope_allocated (s : NestState) :
  bindings_allocated s -> bindings_allocated (bindGlobalScope s).
Proof.
  unfold bindGlobalScope. generalize (globalModules s) as globals.
  generalize (map fst (modules s)) as toks. intros toks globals. revert s.
  induction toks as [ | tok toks IH ]; intros s Hs; cbn [fold_left]; [ exact Hs | ].
  apply IH. clear IH. revert s Hs.
  induction globals as [ | g globals IHg ]; intros s Hs; cbn [fold_left]; [ exact Hs | ].
  apply IHg. destruct (negb (String.eqb tok g)); [ | exact Hs ].
  now apply Module_addImport_allocated.
Qed.

Lemma scan_allocated (R : Reflection) (fuel : nat) (module : Class) (s : NestState) :
  bindings_allocated new_NestContainer ->
  scan R fuel module new_NestContainer = (Returned tt, s) ->
  bindings_allocated s.
Proof.
  intros H0. unfold scan.
  destruct (scanForModules R fuel module [] [] new_NestContainer) as [[reg s1] | ] eqn:E;
    [ | discriminate ].
  pose proof (scanForModules_allocated _ _ _ _ _ H0 E) as H1.
  pose proof (scanModulesForDependencies_keeps R H1) as H2.
  destruct (scanModulesForDependencies R s1) as [[a | e] s2]; [ | discriminate ].
  intros H. inversion H; subst. now apply bindGlobalScope_allocated.
Qed.

Lemma new_NestContainer_allocated : bindings_allocated new_NestContainer.
Proof. intros tok m []. Qed.

(* ================================================================== *)
(** * Part VII. Properties of the injector and of bootstrap            *)
(* ================================================================== *)

(** Induction on a task: a suspended task is followed through every store
    it may be resumed in. *)
Fixpoint Task_induction {A : Type} (P : Task A -> Prop)
  (HDone : forall a, P (Done a))
  (HFailed : forall e, P (Failed e))
  (HExhausted : P Exhausted)
  (HSuspended : forall resume, (forall s, P (snd (resume s))) -> P (Suspended resume))
  (t : Task A) {struct t} : P t :=
  match t with
  | Done a => HDone a
  | Failed e => HFailed e
  | Exhausted => HExhausted
  | Suspended resume =>
      HSuspended resume
        (fun s => Task_induction P HDone HFailed HExhausted HSuspended (snd (resume s)))
  end.

(** ** The visibility search *)

(** The bindings of [t] that module [moduleRef] can see through its
    imports, in the order of the depth-first search: an import that exports
    [t] contributes its own binding, an import that does not contributes what
    is visible through its own imports. *)
Fixpoint visible_bindings (s : NestState) (fuel : nat) (moduleRef : string) (t : Class)
  : list nat :=
  match fuel with
  | O => []
  | S fuel' =>
      flat_map
        (fun relatedModule =>
           if module_hasExport s relatedModule t
           then match providers_get s relatedModule t with
                | Some provider => [provider]
                | None => []
                end
           else visible_bindings s fuel' relatedModule t)
        (imports_of s moduleRef)
  end.


(** The import graph has no cycle: imports go down a rank. *)
Definition acyclic_imports (s : NestState) (rank : string -> nat) : Prop :=
  forall moduleRef relatedModule,
    In relatedModule (imports_of s moduleRef) -> rank relatedModule < rank moduleRef.

(** A task that is fulfilled with [a] whenever it is run among stores with
    the modules [c], and that leaves every store as it finds it. *)
Fixpoint settles_quietly {A : Type} (c : list (string * Module)) (t : Task A) (a : A) : Prop :=
  match t with
  | Done a' => a' = a
  | Failed _ => False
  | Exhausted => False
  | Suspended resume =>
      forall s, modules s = c ->
                fst (resume s) = s /\ settles_quietly c (snd (resume s)) a
  end.

Lemma quiet_settle {A : Type} (c : list (string * Module)) (t : Task A) (a : A) :
  settles_quietly c t a -> settles_quietly c (settle_then_resume t) a.
Proof.
  induction t as [ a' | e | | resume IH ] using Task_induction; cbn.
  - intros -> s Hs. split; reflexivity.
  - intros [].
  - intros [].
  - intros H s Hs. destruct (H s Hs) as [Hfst Hsnd].
    destruct (resume s) as [s2 t2] eqn:E. cbn in *. split; [ exact Hfst | ].
    specialize (IH s). rewrite E in IH. now apply IH.
Qed.

Lemma quiet_then {A B : Type} (c : list (string * Module)) (t : Task A) (a : A)
  (k : A -> Async B) (b : B) :
  settles_quietly c t a ->
  (forall s, modules s = c -> fst (k a s) = s /\ settles_quietly c (snd (k a s)) b) ->
  forall s, modules s = c ->
            fst (then_task t k s) = s /\ settles_quietly c (snd (then_task t k s)) b.
Proof.
  intros Ht Hk. induction t as [ a' | e | | resume IH ] using Task_induction;
    cbn in Ht |- *; intros s Hs.
  - subst a'. now apply Hk.
  - destruct Ht.
  - destruct Ht.
  - split; [ reflexivity | ]. cbn. intros s1 Hs1.
    destruct (Ht s1 Hs1) as [Hfst Hsnd].
    specialize (IH s1). destruct (resume s1) as [s2 t2] eqn:E. cbn in *.
    subst s2. now apply IH.
Qed.

Lemma quiet_run {A : Type} (t : Task A) (a : A) (s : NestState) :
  settles_quietly (modules s) t a -> run_task t s = (Returned a, s).
Proof.
  induction t as [ a' | e | | resume IH ] using Task_induction; cbn.
  - now intros ->.
  - intros [].
  - intros [].
  - intros H. destruct (H s eq_refl) as [Hfst Hsnd].
    specialize (IH s). destruct (resume s) as [s2 t2] eqn:E. cbn in *.
    subst s2. now apply IH.
Qed.

Lemma visible_bindings_ext (s1 s2 : NestState) (fuel : nat) (moduleRef : string) (t : Class) :
  modules s1 = modules s2 ->
  visible_bindings s1 fuel moduleRef t = visible_bindings s2 fuel moduleRef t.
Proof.
  intros H. revert moduleRef. induction fuel as [ | fuel IH ]; intros moduleRef;
    [ reflexivity | ].
  cbn [visible_bindings].
  unfold imports_of, module_hasExport, providers_get, getModuleByKey. rewrite H.
  apply flat_map_ext. intros relatedModule. rewrite IH. reflexivity.
Qed.

Lemma hd_error_app {A : Type} (l1 l2 : list A) :
  hd_error (l1 ++ l2) = match hd_error l1 with
                        | Some x => Some x
                        | None => hd_error l2
                        end.
Proof. destruct l1; reflexivity. Qed.

Lemma imports_of_ext (s1 s2 : NestState) (moduleRef : string) :
  modules s1 = modules s2 -> imports_of s1 moduleRef = imports_of s2 moduleRef.
Proof. intros H. unfold imports_of, getModuleByKey. now rewrite H. Qed.

Lemma module_hasExport_ext (s1 s2 : NestState) (moduleRef : string) (t : Class) :
  modules s1 = modules s2 -> module_hasExport s1 moduleRef t = module_hasExport s2 moduleRef t.
Proof. intros H. unfold module_hasExport, getModuleByKey. now rewrite H. Qed.

Lemma providers_get_ext (s1 s2 : NestState) (moduleRef : string) (t : Class) :
  modules s1 = modules s2 -> providers_get s1 moduleRef t = providers_get s2 moduleRef t.
Proof. intros H. unfold providers_get, getModuleByKey. now rewrite H. Qed.

Section LookupProperties.

Variable s0 : NestState.
Variable rank : string -> nat.
Variable t : Class.
Hypothesis Hacyclic : acyclic_imports s0 rank.

(** What one import contributes to the visible bindings. *)
Definition contribution (fuel : nat) (relatedModule : string) : list nat :=
  if module_hasExport s0 relatedModule t
  then match providers_get s0 relatedModule t with
       | Some provider => [provider]
       | None => []
       end
  else visible_bindings s0 fuel relatedModule t.

Lemma lookup_loop_quiet (fuel : nat) :
  (forall moduleRef s,
      modules s = modules s0 -> rank moduleRef < fuel ->
      fst (lookupComponentInImports fuel moduleRef t s) = s /\
      settles_quietly (modules s0) (snd (lookupComponentInImports fuel moduleRef t s))
        (hd_error (visible_bindings s0 fuel moduleRef t))) ->
  forall related s,
    modules s = modules s0 ->
    (forall r, In r related -> rank r < fuel) ->
    fst (lookup_loop (lookupComponentInImports fuel) related t s) = s /\
    settles_quietly (modules s0)
      (snd (lookup_loop (lookupComponentInImports fuel) related t s))
      (hd_error (flat_map (contribution fuel) related)).
Proof.
  intros Hrec. induction related as [ | relatedModule rest IH ]; intros s Hs Hranks.
  - cbn. split; reflexivity.
  - cbn [lookup_loop flat_map]. rewrite hd_error_app. unfold contribution at 1.
    rewrite module_hasExport_ext with (s2 := s0) by exact Hs.
    rewrite providers_get_ext with (s2 := s0) by exact Hs.
    destruct (module_hasExport s0 relatedModule t) eqn:Hexp; cbn [negb].
    + destruct (providers_get s0 relatedModule t) as [ provider | ]; cbn.
      * split; reflexivity.
      * apply IH; [ exact Hs | ]. intros r Hr. apply Hranks. now right.
    + unfold async_bind, await.
      destruct (Hrec relatedModule s Hs (Hranks _ (or_introl eq_refl))) as [Hfst Hquiet].
      destruct (lookupComponentInImports fuel relatedModule t s) as [s1 task] eqn:E.
      cbn in Hfst, Hquiet. subst s1.
      apply quiet_then with (a := hd_error (visible_bindings s0 fuel relatedModule t)).
      * now apply quiet_settle.
      * intros s' Hs'.
        destruct (hd_error (visible_bindings s0 fuel relatedModule t)) as [ w | ].
        -- cbn. split; reflexivity.
        -- apply IH; [ exact Hs' | ]. intros r Hr. apply Hranks. now right.
      * exact Hs.
Qed.

Lemma lookup_quiet (fuel : nat) :
  forall moduleRef s,
    modules s = modules s0 -> rank moduleRef < fuel ->
    fst (lookupComponentInImports fuel moduleRef t s) = s /\
    settles_quietly (modules s0) (snd (lookupComponentInImports fuel moduleRef t s))
      (hd_error (visible_bindings s0 fuel moduleRef t)).
Proof.
  induction fuel as [ | fuel IH ]; intros moduleRef s Hs Hrank; [ lia | ].
  cbn [lookupComponentInImports visible_bindings].
  rewrite imports_of_ext with (s2 := s0) by exact Hs.
  apply (lookup_loop_quiet IH); [ exact Hs | ].
  intros r Hr. specialize (Hacyclic moduleRef r Hr). lia.
Qed.



End LookupProperties.


Lemma look_through_acyclic : acyclic_imports look_through_scanned look_through_rank.
Proof.
  intros moduleRef relatedModule. unfold imports_of, getModuleByKey. cbn.
  destruct (String.eqb moduleRef "AppModule") eqn:E1.
  - apply String.eqb_eq in E1. subst. cbn. intros [<- | []]. cbn. lia.
  - destruct (String.eqb moduleRef "IntermediateModule") eqn:E2.
    + apply String.eqb_eq in E2. subst. cbn. intros [<- | []]. cbn. lia.
    + destruct (String.eqb moduleRef "UpstreamModule") eqn:E3; intros [].
Qed.


(** ** What the injector does to the store *)

(** The store moves forward: the modules stay, no wrapper appears or
    disappears, and a resolved wrapper stays resolved. *)
Definition advances (s s' : NestState) : Prop :=
  modules s' = modules s /\
  List.length (wrappers s') = List.length (wrappers s) /\
  forall w, wrapper_isResolved s w = true -> wrapper_isResolved s' w = true.

Lemma advances_refl (s : NestState) : advances s s.
Proof. repeat split; auto. Qed.

Lemma advances_trans (s1 s2 s3 : NestState) :
  advances s1 s2 -> advances s2 s3 -> advances s1 s3.
Proof.
  intros [Hm1 [Hl1 Hr1]] [Hm2 [Hl2 Hr2]]. repeat split.
  - congruence.
  - congruence.
  - auto.
Qed.

Lemma length_list_update {V : Type} (i : nat) (f : V -> V) (l : list V) :
  List.length (list_update i f l) = List.length l.
Proof.
  revert i. induction l as [ | x l IH ]; intros [ | i ]; cbn; auto.
Qed.

Lemma nth_error_list_update {V : Type} (i j : nat) (f : V -> V) (l : list V) :
  nth_error (list_update i f l) j =
  if Nat.eqb i j then option_map f (nth_error l j) else nth_error l j.
Proof.
  revert i j. induction l as [ | x l IH ]; intros i j.
  - destruct i, j; cbn; try reflexivity; now destruct (Nat.eqb i j).
  - destruct i as [ | i ], j as [ | j ]; cbn; try reflexivity. apply IH.
Qed.

Lemma wrapper_isResolved_update (w w' : nat) (f : InstanceWrapper -> InstanceWrapper)
  (s : NestState) :
  wrapper_isResolved (update_wrapper w f s) w' =
  if Nat.eqb w w'
  then match wrapper_at s w' with
       | Some x => isResolved (f x)
       | None => false
       end
  else wrapper_isResolved s w'.
Proof.
  unfold wrapper_isResolved, wrapper_at, update_wrapper. cbn.
  rewrite nth_error_list_update.
  destruct (Nat.eqb w w'); [ | reflexivity ].
  now destruct (nth_error (wrappers s) w').
Qed.

Lemma advances_update (w : nat) (f : InstanceWrapper -> InstanceWrapper) (s : NestState) :
  (forall x, isResolved x = true -> isResolved (f x) = true) ->
  advances s (update_wrapper w f s).
Proof.
  intros Hf. repeat split.
  - cbn. apply length_list_update.
  - intros w' Hw'. rewrite wrapper_isResolved_update.
    destruct (Nat.eqb w w'); [ | exact Hw' ].
    unfold wrapper_isResolved in Hw'.
    destruct (wrapper_at s w'); [ now apply Hf | discriminate ].
Qed.

Lemma advances_construct (mt : Class) (args : list (option InstanceRef)) (s : NestState) :
  advances s (snd (construct mt args s)).
Proof. repeat split; auto. Qed.

Lemma resolved_after_setResolved (w : nat) (s : NestState) :
  w < List.length (wrappers s) ->
  wrapper_isResolved (update_wrapper w setResolved s) w = true.
Proof.
  intros Hw. rewrite wrapper_isResolved_update, Nat.eqb_refl.
  unfold wrapper_at. destruct (nth_error (wrappers s) w) eqn:E; [ reflexivity | ].
  apply nth_error_None in E. lia.
Qed.

(** A task keeps its promise [Q] about the value it is fulfilled with and
    the store of that moment, and moves the store only forward, whenever
    everything else that runs between its resumptions moves the store forward
    too. *)
Fixpoint ensures {A : Type} (Q : A -> NestState -> Prop) (t : Task A) (s : NestState)
  : Prop :=
  match t with
  | Done a => Q a s
  | Failed _ => True
  | Exhausted => True
  | Suspended resume =>
      forall s1, advances s s1 ->
                 advances s1 (fst (resume s1)) /\
                 ensures Q (snd (resume s1)) (fst (resume s1))
  end.

Definition establishes {A : Type} (call : Async A) (s : NestState)
  (Q : A -> NestState -> Prop) : Prop :=
  advances s (fst (call s)) /\ ensures Q (snd (call s)) (fst (call s)).

Definition stable {A : Type} (Q : A -> NestState -> Prop) : Prop :=
  forall a s s', Q a s -> advances s s' -> Q a s'.

Definition anything {A : Type} : A -> NestState -> Prop := fun _ _ => True.

Lemma ensures_weaken {A : Type} (Q Q' : A -> NestState -> Prop) (t : Task A) :
  (forall a s, Q a s -> Q' a s) ->
  forall s, ensures Q t s -> ensures Q' t s.
Proof.
  intros HQ. induction t as [ a | e | | resume IH ] using Task_induction; cbn; auto.
  intros s H s1 Hs1. destruct (H s1 Hs1) as [Hadv Hens]. split; [ exact Hadv | ].
  now apply IH.
Qed.

Lemma ensures_advance {A : Type} (Q : A -> NestState -> Prop) (t : Task A) (s s' : NestState) :
  stable Q -> ensures Q t s -> advances s s' -> ensures Q t s'.
Proof.
  intros Hstable. destruct t as [ a | e | | resume ]; cbn; auto.
  - intros HQ Hadv. eapply Hstable; eassumption.
  - intros H Hadv s1 Hs1. apply H. eapply advances_trans; eassumption.
Qed.

Lemma ensures_settle {A : Type} (Q : A -> NestState -> Prop) (t : Task A) :
  stable Q -> forall s, ensures Q t s -> ensures Q (settle_then_resume t) s.
Proof.
  intros Hstable. induction t as [ a | e | | resume IH ] using Task_induction; cbn.
  - intros s HQ s1 Hs1. split; [ apply advances_refl | ]. eapply Hstable; eassumption.
  - intros s _ s1 Hs1. split; [ apply advances_refl | exact I ].
  - auto.
  - intros s H s1 Hs1. destruct (H s1 Hs1) as [Hadv Hens].
    specialize (IH s1). destruct (resume s1) as [s2 t2]. cbn in *.
    split; [ exact Hadv | now apply IH ].
Qed.

Lemma ensures_then {A B : Type} (Q : A -> NestState -> Prop) (Q' : B -> NestState -> Prop)
  (k : A -> Async B) (t : Task A) :
  forall s,
    ensures Q t s ->
    (forall a s1, advances s s1 -> Q a s1 -> establishes (k a) s1 Q') ->
    advances s (fst (then_task t k s)) /\
    ensures Q' (snd (then_task t k s)) (fst (then_task t k s)).
Proof.
  induction t as [ a | e | | resume IH ] using Task_induction; cbn; intros s Ht Hk.
  - apply Hk; [ apply advances_refl | exact Ht ].
  - split; [ apply advances_refl | exact I ].
  - split; [ apply advances_refl | exact I ].
  - split; [ apply advances_refl | ]. intros s1 Hs1.
    destruct (Ht s1 Hs1) as [Hadv Hens].
    specialize (IH s1). destruct (resume s1) as [s2 t2]. cbn in *.
    destruct (IH s2 Hens) as [Hadv' Hens'].
    { intros a s3 Hs3 HQ. apply Hk; [ | exact HQ ].
      eapply advances_trans; [ exact Hs1 | ]. eapply advances_trans; eassumption. }
    split; [ eapply advances_trans; eassumption | exact Hens' ].
Qed.

Lemma establishes_bind {A B : Type} (Q : A -> NestState -> Prop) (Q' : B -> NestState -> Prop)
  (m : Async A) (k : A -> Async B) (s : NestState) :
  establishes m s Q ->
  (forall a s1, advances s s1 -> Q a s1 -> establishes (k a) s1 Q') ->
  establishes (async_bind m k) s Q'.
Proof.
  intros [Hadv Hens] Hk. unfold establishes, async_bind.
  destruct (m s) as [s1 t]. cbn in *.
  destruct (@ensures_then A B Q Q' k t s1 Hens) as [Hadv' Hens'].
  { intros a s2 Hs2 HQ. apply Hk; [ | exact HQ ]. eapply advances_trans; eassumption. }
  split; [ eapply advances_trans; eassumption | exact Hens' ].
Qed.

Lemma establishes_await {A : Type} (Q : A -> NestState -> Prop) (call : Async A)
  (s : NestState) :
  stable Q -> establishes call s Q -> establishes (await call) s Q.
Proof.
  intros Hstable [Hadv Hens]. unfold establishes, await.
  destruct (call s) as [s1 t]. cbn in *. split; [ exact Hadv | ].
  now apply ensures_settle.
Qed.

Lemma stable_anything {A : Type} : stable (@anything A).
Proof. intros a s s' _ _. exact I. Qed.

Lemma ensures_both_done {A : Type} (a : A) (t2 : Task (list A)) :
  forall s, ensures anything t2 s -> ensures anything (both (Done a) t2) s.
Proof.
  induction t2 as [ l | e | | resume IH ] using Task_induction; cbn; auto.
  intros s H s1 Hs1. destruct (H s1 Hs1) as [Hadv Hens].
  specialize (IH s1). destruct (resume s1) as [s2 t2']. cbn in *.
  split; [ exact Hadv | now apply IH ].
Qed.

Lemma ensures_resume_task {A : Type} (t : Task A) (s s1 : NestState) :
  ensures anything t s -> advances s s1 ->
  advances s1 (fst (resume_task t s1)) /\
  ensures anything (snd (resume_task t s1)) (fst (resume_task t s1)).
Proof.
  destruct t as [ a | e | | resume ]; cbn; intros H Hadv;
    try (split; [ apply advances_refl | exact I ]).
  now apply H.
Qed.

Lemma ensures_both {A : Type} (t1 : Task A) :
  forall (t2 : Task (list A)) s,
    ensures anything t1 s -> ensures anything t2 s -> ensures anything (both t1 t2) s.
Proof.
  induction t1 as [ a | e | | resume IH ] using Task_induction; intros t2 s H1 H2.
  - now apply ensures_both_done.
  - exact I.
  - exact I.
  - assert (Hstep : forall s1, advances s s1 ->
              advances s1 (fst (let (s1', t1') := resume s1 in
                                let (s2, t2') := resume_task t2 s1' in (s2, both t1' t2'))) /\
              ensures anything
                (snd (let (s1', t1') := resume s1 in
                      let (s2, t2') := resume_task t2 s1' in (s2, both t1' t2')))
                (fst (let (s1', t1') := resume s1 in
                      let (s2, t2') := resume_task t2 s1' in (s2, both t1' t2')))).
    { intros s1 Hs1. cbn in H1. destruct (H1 s1 Hs1) as [Hadv1 Hens1].
      specialize (IH s1). destruct (resume s1) as [s1' t1']. cbn in *.
      destruct (ensures_resume_task t2 (s := s) (s1 := s1') H2) as [Hadv2 Hens2].
      { eapply advances_trans; eassumption. }
      destruct (resume_task t2 s1') as [s2 t2']. cbn in *.
      split; [ eapply advances_trans; eassumption | ].
      apply IH; [ | exact Hens2 ].
      eapply ensures_advance; [ apply stable_anything | exact Hens1 | exact Hadv2 ]. }
    destruct t2 as [ l | e | | resume2 ]; cbn; auto.
Qed.

Lemma ensures_all {A : Type} (tasks : list (Task A)) (s : NestState) :
  (forall t, In t tasks -> ensures anything t s) ->
  ensures anything (fold_right both (Done []) tasks) s.
Proof.
  induction tasks as [ | t tasks IH ]; intros H; cbn [fold_right]; [ exact I | ].
  apply ensures_both; [ apply H; now left | ].
  apply IH. intros t' Ht'. apply H. now right.
Qed.

Lemma start_all_establishes {A : Type} (calls : list (Async A)) :
  forall s,
    (forall call s1, In call calls -> advances s s1 -> establishes call s1 anything) ->
    advances s (fst (start_all calls s)) /\
    forall t, In t (snd (start_all calls s)) ->
              ensures anything t (fst (start_all calls s)).
Proof.
  induction calls as [ | call calls IH ]; intros s H; cbn [start_all].
  - split; [ apply advances_refl | intros t [] ].
  - destruct (H call s (or_introl eq_refl) (advances_refl s)) as [Hadv1 Hens1].
    destruct (call s) as [s1 t1]. cbn in Hadv1, Hens1.
    destruct (IH s1) as [Hadv2 Hens2].
    { intros call' s2 Hin Hs2. apply H; [ now right | ].
      eapply advances_trans; eassumption. }
    destruct (start_all calls s1) as [s2 ts]. cbn in *.
    split; [ eapply advances_trans; eassumption | ].
    intros t [<- | Hin]; [ | now apply Hens2 ].
    eapply ensures_advance; [ apply stable_anything | exact Hens1 | exact Hadv2 ].
Qed.

Lemma Promise_all_establishes {A : Type} (calls : list (Async A)) (s : NestState) :
  (forall call s1, In call calls -> advances s s1 -> establishes call s1 anything) ->
  establishes (Promise_all calls) s anything.
Proof.
  intros H. unfold establishes, Promise_all.
  destruct (start_all_establishes calls H) as [Hadv Hens].
  destruct (start_all calls s) as [s1 tasks]. cbn in Hadv, Hens.
  destruct tasks as [ | t tasks ]; cbn [fst snd].
  - split; [ exact Hadv | exact I ].
  - split; [ exact Hadv | ].
    apply ensures_settle; [ apply stable_anything | ].
    now apply ensures_all.
Qed.

Lemma ensures_run {A : Type} (Q : A -> NestState -> Prop) (t : Task A) :
  forall s a s',
    ensures Q t s -> run_task t s = (Returned a, s') -> Q a s' /\ advances s s'.
Proof.
  induction t as [ a' | e | | resume IH ] using Task_induction; cbn; intros s a s' H Hrun.
  - inversion Hrun; subst. split; [ exact H | apply advances_refl ].
  - discriminate.
  - discriminate.
  - destruct (H s (advances_refl s)) as [Hadv Hens].
    specialize (IH s). destruct (resume s) as [s1 t1]. cbn in *.
    destruct (IH s1 a s' Hens Hrun) as [HQ Hadv'].
    split; [ exact HQ | eapply advances_trans; eassumption ].
Qed.

Lemma establishes_weaken {A : Type} (Q Q' : A -> NestState -> Prop) (call : Async A)
  (s : NestState) :
  (forall a s1, Q a s1 -> Q' a s1) -> establishes call s Q -> establishes call s Q'.
Proof.
  intros HQ [Hadv Hens]. split; [ exact Hadv | ]. eapply ensures_weaken; eassumption.
Qed.

Lemma establishes_ret {A : Type} (Q : A -> NestState -> Prop) (a : A) (s : NestState) :
  Q a s -> establishes (async_ret a) s Q.
Proof. intros HQ. split; [ apply advances_refl | exact HQ ]. Qed.

Lemma lookup_loop_establishes (recurse : string -> Class -> Async (option nat)) (t : Class) :
  (forall moduleRef s, establishes (recurse moduleRef t) s anything) ->
  forall related s, establishes (lookup_loop recurse related t) s anything.
Proof.
  intros Hrec. induction related as [ | relatedModule rest IH ]; intros s.
  - now apply establishes_ret.
  - unfold establishes. cbn [lookup_loop].
    destruct (negb (module_hasExport s relatedModule t)).
    + apply (establishes_bind (Q := anything)).
      * apply establishes_await; [ apply stable_anything | apply Hrec ].
      * intros [ w | ] s1 _ _; [ now apply establishes_ret | apply IH ].
    + destruct (providers_get s relatedModule t) as [ provider | ].
      * split; [ apply advances_refl | exact I ].
      * apply IH.
Qed.

Lemma lookup_establishes (fuel : nat) (t : Class) :
  forall moduleRef s, establishes (lookupComponentInImports fuel moduleRef t) s anything.
Proof.
  induction fuel as [ | fuel IH ]; intros moduleRef s.
  - split; [ apply advances_refl | exact I ].
  - unfold establishes. cbn [lookupComponentInImports].
    apply lookup_loop_establishes. exact IH.
Qed.

(** The promise of [loadProvider] and [resolveConstructorParams]: the
    wrapper, if the store holds it, is resolved. *)
Definition resolved_if_allocated (w : nat) : unit -> NestState -> Prop :=
  fun _ s => w < List.length (wrappers s) -> wrapper_isResolved s w = true.

Lemma stable_resolved_if_allocated (w : nat) : stable (resolved_if_allocated w).
Proof.
  intros a s s' HQ [_ [Hlen Hres]] Hw. apply Hres. apply HQ. now rewrite <- Hlen.
Qed.

Lemma loadProvider_with_establishes (rcp : nat -> string -> Async unit) :
  (forall w m s, establishes (rcp w m) s (resolved_if_allocated w)) ->
  forall w m s, establishes (loadProvider_with rcp w m) s (resolved_if_allocated w).
Proof.
  intros Hrcp w m s. unfold establishes, loadProvider_with.
  destruct (wrapper_isResolved s w) eqn:Hres.
  - split; [ apply advances_refl | ]. cbn. intros _. exact Hres.
  - apply (establishes_bind (Q := resolved_if_allocated w)).
    + apply establishes_await; [ apply stable_resolved_if_allocated | apply Hrcp ].
    + intros a s1 _ HQ. now apply establishes_ret.
Qed.

Lemma resolveSingleParam_with_establishes (rcp : nat -> string -> Async unit) (fuel : nat) :
  (forall w m s, establishes (rcp w m) s (resolved_if_allocated w)) ->
  forall dependency moduleRef wrapper index s,
    establishes (resolveSingleParam_with rcp fuel dependency moduleRef wrapper index) s
      anything.
Proof.
  intros Hrcp dependency moduleRef wrapper index s.
  unfold resolveSingleParam_with.
  destruct dependency as [ dep | ]; [ | split; [ apply advances_refl | exact I ] ].
  assert (Hfinish : forall iw s1,
             establishes (instance_of_wrapper_with rcp moduleRef iw) s1 anything).
  { intros iw s1. unfold establishes, instance_of_wrapper_with.
    destruct (negb (wrapper_isResolved s1 iw)).
    - apply (establishes_bind (Q := anything)).
      + apply establishes_await; [ apply stable_anything | ].
        eapply establishes_weaken; [ | apply loadProvider_with_establishes; exact Hrcp ].
        intros; exact I.
      + intros a s2 _ _. split; [ apply advances_refl | exact I ].
    - split; [ apply advances_refl | exact I ]. }
  unfold establishes.
  destruct (providers_get s moduleRef dep) as [ iw | ]; [ apply Hfinish | ].
  apply (establishes_bind (Q := anything)).
  - apply establishes_await; [ apply stable_anything | apply lookup_establishes ].
  - intros [ iw | ] s1 _ _; [ apply Hfinish | ].
    split; [ apply advances_refl | exact I ].
Qed.

Lemma in_mapi_from {A B : Type} (f : A -> nat -> B) (l : list A) (i : nat) (y : B) :
  In y (mapi_from i f l) -> exists x j, y = f x j.
Proof.
  revert i. induction l as [ | x l IH ]; intros i; cbn; [ intros [] | ].
  intros [<- | Hin]; [ now exists x, i | eapply IH; eassumption ].
Qed.

Lemma resolveConstructorParams_establishes (R : Reflection) (fuel : nat) :
  forall w m s,
    establishes (resolveConstructorParams R fuel w m) s (resolved_if_allocated w).
Proof.
  induction fuel as [ | fuel IH ]; intros w m s.
  - split; [ apply advances_refl | exact I ].
  - unfold establishes. cbn [resolveConstructorParams].
    destruct (wrapper_metatype s w) as [ mt | ].
    + apply (establishes_bind (Q := anything)).
      * apply establishes_await; [ apply stable_anything | ].
        apply Promise_all_establishes. intros call s1 Hin _.
        apply in_mapi_from in Hin. destruct Hin as [dependency [index ->]].
        now apply resolveSingleParam_with_establishes.
      * intros instances s1 _ _. unfold establishes.
        destruct (construct mt instances s1) as [ref s2] eqn:E. cbn [fst snd].
        assert (Hs2 : advances s1 s2).
        { change s2 with (snd (ref, s2)). rewrite <- E. apply advances_construct. }
        split.
        -- eapply advances_trans; [ exact Hs2 | ].
           eapply advances_trans; apply advances_update.
           ++ intros x _. reflexivity.
           ++ intros x _. reflexivity.
        -- cbn. intros Hw. apply resolved_after_setResolved.
           cbn in Hw |- *. now rewrite !length_list_update in *.
    + cbn [fst snd]. split.
      * apply advances_update. intros x _. reflexivity.
      * cbn. intros Hw. apply resolved_after_setResolved.
        cbn in Hw. now rewrite length_list_update in Hw.
Qed.

Lemma loadProvider_establishes (R : Reflection) (fuel : nat) (w : nat) (m : string)
  (s : NestState) :
  establishes (loadProvider R fuel w m) s (resolved_if_allocated w).
Proof.
  apply loadProvider_with_establishes. apply resolveConstructorParams_establishes.
Qed.

(** ** Sequencing and the two passes of [createInstances] *)

Lemma ensures_frame {A : Type} (Q : A -> NestState -> Prop) (P : NestState -> Prop)
  (t : Task A) :
  (forall s s', P s -> advances s s' -> P s') ->
  forall s, P s -> ensures Q t s -> ensures (fun a s' => Q a s' /\ P s') t s.
Proof.
  intros HP. induction t as [ a | e | | resume IH ] using Task_induction; cbn; auto.
  intros s Hs H s1 Hs1. destruct (H s1 Hs1) as [Hadv Hens].
  split; [ exact Hadv | ]. apply IH; [ | exact Hens ].
  eapply HP; [ | exact Hadv ]. eapply HP; eassumption.
Qed.

Lemma await_each_establishes {A : Type} (call : A -> Async unit)
  (Q : A -> NestState -> Prop) :
  (forall b s s', Q b s -> advances s s' -> Q b s') ->
  (forall b s, establishes (call b) s (fun _ s' => Q b s')) ->
  forall l s, establishes (await_each call l) s (fun _ s' => forall b, In b l -> Q b s').
Proof.
  intros Hstable Hcall. induction l as [ | x rest IH ]; intros s.
  - apply establishes_ret. intros b [].
  - cbn [await_each]. apply (establishes_bind (Q := fun _ s' => Q x s')).
    + apply establishes_await; [ | apply Hcall ].
      intros a s1 s2. apply Hstable.
    + intros _ s1 _ Hx. destruct (IH s1) as [Hadv Hens].
      split; [ exact Hadv | ].
      assert (HP : Q x (fst (await_each call rest s1))).
      { eapply Hstable; eassumption. }
      eapply ensures_weaken;
        [ | apply (@ensures_frame unit (fun _ s' => forall b, In b rest -> Q b s') (Q x)
                     (snd (await_each call rest s1)) (Hstable x) _ HP Hens) ].
      cbn. intros _ s' [Hrest Hx'] b [<- | Hb]; [ exact Hx' | now apply Hrest ].
Qed.

Lemma run_then_task {A B : Type} (k : A -> Async B) (t : Task A) :
  forall s,
    run_task (snd (then_task t k s)) (fst (then_task t k s)) =
    match run_task t s with
    | (Returned a, s1) => run_async (k a) s1
    | (Threw e, s1) => (Threw e, s1)
    | (OutOfFuel, s1) => (OutOfFuel, s1)
    end.
Proof.
  induction t as [ a | e | | resume IH ] using Task_induction; cbn; intros s;
    try reflexivity.
  - unfold run_async. destruct (k a s). reflexivity.
  - specialize (IH s). destruct (resume s) as [s1 t1]. cbn in IH.
    specialize (IH s1). destruct (then_task t1 k s1) as [s2 t2]. exact IH.
Qed.

Lemma run_async_bind {A B : Type} (m : Async A) (k : A -> Async B) (s : NestState) :
  run_async (async_bind m k) s =
  match run_async m s with
  | (Returned a, s1) => run_async (k a) s1
  | (Threw e, s1) => (Threw e, s1)
  | (OutOfFuel, s1) => (OutOfFuel, s1)
  end.
Proof.
  unfold run_async at 1 2, async_bind. destruct (m s) as [s1 t].
  pose proof (run_then_task k t s1) as H.
  destruct (then_task t k s1) as [s2 t2]. exact H.
Qed.

Lemma establishes_run {A : Type} (Q : A -> NestState -> Prop) (call : Async A)
  (s s' : NestState) (a : A) :
  establishes call s Q -> run_async call s = (Returned a, s') -> Q a s' /\ advances s s'.
Proof.
  intros [Hadv Hens]. unfold run_async. destruct (call s) as [s1 t]. cbn in *.
  intros Hrun. destruct (@ensures_run A Q t s1 a s' Hens Hrun) as [HQ Hadv'].
  split; [ exact HQ | eapply advances_trans; eassumption ].
Qed.

(** ** Modules in order of distance *)

Definition by_distance (a b : Module) : Prop := distance a <= distance b.

Lemma insert_by_distance_perm (m : Module) (l : list Module) :
  Permutation (m :: l) (insert_by_distance m l).
Proof.
  induction l as [ | x l IH ]; cbn; [ apply Permutation_refl | ].
  destruct (distance m <=? distance x); [ apply Permutation_refl | ].
  eapply perm_trans; [ apply perm_swap | ]. now apply perm_skip.
Qed.

Lemma sort_by_distance_perm (l : list Module) : Permutation l (sort_by_distance l).
Proof.
  induction l as [ | x l IH ]; cbn; [ constructor | ].
  eapply perm_trans; [ apply perm_skip; exact IH | apply insert_by_distance_perm ].
Qed.

Lemma insert_by_distance_sorted (m : Module) (l : list Module) :
  Sorted by_distance l -> Sorted by_distance (insert_by_distance m l).
Proof.
  induction 1 as [ | x l Hsorted IH Hhd ]; cbn.
  - repeat constructor.
  - destruct (distance m <=? distance x) eqn:E.
    + apply Nat.leb_le in E. repeat constructor; assumption.
    + apply Nat.leb_gt in E. constructor; [ exact IH | ].
      destruct Hhd as [ | y l' Hxy ]; cbn.
      * constructor. unfold by_distance. lia.
      * destruct (distance m <=? distance y); constructor; unfold by_distance in *; lia.
Qed.

Lemma sort_by_distance_sorted (l : list Module) : Sorted by_distance (sort_by_distance l).
Proof.
  induction l as [ | x l IH ]; cbn; [ constructor | ].
  now apply insert_by_distance_sorted.
Qed.

Lemma in_provider_bindings (s : NestState) (tok : string) (m : Module) (c : Class) (w : nat) :
  In (tok, m) (modules s) -> In (c, w) (providers m) ->
  In (w, module_token m) (provider_bindings (sort_by_distance (map snd (modules s)))).
Proof.
  intros Hm Hw. unfold provider_bindings. apply in_flat_map. exists m. split.
  - eapply Permutation_in; [ apply sort_by_distance_perm | ].
    apply in_map_iff. exists (tok, m). now split.
  - apply in_map_iff. exists (c, w). now split.
Qed.

Lemma in_controller_bindings (s : NestState) (tok : string) (m : Module) (c : Class) (w : nat) :
  In (tok, m) (modules s) -> In (c, w) (controllers m) ->
  In (w, module_token m) (controller_bindings (sort_by_distance (map snd (modules s)))).
Proof.
  intros Hm Hw. unfold controller_bindings. apply in_flat_map. exists m. split.
  - eapply Permutation_in; [ apply sort_by_distance_perm | ].
    apply in_map_iff. exists (tok, m). now split.
  - apply in_map_iff. exists (c, w). now split.
Qed.

Lemma load_pass_establishes (R : Reflection) (fuel : nat) (l : list (nat * string))
  (s : NestState) :
  establishes (await_each (fun b => loadProvider R fuel (fst b) (snd b)) l) s
    (fun _ s' => forall b, In b l -> resolved_if_allocated (fst b) tt s').
Proof.
  apply (@await_each_establishes (nat * string)
           (fun b => loadProvider R fuel (fst b) (snd b))
           (fun b s' => resolved_if_allocated (fst b) tt s')).
  - intros b s1 s2. apply stable_resolved_if_allocated.
  - intros b s1. eapply establishes_weaken; [ | apply loadProvider_establishes ].
    intros [] s2 H. exact H.
Qed.

(** ** Bootstrap *)

Section Bootstrap.

Variable U : Type.
Variable controller_class : Class -> ControllerClass U.
Variable createParamsResolver :
  ControllerClass U -> HandlerMethod U -> string -> IncomingMessage -> JsValue ->
  Action (World U) (list JsValue).
Variable createBodyParser : IncomingMessage -> Action (World U) JsValue.

(** C9. When [MiniNestFactory.create] returns an application, the scanner
    has run to its end; the modules were taken in ascending order of distance;
    the pass over the provider bindings of all modules in that order has run
    to its end and left every provider binding resolved; the pass over the
    controller bindings started from the store that the first pass left; and
    in the container of the application every provider binding and every
    controller binding of every module is resolved.  The routes are extracted
    from that container. *)
Theorem bootstrap_resolves_every_binding (R : Reflection) (fuel : nat) (root : Class)
  (app : MiniNestApplication U) :
  MiniNestFactory_create controller_class createParamsResolver createBodyParser R fuel root =
  Returned app ->
  exists scanned after_providers,
    let sortedModules := sort_by_distance (map snd (modules scanned)) in
    scan R fuel root new_NestContainer = (Returned tt, scanned) /\
    Sorted by_distance sortedModules /\
    Permutation (map snd (modules scanned)) sortedModules /\
    run_async (await_each (fun b => loadProvider R fuel (fst b) (snd b))
                          (provider_bindings sortedModules)) scanned =
    (Returned tt, after_providers) /\
    (forall tok m c w,
        In (tok, m) (modules after_providers) -> In (c, w) (providers m) ->
        wrapper_isResolved after_providers w = true) /\
    run_async (await_each (fun b => loadController R fuel (fst b) (snd b))
                          (controller_bindings sortedModules)) after_providers =
    (Returned tt, app_container app) /\
    (forall tok m c w,
        In (tok, m) (modules (app_container app)) ->
        In (c, w) (providers m) \/ In (c, w) (controllers m) ->
        wrapper_isResolved (app_container app) w = true) /\
    app_routerExplorer app =
    register_routes controller_class createParamsResolver createBodyParser (app_container app).
Proof.
  unfold MiniNestFactory_create.
  destruct (scan R fuel root new_NestContainer) as [[[] | e | ] s1] eqn:Hscan;
    try discriminate.
  destruct (run_async (createInstances R fuel) s1) as [[[] | e | ] s2] eqn:Hrun;
    try discriminate.
  intros Happ. inversion Happ; subst app; clear Happ. cbn [app_container app_routerExplorer].
  pose proof (scan_allocated _ _ _ new_NestContainer_allocated Hscan) as Halloc.
  set (sortedModules := sort_by_distance (map snd (modules s1))).
  change (run_async (createInstances R fuel) s1)
    with (run_async
            (async_bind
               (await_each (fun b => loadProvider R fuel (fst b) (snd b))
                           (provider_bindings sortedModules))
               (fun _ => await_each (fun b => loadController R fuel (fst b) (snd b))
                                    (controller_bindings sortedModules))) s1) in Hrun.
  rewrite run_async_bind in Hrun.
  destruct (run_async (await_each (fun b => loadProvider R fuel (fst b) (snd b))
                                  (provider_bindings sortedModules)) s1)
    as [[[] | e | ] smid] eqn:Hpass1; try discriminate.
  destruct (establishes_run (load_pass_establishes R fuel _ s1) Hpass1) as [Hpost1 Hadv1].
  destruct (establishes_run (load_pass_establishes R fuel _ smid) Hrun) as [Hpost2 Hadv2].
  destruct Hadv1 as [Hmod1 [Hlen1 Hres1]]. destruct Hadv2 as [Hmod2 [Hlen2 Hres2]].
  assert (Hproviders : forall tok m c w,
             In (tok, m) (modules s1) -> In (c, w) (providers m) ->
             wrapper_isResolved smid w = true).
  { intros tok m c w Hm Hw.
    apply (Hpost1 (w, module_token m)).
    - eapply in_provider_bindings; eassumption.
    - cbn. rewrite Hlen1. eapply Halloc; [ exact Hm | left; exact Hw ]. }
  exists s1, smid. cbv zeta. fold sortedModules.
  split; [ reflexivity | ].
  split; [ apply sort_by_distance_sorted | ].
  split; [ apply sort_by_distance_perm | ].
  split; [ exact Hpass1 | ].
  split; [ intros tok m c w Hm Hw; rewrite Hmod1 in Hm; eapply Hproviders; eassumption | ].
  split; [ exact Hrun | ].
  split; [ | reflexivity ].
  intros tok m c w Hm [Hw | Hw]; rewrite Hmod2, Hmod1 in Hm.
  - apply Hres2. eapply Hproviders; eassumption.
  - apply (Hpost2 (w, module_token m)).
    + eapply in_controller_bindings; eassumption.
    + cbn. rewrite Hlen2, Hlen1. eapply Halloc; [ exact Hm | right; exact Hw ].
Qed.

End Bootstrap.

(** The sample application starts: both bindings of [CatsModule] are
    resolved, the service was built before the controller, and the controller
    was built with the service. *)
Lemma bootstrap_resolves_every_binding_witness :
  exists app,
    cats_application = Returned app /\
    (forall tok m c w,
        In (tok, m) (modules (app_container app)) ->
        In (c, w) (providers m) \/ In (c, w) (controllers m) ->
        wrapper_isResolved (app_container app) w = true) /\
    instances (app_container app) =
    [{| instance_class := CatsService; instance_args := [] |};
     {| instance_class := CatsController; instance_args := [Some 0] |}].
Proof.
  assert (H : exists app, cats_application = Returned app /\
                          instances (app_container app) =
                          [{| instance_class := CatsService; instance_args := [] |};
                           {| instance_class := CatsController;
                              instance_args := [Some 0] |}]).
  { eexists. split; [ vm_compute; reflexivity | reflexivity ]. }
  destruct H as [app [Happ Hinstances]]. exists app.
  split; [ exact Happ | ]. split; [ | exact Hinstances ].
  destruct (@bootstrap_resolves_every_binding Journal cats_controller_class
              sample_createParamsResolver sample_parseBody cats_reflection 10
              CatsAppModule app Happ)
    as [scanned [after_providers [_ [_ [_ [_ [_ [_ [Hall _]]]]]]]]].
  exact Hall.
Defined.

(** * The singleton cache of the injector *)

(** The number of objects of a class that [new metatype(...)] has built. *)
Definition built (mt : Class) (s : NestState) : nat :=
  List.length (filter (fun o => Class_eqb (instance_class o) mt) (instances s)).

(** The store after [wrapper.instance = new metatype(); wrapper.setResolved()]
    for a class without constructor parameters. *)
Definition resolve_once (mt : Class) (wrapper : nat) (s : NestState) : NestState :=
  let (ref, s1) := construct mt [] s in
  update_wrapper wrapper setResolved (update_wrapper wrapper (set_instance (Some ref)) s1).

(** [n] calls of [loadProvider] for one binding, each awaited before the
    next is made. *)
Definition load_repeatedly (R : Reflection) (fuel : nat) (wrapper : nat) (moduleRef : string)
  (n : nat) : Async unit :=
  await_each (fun _ : unit => loadProvider R fuel wrapper moduleRef) (repeat tt n).

(** Two calls of [loadProvider] for the binding of [ServiceB], the second
    made before the first has been resumed, and then the two microtasks that
    resume them, in the order of the queue. *)
Definition ServiceB_binding : nat := 1.

Definition two_calls : NestState * Task unit * Task unit :=
  let (s1, first) := loadProvider diamond_reflection 10 ServiceB_binding "DiamondModule"
                       diamond_scanned in
  let (s2, second) := loadProvider diamond_reflection 10 ServiceB_binding "DiamondModule" s1 in
  (s2, first, second).

Definition first_resumed : NestState * Task unit :=
  let '(s, first, _) := two_calls in resume_task first s.

Definition second_resumed : NestState * Task unit :=
  let '(_, _, second) := two_calls in resume_task second (fst first_resumed).

Lemma run_settle_then_resume {A : Type} (t : Task A) :
  forall s, run_task (settle_then_resume t) s = run_task t s.
Proof.
  induction t as [ a | e | | resume IH ] using Task_induction; cbn; intros s;
    try reflexivity.
  specialize (IH s). destruct (resume s) as [s1 t1]. apply IH.
Qed.

Lemma run_async_await {A : Type} (call : Async A) (s : NestState) :
  run_async (await call) s = run_async call s.
Proof.
  unfold run_async, await. destruct (call s) as [s1 t]. apply run_settle_then_resume.
Qed.

(** [if (wrapper.isResolved) return;] *)
Lemma loadProvider_resolved (R : Reflection) (fuel : nat) (w : nat) (m : string)
  (s : NestState) :
  wrapper_isResolved s w = true -> loadProvider R fuel w m s = (s, Done tt).
Proof.
  intros H. unfold loadProvider, loadProvider_with. now rewrite H.
Qed.

Lemma loadProvider_zero_dependencies (R : Reflection) (fuel : nat) (w : nat) (m : string)
  (s : NestState) (mt : Class) :
  wrapper_isResolved s w = false ->
  wrapper_metatype s w = Some mt ->
  getParamtypes R mt = [] ->
  run_async (loadProvider R (S fuel) w m) s = (Returned tt, resolve_once mt w s).
Proof.
  intros Hres Hmt Hdeps. unfold run_async, loadProvider, loadProvider_with.
  rewrite Hres.
  change (run_async (await (resolveConstructorParams R (S fuel) w m) ;;~ async_ret tt) s =
          (Returned tt, resolve_once mt w s)).
  rewrite run_async_bind, run_async_await. unfold run_async at 1.
  cbn [resolveConstructorParams]. rewrite Hmt, Hdeps. reflexivity.
Qed.

Lemma resolve_once_resolved (mt : Class) (w : nat) (s : NestState) :
  w < List.length (wrappers s) -> wrapper_isResolved (resolve_once mt w s) w = true.
Proof.
  intros Hw. unfold resolve_once. cbn -[update_wrapper wrapper_isResolved].
  apply resolved_after_setResolved. cbn. now rewrite length_list_update.
Qed.

Lemma load_repeatedly_resolved (R : Reflection) (fuel : nat) (w : nat) (m : string)
  (s : NestState) (n : nat) :
  wrapper_isResolved s w = true ->
  run_async (load_repeatedly R fuel w m n) s = (Returned tt, s).
Proof.
  intros H. unfold load_repeatedly. induction n as [ | n IH ]; cbn [repeat await_each].
  - reflexivity.
  - rewrite run_async_bind, run_async_await. unfold run_async at 1.
    rewrite (loadProvider_resolved R fuel w m s H). cbn. exact IH.
Qed.

(** Calls of [loadProvider] made one after the other, each awaited: for a
    binding whose class has no constructor parameters the first call builds
    the instance, and every later call returns at the [isResolved] test; the
    store after any number of calls is the store after the first. *)
Theorem awaited_resolution_is_idempotent (R : Reflection) (fuel : nat) (w : nat)
  (m : string) (s : NestState) (mt : Class) (n : nat) :
  w < List.length (wrappers s) ->
  wrapper_isResolved s w = false ->
  wrapper_metatype s w = Some mt ->
  getParamtypes R mt = [] ->
  run_async (load_repeatedly R (S fuel) w m (S n)) s = (Returned tt, resolve_once mt w s) /\
  wrapper_isResolved (resolve_once mt w s) w = true /\
  wrapper_instance (resolve_once mt w s) w = Some (List.length (instances s)) /\
  instances (resolve_once mt w s) =
  instances s ++ [{| instance_class := mt; instance_args := [] |}].
Proof.
  intros Hw Hres Hmt Hdeps.
  split; [ | split; [ now apply resolve_once_resolved | split; [ | reflexivity ] ] ].
  - unfold load_repeatedly. cbn [repeat await_each].
    rewrite run_async_bind, run_async_await.
    rewrite (loadProvider_zero_dependencies R fuel w m s Hres Hmt Hdeps).
    apply load_repeatedly_resolved. now apply resolve_once_resolved.
  - unfold resolve_once, wrapper_instance, wrapper_at, update_wrapper. cbn.
    rewrite !nth_error_list_update, Nat.eqb_refl.
    destruct (nth_error (wrappers s) w) eqn:E; [ reflexivity | ].
    apply nth_error_None in E. lia.
Qed.

Lemma awaited_resolution_is_idempotent_witness :
  run_async (load_repeatedly diamond_reflection 10 ServiceB_binding "DiamondModule" 3)
            diamond_scanned =
  (Returned tt, resolve_once ServiceB ServiceB_binding diamond_scanned) /\
  built ServiceB (resolve_once ServiceB ServiceB_binding diamond_scanned) = 1.
Proof.
  split; [ | reflexivity ].
  apply (@awaited_resolution_is_idempotent diamond_reflection 9 ServiceB_binding
           "DiamondModule" diamond_scanned ServiceB 2);
    [ vm_compute; lia | reflexivity | reflexivity | reflexivity ].
Defined.

(** C2 (singleton idempotence) on the diamond [ServiceA(ServiceB, ServiceC)],
    [ServiceC(ServiceB)], [ServiceB()] with providers declared in the order
    [[ServiceA, ServiceB, ServiceC]]: [createInstances] returns with every
    binding resolved, but [ServiceB], a class without constructor
    parameters, has been built twice; the binding holds the second object and
    [ServiceC] and [ServiceA] were built with it, the first object is held by
    nothing.  The two resolutions of [ServiceB] were both called, and both
    passed the [isResolved] test, before either was resumed: of two such calls
    the first microtask resolves the binding with object 0 and the second
    replaces the instance of the resolved binding by object 1. *)
Theorem overlapping_resolution_builds_twice :
  run_async (createInstances diamond_reflection 10) diamond_scanned =
  (Returned tt, snd (run_async (createInstances diamond_reflection 10) diamond_scanned)) /\
  (let s := snd (run_async (createInstances diamond_reflection 10) diamond_scanned) in
   instances s =
   [{| instance_class := ServiceB; instance_args := [] |};
    {| instance_class := ServiceB; instance_args := [] |};
    {| instance_class := ServiceC; instance_args := [Some 1] |};
    {| instance_class := ServiceA; instance_args := [Some 1; Some 2] |}] /\
   built ServiceB s = 2 /\
   wrapper_metatype s ServiceB_binding = Some ServiceB /\
   getParamtypes diamond_reflection ServiceB = [] /\
   wrapper_isResolved s ServiceB_binding = true /\
   wrapper_instance s ServiceB_binding = Some 1) /\
  (let '(s, _, _) := two_calls in
   instances s = [] /\ wrapper_isResolved s ServiceB_binding = false) /\
  (let s := fst first_resumed in
   wrapper_isResolved s ServiceB_binding = true /\
   wrapper_instance s ServiceB_binding = Some 0 /\
   built ServiceB s = 1) /\
  (let s := fst second_resumed in
   wrapper_isResolved s ServiceB_binding = true /\
   wrapper_instance s ServiceB_binding = Some 1 /\
   built ServiceB s = 2).
Proof.
  repeat split; vm_compute; reflexivity.
Qed.

(* ================================================================== *)
(** * Part V. Further properties of the request pipeline               *)
(* ================================================================== *)

(** ** Exception filters *)

Section FilterDispatch.

Variable U : Type.

(** The test that [findFilter] makes for one filter: no class named in
    [@Catch(...)], or the exception is an instance of one that is named. *)
Definition filter_matches (filter : ExceptionFilter U) (exception : Exception) : bool :=
  match catch_types filter with
  | [] => true
  | exceptionTypes => existsb (instanceof exception) exceptionTypes
  end.

Lemma findFilter_loop_step (filter : ExceptionFilter U) (rest : list (ExceptionFilter U))
  (exception : Exception) :
  findFilter_loop (filter :: rest) exception =
  if filter_matches filter exception then Some filter else findFilter_loop rest exception.
Proof.
  cbn [findFilter_loop]. unfold filter_matches.
  destruct (catch_types filter) as [ | t ts ]; reflexivity.
Qed.

Lemma findFilter_loop_first (pre post : list (ExceptionFilter U)) (filter : ExceptionFilter U)
  (exception : Exception) :
  forallb (fun f => negb (filter_matches f exception)) pre = true ->
  filter_matches filter exception = true ->
  findFilter_loop (pre ++ filter :: post) exception = Some filter.
Proof.
  intros Hpre Hf. induction pre as [ | g pre IH ].
  - cbn [app]. rewrite findFilter_loop_step, Hf. reflexivity.
  - cbn [forallb] in Hpre. apply andb_prop in Hpre. destruct Hpre as [Hg Hpre].
    cbn [app]. rewrite findFilter_loop_step.
    apply negb_true_iff in Hg. rewrite Hg. now apply IH.
Qed.

Lemma findFilter_loop_found (fs : list (ExceptionFilter U)) (filter : ExceptionFilter U)
  (exception : Exception) :
  findFilter_loop fs exception = Some filter ->
  exists pre post,
    fs = pre ++ filter :: post /\
    forallb (fun f => negb (filter_matches f exception)) pre = true /\
    filter_matches filter exception = true.
Proof.
  induction fs as [ | g fs IH ]; [ discriminate | ].
  rewrite findFilter_loop_step. destruct (filter_matches g exception) eqn:Hg.
  - intros H. inversion H; subst g. exists [], fs. now repeat split.
  - intros H. destruct (IH H) as [pre [post [Heq [Hpre Hf]]]].
    exists (g :: pre), post. subst fs. repeat split; [ | exact Hf ].
    cbn [forallb]. now rewrite Hg.
Qed.

(** Of the registered filters the first one, in the order of the list,
    that matches the exception handles it, and only that one: [handle] logs
    its name and calls its [catch]; the default handler does not run.
    Conversely the filter that [findFilter] returns is such a first match. *)
Theorem first_matching_filter_handles (this : ExceptionsHandler U)
  (pre post : list (ExceptionFilter U)) (filter : ExceptionFilter U)
  (exception : Exception) (host : ArgumentsHost) :
  filters this = pre ++ filter :: post ->
  forallb (fun f => negb (filter_matches f exception)) pre = true ->
  filter_matches filter exception = true ->
  findFilter this exception = Some filter /\
  handle this exception host =
  (log (LogFilterUsed (filter_name filter)) ;;; catch filter exception host) /\
  (forall found,
      findFilter this exception = Some found ->
      exists pre' post',
        filters this = pre' ++ found :: post' /\
        forallb (fun f => negb (filter_matches f exception)) pre' = true /\
        filter_matches found exception = true).
Proof.
  intros Hfilters Hpre Hf.
  assert (Hfind : findFilter this exception = Some filter).
  { unfold findFilter. rewrite Hfilters. now apply findFilter_loop_first. }
  split; [ exact Hfind | split ].
  - unfold handle. rewrite Hfind. reflexivity.
  - intros found Hfound. now apply findFilter_loop_found.
Qed.

(** [exception instanceof HttpException] holds for every exception of the
    HTTP family, the built-in classes and classes derived from them, and for
    nothing else; every one of them is an [Error] too. *)
Lemma http_extends_HttpException (c : HttpClass) : http_extends c HttpException = true.
Proof.
  induction c as [ | | | | | | n p IH ]; try reflexivity. cbn. exact IH.
Qed.

(** A filter declared with [@Catch(HttpException)] alone handles every
    exception of the HTTP family, whatever its class, response and status;
    an [Error] outside the family and a thrown value that is no [Error] pass it
    by and get the default treatment with status 500. *)
Theorem http_filter_catches_the_family (this : ExceptionsHandler U)
  (filter : ExceptionFilter U) (host : ArgumentsHost) :
  filters this = [filter] ->
  catch_types filter = [CatchHttp HttpException] ->
  (forall cls response status,
      handle this (HttpError cls response status) host =
      (log (LogFilterUsed (filter_name filter)) ;;;
       catch filter (HttpError cls response status) host)) /\
  (forall cls message,
      handle this (PlainError cls message) host = handleDefault (PlainError cls message) host /\
      default_status (PlainError cls message) = 500%Z) /\
  (forall v,
      handle this (ThrownValue v) host = handleDefault (ThrownValue v) host /\
      default_status (ThrownValue v) = 500%Z).
Proof.
  intros Hfilters Htypes.
  assert (Hfind : forall e,
             findFilter this e =
             if instanceof e (CatchHttp HttpException) then Some filter else None).
  { intros e. unfold findFilter. rewrite Hfilters, findFilter_loop_step.
    unfold filter_matches. rewrite Htypes. cbn [existsb]. rewrite orb_false_r.
    reflexivity. }
  split; [ | split ].
  - intros cls response status. unfold handle. rewrite Hfind. cbn [instanceof].
    now rewrite http_extends_HttpException.
  - intros cls message. unfold handle. rewrite Hfind. now split.
  - intros v. unfold handle. rewrite Hfind. now split.
Qed.

End FilterDispatch.

(** A class of the program that is no [Error], a filter declared with
    [@Catch(Foo)] and one declared with [@Catch(Object)]. *)
Definition Foo : OtherClass := OtherSubclass "Foo" ObjectClass.

Definition foo_filter : ExceptionFilter Journal :=
  {| filter_name := "FooFilter";
     catch_types := [CatchOther Foo];
     catch := fun _ _ => journal_push (JsString "FooFilter") |}.

Definition object_filter : ExceptionFilter Journal :=
  {| filter_name := "ObjectFilter";
     catch_types := [CatchOther ObjectClass];
     catch := fun _ _ => journal_push (JsString "ObjectFilter") |}.

Definition thrown_foo : Exception := ThrownValue (JsInstance Foo "foo").

(** A plain [Error] passes [@Catch(HttpException)] and [@Catch(Foo)] and is
    handled by the catch-all filter; a thrown [Foo] passes
    [@Catch(HttpException)] and is handled by [@Catch(Foo)], before the
    catch-all filter; [@Catch(Object)] handles the plain [Error], and a thrown
    string passes it. *)
Lemma first_matching_filter_handles_witness :
  handle {| filters := [http_exception_filter; foo_filter; own_filter] |} driver_error
         sample_host =
  (log (LogFilterUsed "OwnFilter") ;;; catch own_filter driver_error sample_host) /\
  handle {| filters := [http_exception_filter; foo_filter; own_filter] |} thrown_foo
         sample_host =
  (log (LogFilterUsed "FooFilter") ;;; catch foo_filter thrown_foo sample_host) /\
  handle {| filters := [foo_filter; object_filter; own_filter] |} driver_error sample_host =
  (log (LogFilterUsed "ObjectFilter") ;;; catch object_filter driver_error sample_host) /\
  handle {| filters := [object_filter; own_filter] |} (ThrownValue (JsString "oops"))
         sample_host =
  (log (LogFilterUsed "OwnFilter") ;;;
   catch own_filter (ThrownValue (JsString "oops")) sample_host).
Proof.
  split; [ | split; [ | split ] ].
  - exact (proj1 (proj2 (@first_matching_filter_handles Journal
                           {| filters := [http_exception_filter; foo_filter; own_filter] |}
                           [http_exception_filter; foo_filter] [] own_filter driver_error
                           sample_host eq_refl eq_refl eq_refl))).
  - exact (proj1 (proj2 (@first_matching_filter_handles Journal
                           {| filters := [http_exception_filter; foo_filter; own_filter] |}
                           [http_exception_filter] [own_filter] foo_filter thrown_foo
                           sample_host eq_refl eq_refl eq_refl))).
  - exact (proj1 (proj2 (@first_matching_filter_handles Journal
                           {| filters := [foo_filter; object_filter; own_filter] |}
                           [foo_filter] [own_filter] object_filter driver_error
                           sample_host eq_refl eq_refl eq_refl))).
  - exact (proj1 (proj2 (@first_matching_filter_handles Journal
                           {| filters := [object_filter; own_filter] |}
                           [object_filter] [] own_filter (ThrownValue (JsString "oops"))
                           sample_host eq_refl eq_refl eq_refl))).
Defined.

Lemma http_filter_catches_the_family_witness :
  handle {| filters := [http_exception_filter] |}
         (new_NotFoundException (RespString "no such cat")) sample_host =
  (log (LogFilterUsed "HttpExceptionFilter") ;;;
   catch http_exception_filter (new_NotFoundException (RespString "no such cat")) sample_host).
Proof.
  exact (proj1 (@http_filter_catches_the_family Journal
                  {| filters := [http_exception_filter] |} http_exception_filter sample_host
                  eq_refl eq_refl) NotFoundException (RespString "no such cat") 404%Z).
Defined.

(** ** The default body for an object response *)

Lemma lookup_object_put (k k' : string) (v : JsValue) (o : list (string * JsValue)) :
  lookup_field k (object_put k' v o) =
  if String.eqb k k' then Some v else lookup_field k o.
Proof.
  induction o as [ | [k0 v0] o IH ]; cbn.
  - reflexivity.
  - destruct (String.eqb k' k0) eqn:E0; cbn.
    + apply String.eqb_eq in E0. subst k0. now destruct (String.eqb k k').
    + rewrite IH. destruct (String.eqb k k') eqn:E; [ | reflexivity ].
      apply String.eqb_eq in E. subst k'. now rewrite E0.
Qed.

Lemma lookup_field_absent (k : string) (fields : list (string * JsValue)) :
  ~ In k (map fst fields) -> lookup_field k fields = None.
Proof.
  induction fields as [ | [k0 v0] r IH ]; cbn; intros H; [ reflexivity | ].
  destruct (String.eqb k k0) eqn:E.
  - apply String.eqb_eq in E. subst k0. tauto.
  - apply IH. tauto.
Qed.

Lemma lookup_object_spread (k : string) (fields base : list (string * JsValue)) :
  NoDup (map fst fields) ->
  lookup_field k (object_spread base fields) =
  match lookup_field k fields with
  | Some v => Some v
  | None => lookup_field k base
  end.
Proof.
  unfold object_spread. revert base.
  induction fields as [ | [k0 v0] r IH ]; intros base Hnodup; [ reflexivity | ].
  cbn [fold_left fst snd]. inversion Hnodup as [ | ? ? Hnotin Hr ]; subst.
  rewrite (IH _ Hr), lookup_object_put. cbn [lookup_field].
  destruct (String.eqb k k0) eqn:E; [ | reflexivity ].
  apply String.eqb_eq in E. subst k0. now rewrite lookup_field_absent.
Qed.

(** [{ statusCode: status, ...exceptionResponse }] for an [HttpException]
    built with an object: the body has every field of that object with its
    value, and [statusCode] is the status of the exception only if the object
    has no [statusCode] of its own; if it has one, the body carries that one,
    while the status line of the response still carries the status of the
    exception. *)
Theorem object_response_overrides_statusCode (cls : HttpClass)
  (fields : list (string * JsValue)) (status : Z) :
  NoDup (map fst fields) ->
  exists body,
    default_body (HttpError cls (RespObject fields) status) = JsObject body /\
    default_status (HttpError cls (RespObject fields) status) = status /\
    (forall k v, lookup_field k fields = Some v -> lookup_field k body = Some v) /\
    (lookup_field "statusCode" fields = None ->
     lookup_field "statusCode" body = Some (JsNumber status)) /\
    (forall k, k <> "statusCode" -> lookup_field k body = lookup_field k fields).
Proof.
  intros Hnodup. eexists. split; [ reflexivity | split; [ reflexivity | ] ].
  split; [ | split ].
  - intros k v Hk. now rewrite lookup_object_spread, Hk.
  - intros Hnone. now rewrite lookup_object_spread, Hnone.
  - intros k Hk. rewrite lookup_object_spread by exact Hnodup.
    destruct (lookup_field k fields); [ reflexivity | ].
    cbn. apply String.eqb_neq in Hk. now rewrite Hk.
Qed.

Lemma object_response_overrides_statusCode_witness :
  exists body,
    default_body (HttpError BadRequestException
                    (RespObject [("message", JsString "invalid"); ("statusCode", JsNumber 422)])
                    400) = JsObject body /\
    lookup_field "statusCode" body = Some (JsNumber 422).
Proof.
  destruct (@object_response_overrides_statusCode BadRequestException
              [("message", JsString "invalid"); ("statusCode", JsNumber 422)] 400%Z)
    as [body [Hbody [_ [Hfields _]]]].
  - repeat constructor; cbn; intuition discriminate.
  - exists body. split; [ exact Hbody | ]. apply Hfields. reflexivity.
Defined.

(** ** The stages of a request *)

Section RequestStages.

Variable U : Type.

(** Once the guards have let the request pass and the body and the
    arguments are there, the closure that [create] returns does one of three
    things.  If a pipe throws, the exception goes to the exceptions handler in
    the world the pipes left: no interceptor and no handler method runs.  If
    the interceptors or the handler method throw, the exception goes to the
    exceptions handler likewise and the pipeline itself sends nothing.
    Otherwise the result of the outermost interceptor is sent as JSON, unless
    the response has been ended already, in which case nothing more is
    written. *)
Theorem request_pipeline_stages
  (this this_now : RouterExecutionContext U) (instance : InstanceRef)
  (handler : HandlerMethod U) (controllerClass : ControllerClass U)
  (resolveParams : IncomingMessage -> JsValue -> Action (World U) (list JsValue))
  (parseBody : IncomingMessage -> Action (World U) JsValue)
  (req : IncomingMessage) (w w1 w2 w3 : World U) (allowed : bool) (body : JsValue)
  (args : list JsValue) :
  let context := createExecutionContext req (controller_name controllerClass) (methodName handler) in
  let run := snd (create this instance handler controllerClass resolveParams parseBody)
                 this_now req in
  let on_error := fun error w' =>
    handle (exceptionsHandler this_now) error (createArgumentsHost req)
           (add_console [LogRunExceptionHandling] w') in
  let pipes := applyPipesToArgs args (reflectPipes controllerClass handler)
                 (method_args handler) in
  let call := fun args' =>
    InterceptorsConsumer_intercept (reflectInterceptors controllerClass handler) context
      (log LogRunHandler ;;; method_apply handler instance args') in
  tryActivate (reflectGuards controllerClass handler) context (add_console [LogRunGuards] w) =
  (Normal allowed, w1) ->
  parseBody req w1 = (Normal body, w2) ->
  resolveParams req body w2 = (Normal args, w3) ->
  (forall e w4,
      pipes (add_console [LogRunPipes] w3) = (Abrupt e, w4) -> run w = on_error e w4) /\
  (forall args' w4 e w5,
      pipes (add_console [LogRunPipes] w3) = (Normal args', w4) ->
      call args' (add_console [LogRunInterceptors] w4) = (Abrupt e, w5) ->
      run w = on_error e w5) /\
  (forall args' w4 result w5,
      pipes (add_console [LogRunPipes] w3) = (Normal args', w4) ->
      call args' (add_console [LogRunInterceptors] w4) = (Normal result, w5) ->
      run w = (Normal tt, send_result result w5)).
Proof.
  intros context run on_error pipes call Hguards Hbody Hargs.
  assert (Hrun : run w =
                 try_catch
                   (args' <- pipes ;;
                    log LogRunInterceptors ;;;
                    result <- call args' ;;
                    (fun w' =>
                       if negb (writableEnded (response w'))
                       then (update_response (setHeader "Content-Type" "application/json") ;;;
                             update_response (res_end (JSON_stringify result))) w'
                       else (Normal tt, w')))
                   (fun error =>
                      log LogRunExceptionHandling ;;;
                      handle (exceptionsHandler this_now) error (createArgumentsHost req))
                   (add_console [LogRunPipes] w3)).
  { unfold run. cbn [create snd]. fold context.
    unfold try_catch, pipeline_body, pipeline_after_guards.
    rewrite bind_normal with (w' := add_console [LogRunGuards] w) (a := tt) by reflexivity.
    rewrite bind_normal with (w' := w1) (a := allowed) by exact Hguards.
    rewrite bind_normal with (w' := w2) (a := body) by exact Hbody.
    rewrite bind_normal with (w' := w3) (a := args) by exact Hargs.
    rewrite bind_normal with (w' := add_console [LogRunPipes] w3) (a := tt) by reflexivity.
    reflexivity. }
  split; [ | split ].
  - intros e w4 Hpipes. rewrite Hrun.
    rewrite try_catch_abrupt with (e := e) (w' := w4).
    + reflexivity.
    + now apply bind_abrupt.
  - intros args' w4 e w5 Hpipes Hcall. rewrite Hrun.
    rewrite try_catch_abrupt with (e := e) (w' := w5).
    + reflexivity.
    + rewrite bind_normal with (w' := w4) (a := args') by exact Hpipes.
      rewrite bind_normal with (w' := add_console [LogRunInterceptors] w4) (a := tt)
        by reflexivity.
      now apply bind_abrupt.
  - intros args' w4 result w5 Hpipes Hcall. rewrite Hrun.
    apply try_catch_normal.
    rewrite bind_normal with (w' := w4) (a := args') by exact Hpipes.
    rewrite bind_normal with (w' := add_console [LogRunInterceptors] w4) (a := tt)
      by reflexivity.
    rewrite bind_normal with (w' := w5) (a := result) by exact Hcall.
    unfold send_result. destruct (writableEnded (response w5)); reflexivity.
Qed.

End RequestStages.

Lemma request_pipeline_stages_witness :
  exists result w5,
    post_cats_handler (new_RouterExecutionContext Journal) post_cats_authorized empty_world =
    (Normal tt, send_result result w5).
Proof.
  edestruct (@request_pipeline_stages Journal
               (new_RouterExecutionContext Journal) (new_RouterExecutionContext Journal)
               0 create_method cats_controller (fun _ body => ret [body]) sample_parseBody
               post_cats_authorized empty_world) as [_ [_ Hsent]];
    [ lazy; reflexivity | lazy; reflexivity | lazy; reflexivity | ].
  do 2 eexists. eapply Hsent; lazy; reflexivity.
Defined.

(** ** Arguments and pipes *)

Section ArgumentPipes.

Variable U : Type.

(** [applyPipesToArgs] changes only the arguments that a parameter
    decorator describes: every position of the argument array that no entry
    of the metadata names holds what it held before, the array is never
    shortened, and without pipes the array is returned as it is, metadata or
    not. *)
Theorem pipes_touch_only_decorated_arguments (pipes : list (PipeTransform U))
  (argsMetadata : list (string * RouteParamMetadata)) (args args' : list JsValue)
  (w w' : World U) :
  applyPipesToArgs args pipes argsMetadata w = (Normal args', w') ->
  List.length args <= List.length args' /\
  (forall j, (forall key entry, In (key, entry) argsMetadata -> index entry <> j) ->
             array_get j args' = array_get j args) /\
  (pipes = [] -> args' = args /\ w' = w).
Proof.
  intros H. unfold applyPipesToArgs in H. destruct pipes as [ | pipe pipes ].
  - inversion H; subst. split; [ lia | split; [ reflexivity | now split ] ].
  - destruct (applyPipesToArgs_loop_untouched _ _ _ _ _ H) as [Hlen Hget].
    split; [ exact Hlen | split; [ exact Hget | discriminate ] ].
Qed.

End ArgumentPipes.

Lemma pipes_touch_only_decorated_arguments_witness :
  exists args' w',
    applyPipesToArgs [JsString "7"; JsString "untouched"]
      [suffix_pipe "first" "-first"]
      [("5:0", {| index := 0; data := Some "id"; type := PARAM |})] empty_world =
    (Normal args', w') /\
    array_get 1 args' = JsString "untouched".
Proof.
  do 2 eexists. split; [ reflexivity | ].
  refine (proj1 (proj2 (@pipes_touch_only_decorated_arguments Journal
                          [suffix_pipe "first" "-first"]
                          [("5:0", {| index := 0; data := Some "id"; type := PARAM |})]
                          [JsString "7"; JsString "untouched"] _ empty_world _ eq_refl)) 1 _).
  intros key entry [Heq | []]. inversion Heq. cbn. discriminate.
Defined.

(** ** Route paths *)

Definition starts_with_slash (s : string) : bool :=
  match s with
  | String "/" _ => true
  | _ => false
  end.

Fixpoint ends_with_slash (s : string) : bool :=
  match s with
  | EmptyString => false
  | String c EmptyString => Ascii.eqb c "/"
  | String _ r => ends_with_slash r
  end.

(** What [normalizePath] keeps of one of its arguments. *)
Definition path_segment (p : string) : string :=
  strip_trailing_slashes (strip_leading_slashes p).

Definition nonempty (p : string) : bool := negb (String.eqb p "").

Lemma string_app_assoc (a b c : string) : ((a ++ b) ++ c = a ++ (b ++ c))%string.
Proof. induction a as [ | x a IH ]; cbn; [ reflexivity | now rewrite IH ]. Qed.

Lemma string_app_nil_r (a : string) : (a ++ "" = a)%string.
Proof. induction a as [ | x a IH ]; cbn; [ reflexivity | now rewrite IH ]. Qed.

Lemma strip_leading_fixed (s : string) :
  starts_with_slash s = false -> strip_leading_slashes s = s.
Proof.
  destruct s as [ | c r ]; [ reflexivity | ]. cbn.
  destruct c as [[] [] [] [] [] [] [] []]; try reflexivity. discriminate.
Qed.

Lemma strip_leading_clean (s : string) :
  starts_with_slash (strip_leading_slashes s) = false.
Proof.
  induction s as [ | c r IH ]; [ reflexivity | ].
  destruct c as [[] [] [] [] [] [] [] []]; try reflexivity. exact IH.
Qed.

Lemma strip_trailing_fixed (s : string) :
  ends_with_slash s = false -> strip_trailing_slashes s = s.
Proof.
  induction s as [ | c r IH ]; [ reflexivity | ].
  cbn [ends_with_slash strip_trailing_slashes]. destruct r as [ | d r' ].
  - intros H. cbn. now rewrite H.
  - intros H. rewrite (IH H). cbn. now rewrite andb_false_r.
Qed.

Lemma strip_trailing_clean (s : string) :
  ends_with_slash (strip_trailing_slashes s) = false.
Proof.
  induction s as [ | c r IH ]; [ reflexivity | ].
  cbn [strip_trailing_slashes].
  destruct (strip_trailing_slashes r) as [ | d r' ] eqn:E.
  - cbn. rewrite andb_true_r. destruct (Ascii.eqb c "/") eqn:Ec; [ reflexivity | ].
    cbn. exact Ec.
  - cbn [String.eqb]. rewrite andb_false_r. exact IH.
Qed.

Lemma strip_trailing_start (s : string) :
  starts_with_slash s = false -> starts_with_slash (strip_trailing_slashes s) = false.
Proof.
  destruct s as [ | c r ]; [ reflexivity | ]. cbn [strip_trailing_slashes].
  intros H. destruct (andb _ _); [ reflexivity | exact H ].
Qed.

Lemma path_segment_clean (p : string) :
  starts_with_slash (path_segment p) = false /\ ends_with_slash (path_segment p) = false.
Proof.
  unfold path_segment. split.
  - apply strip_trailing_start, strip_leading_clean.
  - apply strip_trailing_clean.
Qed.

Lemma starts_app (a b : string) :
  nonempty a = true -> starts_with_slash (a ++ b) = starts_with_slash a.
Proof. destruct a; [ discriminate | reflexivity ]. Qed.

Lemma ends_app (a b : string) :
  nonempty b = true -> ends_with_slash (a ++ b) = ends_with_slash b.
Proof.
  intros Hb. induction a as [ | c a IH ]; [ reflexivity | ].
  cbn [append ends_with_slash]. destruct (a ++ b)%string eqn:E.
  - destruct a; [ cbn in E; subst b; discriminate | discriminate ].
  - exact IH.
Qed.

(** The pieces that [normalizePath] joins. *)
Definition path_pieces (paths : list string) : list string :=
  filter nonempty (map path_segment paths).

Lemma normalizePath_pieces (paths : list string) :
  normalizePath paths = ("/" ++ String.concat "/" (path_pieces paths))%string.
Proof. reflexivity. Qed.

Lemma concat_cons (x : string) (l : list string) :
  l <> [] -> String.concat "/" (x :: l) = (x ++ "/" ++ String.concat "/" l)%string.
Proof. destruct l; [ congruence | reflexivity ]. Qed.

Lemma concat_clean (l : list string) :
  (forall p, In p l -> nonempty p = true /\ starts_with_slash p = false /\
                       ends_with_slash p = false) ->
  starts_with_slash (String.concat "/" l) = false /\
  ends_with_slash (String.concat "/" l) = false /\
  (l <> [] -> nonempty (String.concat "/" l) = true).
Proof.
  induction l as [ | x l IH ]; intros H.
  - repeat split. congruence.
  - destruct (H x (or_introl eq_refl)) as [Hne [Hs He]].
    destruct l as [ | y l ].
    + cbn. repeat split; auto.
    + destruct IH as [IHs [IHe IHn]]; [ intros p Hp; apply H; now right | ].
      rewrite concat_cons by discriminate. split; [ | split ].
      * now rewrite starts_app.
      * rewrite ends_app.
        -- rewrite ends_app; [ exact IHe | apply IHn; discriminate ].
        -- reflexivity.
      * intros _. destruct x; [ discriminate | reflexivity ].
Qed.

Lemma path_pieces_clean (paths : list string) (p : string) :
  In p (path_pieces paths) ->
  nonempty p = true /\ starts_with_slash p = false /\ ends_with_slash p = false.
Proof.
  unfold path_pieces. intros H. apply filter_In in H. destruct H as [Hin Hne].
  apply in_map_iff in Hin. destruct Hin as [q [<- _]].
  split; [ exact Hne | apply path_segment_clean ].
Qed.

Lemma concat_concat (l1 l2 : list string) :
  l1 <> [] ->
  String.concat "/" (String.concat "/" l1 :: l2) = String.concat "/" (l1 ++ l2).
Proof.
  induction l1 as [ | x l1 IH ]; [ congruence | ]. intros _.
  destruct l1 as [ | y l1 ].
  - reflexivity.
  - assert (E : String.concat "/" ((x :: y :: l1) ++ l2) =
                (x ++ "/" ++ String.concat "/" ((y :: l1) ++ l2))%string) by reflexivity.
    rewrite E, <- IH by discriminate.
    rewrite (@concat_cons x (y :: l1)) by discriminate.
    destruct l2 as [ | z l2 ].
    + reflexivity.
    + rewrite !(@concat_cons _ (z :: l2)) by discriminate. now rewrite !string_app_assoc.
Qed.

(** The path that [normalizePath] returns starts with a slash, does not
    end with one unless it is the root path, and is in normal form: passed
    through [normalizePath] again, alone or in front of further paths, it
    counts as the paths it was made of. *)
Theorem normalizePath_is_canonical (paths more : list string) :
  starts_with_slash (normalizePath paths) = true /\
  (normalizePath paths = "/" \/ ends_with_slash (normalizePath paths) = false) /\
  normalizePath [normalizePath paths] = normalizePath paths /\
  normalizePath (normalizePath paths :: more) = normalizePath (paths ++ more).
Proof.
  pose proof (@concat_clean (path_pieces paths) (@path_pieces_clean paths)) as [Hs [He Hn]].
  assert (Hseg : path_segment (normalizePath paths) = String.concat "/" (path_pieces paths)).
  { rewrite normalizePath_pieces. unfold path_segment. cbn [append strip_leading_slashes].
    rewrite strip_leading_fixed by exact Hs. now apply strip_trailing_fixed. }
  assert (Hcons : forall l, normalizePath (normalizePath paths :: l) = normalizePath (paths ++ l)).
  { intros l. rewrite (normalizePath_pieces (normalizePath paths :: l)).
    rewrite (normalizePath_pieces (paths ++ l)). f_equal. unfold path_pieces.
    cbn [map filter]. rewrite Hseg, map_app, filter_app. fold (path_pieces paths).
    destruct (path_pieces paths) as [ | x l1 ] eqn:E.
    - reflexivity.
    - rewrite (Hn ltac:(discriminate)). now apply concat_concat. }
  split; [ reflexivity | split; [ | split ] ].
  - rewrite normalizePath_pieces. destruct (path_pieces paths) as [ | x l1 ] eqn:E.
    + now left.
    + right. rewrite ends_app; [ exact He | apply Hn; discriminate ].
  - rewrite Hcons. now rewrite app_nil_r.
  - apply Hcons.
Qed.

(** ** Dispatch to the first matching route *)

Section RouteDispatch.

Variable U : Type.
Variable URL_pathname : IncomingMessage -> option string.
Variable RegExp_test : string -> string -> bool.
Variable createParamsResolver :
  ControllerClass U -> HandlerMethod U -> string -> IncomingMessage -> JsValue ->
  Action (World U) (list JsValue).
Variable createBodyParser : IncomingMessage -> Action (World U) JsValue.

(** The test of [findRoute] for one route. *)
Definition route_matches (method pathname : string) (route : RouteInfo U) : bool :=
  andb (String.eqb (route_method route) method) (RegExp_test (route_path route) pathname).

Lemma findRoute_first (this : RouterExplorer U) (method pathname : string)
  (pre post : list (RouteInfo U)) (route : RouteInfo U) :
  routes this = pre ++ route :: post ->
  forallb (fun r => negb (route_matches method pathname r)) pre = true ->
  route_matches method pathname route = true ->
  findRoute RegExp_test this method pathname = Some route.
Proof.
  unfold findRoute. intros -> Hpre Hroute.
  induction pre as [ | r pre IH ]; cbn [app find].
  - unfold route_matches in Hroute. apply andb_prop in Hroute. destruct Hroute as [Hm Hp].
    now rewrite Hm, Hp.
  - cbn [forallb] in Hpre. apply andb_prop in Hpre. destruct Hpre as [Hr Hpre].
    apply negb_true_iff in Hr. unfold route_matches in Hr.
    destruct (String.eqb (route_method r) method); cbn in Hr |- *.
    + rewrite Hr. now apply IH.
    + now apply IH.
Qed.

(** When several registered routes match the method and the path of a
    request, the one registered first gets it: the request handler logs the
    request and then runs the closure of that route with the request, and no
    other. *)
Theorem first_registered_route_wins (this : RouterExplorer U) (req : IncomingMessage)
  (pathname : string) (pre post : list (RouteInfo U)) (route : RouteInfo U) (w : World U) :
  URL_pathname req = Some pathname ->
  routes this = pre ++ route :: post ->
  forallb (fun r => negb (route_matches (request_method req) pathname r)) pre = true ->
  route_matches (request_method req) pathname route = true ->
  createRequestHandler URL_pathname RegExp_test this req w =
  requestHandler route (executionContext this) req
    (add_console [LogSeparator; LogRequest (toUpperCase (request_method req)) pathname;
                  LogSeparator] w).
Proof.
  intros Hurl Hroutes Hpre Hroute. unfold createRequestHandler. rewrite Hurl. cbv zeta.
  rewrite (@findRoute_first this (request_method req) pathname pre post route Hroutes Hpre Hroute).
  unfold bind, log, add_console. cbn. now rewrite <- !app_assoc.
Qed.

(** ** The routes of a controller *)

(** A method is a route when both [@Get()] (or a sibling) metadata are on
    it. *)
Definition is_route (method : HandlerMethod U) : bool :=
  match method_path method, method_verb method with
  | Some _, Some _ => true
  | _, _ => false
  end.

(** The entry that [exploreController] pushes for a route method. *)
Definition route_entry (instance : InstanceRef) (metatype : ControllerClass U)
  (method : HandlerMethod U) : RouteInfo U :=
  let fullPath :=
    normalizePath [or_slash (controller_path metatype);
                   match method_path method with Some p => p | None => "" end] in
  {| route_method := match method_verb method with Some v => v | None => "" end;
     route_path := fullPath;
     route_handler := method;
     route_instance := instance;
     route_controllerClass := metatype;
     requestHandler :=
       snd (create (new_RouterExecutionContext U) instance method metatype
              (createParamsResolver metatype method fullPath) createBodyParser) |}.

Lemma exploreMethod_routes (this : RouterExplorer U) (instance : InstanceRef)
  (metatype : ControllerClass U) (method : HandlerMethod U) :
  routes (exploreMethod createParamsResolver createBodyParser this instance metatype method) =
  routes this ++ (if is_route method then [route_entry instance metatype method] else []).
Proof.
  unfold exploreMethod, is_route, route_entry.
  destruct (method_path method) as [ p | ]; [ | now rewrite app_nil_r ].
  destruct (method_verb method) as [ v | ]; [ | now rewrite app_nil_r ].
  reflexivity.
Qed.

(** [exploreController] appends one route for every method of the
    prototype that carries both a path and a request method, in the order of
    the prototype, under the normalized path of controller prefix and method
    path; methods without the metadata are skipped, and a controller whose
    wrapper holds no instance contributes no route at all.  Routes registered
    before are kept, in place. *)
Theorem exploreController_registers_routes (this : RouterExplorer U)
  (metatype : ControllerClass U) :
  (forall instance,
      routes (exploreController createParamsResolver createBodyParser this (Some instance)
                metatype) =
      routes this ++
      map (route_entry instance metatype) (filter is_route (prototype_methods metatype))) /\
  exploreController createParamsResolver createBodyParser this None metatype = this.
Proof.
  split; [ | reflexivity ].
  intros instance. unfold exploreController.
  generalize (prototype_methods metatype). intros methods. revert this.
  induction methods as [ | m l IH ]; intros this.
  - cbn. now rewrite app_nil_r.
  - cbn [fold_left filter]. rewrite IH, exploreMethod_routes.
    destruct (is_route m); cbn [map]; rewrite <- app_assoc; reflexivity.
Qed.

End RouteDispatch.

Lemma first_registered_route_wins_witness :
  createRequestHandler sample_URL_pathname String.eqb two_controller_explorer
    (sample_request "GET" "/second" [] "") empty_world =
  requestHandler second_route (executionContext two_controller_explorer)
    (sample_request "GET" "/second" [] "")
    (add_console [LogSeparator; LogRequest "GET" "/second"; LogSeparator] empty_world).
Proof.
  apply (@first_registered_route_wins Journal sample_URL_pathname String.eqb
           two_controller_explorer (sample_request "GET" "/second" [] "") "/second"
           [first_route] [] second_route empty_world);
    reflexivity.
Defined.

(** ** Path parameters ([RouterExplorer.extractPathParams]) *)

(** [s.split('/')] *)
Fixpoint split_slash (s : string) : list string :=
  match s with
  | EmptyString => [""]
  | String c r =>
      if Ascii.eqb c "/" then "" :: split_slash r
      else match split_slash r with
           | x :: xs => String c x :: xs
           | [] => [String c ""]
           end
  end.

(** [part.startsWith(':')] and [part.slice(1)] *)
Definition startsWith_colon (part : string) : bool :=
  match part with
  | String ":" _ => true
  | _ => false
  end.

Definition slice_1 (part : string) : string :=
  match part with
  | String _ r => r
  | EmptyString => EmptyString
  end.

(** [actualParts[index]] *)
Definition part_at (actualParts : list string) (index : nat) : JsValue :=
  match nth_error actualParts index with
  | Some p => JsString p
  | None => JsUndefined
  end.

(** [params[key] = value] on the object literal [params], for a value that
    is a string or [undefined].  The object inherits from [Object.prototype]:
    [__proto__] is an accessor there, whose setter ignores a value that is
    neither an object nor [null], so the assignment adds no property; every
    other inherited property is a writable data property, which the
    assignment shadows with an own property as it does for a new key. *)
Definition set_property (key : string) (value : JsValue) (params : list (string * JsValue))
  : list (string * JsValue) :=
  if String.eqb key "__proto__" then params else object_put key value params.

(** The [routeParts.forEach((part, index) => ...)] loop.  [params] holds
    the own properties of the object, in the order of their first assignment
    (JavaScript lists keys that are array indices first; the keys are only
    looked up below). *)
Fixpoint extractPathParams_loop (routeParts : list string) (index : nat)
  (actualParts : list string) (params : list (string * JsValue)) : list (string * JsValue) :=
  match routeParts with
  | [] => params
  | part :: rest =>
      extractPathParams_loop rest (S index) actualParts
        (if startsWith_colon part
         then set_property (slice_1 part) (part_at actualParts index) params
         else params)
  end.

Definition extractPathParams (routePath actualPath : string) : list (string * JsValue) :=
  extractPathParams_loop (split_slash routePath) 0 (split_slash actualPath) [].

Fixpoint slash_free (s : string) : bool :=
  match s with
  | EmptyString => true
  | String c r => andb (negb (Ascii.eqb c "/")) (slash_free r)
  end.

Lemma split_slash_free (x : string) : slash_free x = true -> split_slash x = [x].
Proof.
  induction x as [ | c r IH ]; [ reflexivity | ]. cbn [slash_free split_slash].
  intros H. apply andb_prop in H. destruct H as [Hc Hr].
  apply negb_true_iff in Hc. now rewrite Hc, (IH Hr).
Qed.

Lemma split_slash_app (x rest : string) :
  slash_free x = true -> split_slash (x ++ String "/" rest) = x :: split_slash rest.
Proof.
  induction x as [ | c r IH ]; [ reflexivity | ]. cbn [slash_free append split_slash].
  intros H. apply andb_prop in H. destruct H as [Hc Hr].
  apply negb_true_iff in Hc. now rewrite Hc, (IH Hr).
Qed.

(** Splitting at the slashes undoes joining with slashes. *)
Lemma split_slash_concat (parts : list string) :
  parts <> [] -> forallb slash_free parts = true ->
  split_slash (String.concat "/" parts) = parts.
Proof.
  induction parts as [ | x l IH ]; [ congruence | ]. intros _ H.
  cbn [forallb] in H. apply andb_prop in H. destruct H as [Hx Hl].
  destruct l as [ | y l ].
  - now apply split_slash_free.
  - rewrite concat_cons by discriminate.
    change ("/" ++ String.concat "/" (y :: l))%string
      with (String "/" (String.concat "/" (y :: l))).
    rewrite split_slash_app by exact Hx.
    now rewrite IH.
Qed.

Lemma is_param_part (part name : string) :
  (startsWith_colon part = true /\ slice_1 part = name) <-> part = String ":" name.
Proof.
  split.
  - intros [Hs Hn]. destruct part as [ | c r ]; [ discriminate | ].
    destruct c as [[] [] [] [] [] [] [] []]; try discriminate. cbn in Hn. now subst.
  - intros ->. now split.
Qed.

Lemma lookup_set_property (name key : string) (value : JsValue)
  (params : list (string * JsValue)) :
  lookup_field name (set_property key value params) =
  if andb (String.eqb name key) (negb (String.eqb key "__proto__")) then Some value
  else lookup_field name params.
Proof.
  unfold set_property. destruct (String.eqb key "__proto__") eqn:Ek.
  - cbn [negb]. now rewrite andb_false_r.
  - cbn [negb]. rewrite andb_true_r. apply lookup_object_put.
Qed.

Lemma extractPathParams_loop_other (name : string) (routeParts actualParts : list string) :
  forall index params,
    ~ In (String ":" name) routeParts \/ name = "__proto__" ->
    lookup_field name (extractPathParams_loop routeParts index actualParts params) =
    lookup_field name params.
Proof.
  induction routeParts as [ | part rest IH ]; intros index params Hnot; [ reflexivity | ].
  cbn [extractPathParams_loop].
  rewrite IH by (destruct Hnot as [Hnot | Hnot]; [ left; intros H; apply Hnot; now right
                                                 | now right ]).
  destruct (startsWith_colon part) eqn:Hs; [ | reflexivity ].
  rewrite lookup_set_property.
  destruct (String.eqb name (slice_1 part)) eqn:E; [ | reflexivity ].
  apply String.eqb_eq in E.
  destruct (String.eqb (slice_1 part) "__proto__") eqn:Ep; [ reflexivity | ].
  exfalso. destruct Hnot as [Hnot | Hnot].
  - apply Hnot. left. apply (proj1 (is_param_part part name)). now split.
  - subst name. rewrite <- E in Ep. discriminate Ep.
Qed.

Lemma extractPathParams_loop_last (name : string) (pre post actualParts : list string) :
  forall index params,
    name <> "__proto__" ->
    ~ In (String ":" name) post ->
    lookup_field name
      (extractPathParams_loop (pre ++ String ":" name :: post) index actualParts params) =
    Some (part_at actualParts (index + List.length pre)).
Proof.
  induction pre as [ | part pre IH ]; intros index params Hname Hnot.
  - cbn [app extractPathParams_loop startsWith_colon slice_1 List.length].
    rewrite extractPathParams_loop_other by (now left).
    rewrite lookup_set_property, String.eqb_refl, Nat.add_0_r.
    apply String.eqb_neq in Hname. now rewrite Hname.
  - cbn [app extractPathParams_loop List.length]. rewrite IH by assumption.
    now rewrite Nat.add_succ_r.
Qed.

(** For a route path and a request path that are made of segments joined
    by slashes, the object that [extractPathParams] returns has, for a
    parameter segment [:name] of the route, the own property [name] with the
    segment of the request path at the same position as its value; if the
    name occurs more than once the last occurrence counts, and if the request
    path is too short the value is [undefined].  A name that is no parameter
    segment of the route is no own property of the object, and neither is
    [__proto__], whatever the route: the assignment to it is lost. *)
Theorem path_params_round_trip (routeParts actualParts : list string) (name : string) :
  routeParts <> [] -> actualParts <> [] ->
  forallb slash_free routeParts = true -> forallb slash_free actualParts = true ->
  let params :=
    extractPathParams (String.concat "/" routeParts) (String.concat "/" actualParts) in
  (name <> "__proto__" ->
   forall pre post,
     routeParts = pre ++ String ":" name :: post -> ~ In (String ":" name) post ->
     lookup_field name params = Some (part_at actualParts (List.length pre))) /\
  (~ In (String ":" name) routeParts -> lookup_field name params = None) /\
  lookup_field "__proto__" params = None.
Proof.
  intros Hr Ha Hrf Haf params. unfold params, extractPathParams.
  rewrite !split_slash_concat by assumption. split; [ | split ].
  - intros Hname pre post -> Hpost. now rewrite extractPathParams_loop_last.
  - intros Hnot. rewrite extractPathParams_loop_other by (now left). reflexivity.
  - rewrite extractPathParams_loop_other by (now right). reflexivity.
Qed.

Lemma path_params_round_trip_witness :
  lookup_field "id" (extractPathParams "/cats/:id" "/cats/42") = Some (JsString "42") /\
  lookup_field "id" (extractPathParams "/cats/:id" "/cats") = Some JsUndefined /\
  lookup_field "constructor" (extractPathParams "/:constructor" "/x") = Some (JsString "x") /\
  extractPathParams "/:__proto__" "/x" = [].
Proof.
  split; [ | split; [ | split ] ].
  - exact (proj1 (@path_params_round_trip [""; "cats"; ":id"] [""; "cats"; "42"] "id"
                    ltac:(discriminate) ltac:(discriminate) eq_refl eq_refl)
                 ltac:(discriminate) [""; "cats"] [] eq_refl (fun H => H)).
  - exact (proj1 (@path_params_round_trip [""; "cats"; ":id"] [""; "cats"] "id"
                    ltac:(discriminate) ltac:(discriminate) eq_refl eq_refl)
                 ltac:(discriminate) [""; "cats"] [] eq_refl (fun H => H)).
  - exact (proj1 (@path_params_round_trip [""; ":constructor"] [""; "x"] "constructor"
                    ltac:(discriminate) ltac:(discriminate) eq_refl eq_refl)
                 ltac:(discriminate) [""] [] eq_refl (fun H => H)).
  - reflexivity.
Defined.

(** ** Handler arguments ([RouterExplorer.createParamsResolver]) *)

(** [keys.sort((a, b) => argsMetadata[a].index - argsMetadata[b].index)];
    the sort of an array is stable. *)
Fixpoint insert_by_index (e : string * RouteParamMetadata)
  (sorted : list (string * RouteParamMetadata)) : list (string * RouteParamMetadata) :=
  match sorted with
  | [] => [e]
  | x :: rest =>
      if index (snd e) <=? index (snd x) then e :: x :: rest
      else x :: insert_by_index e rest
  end.

Definition sort_by_index (l : list (string * RouteParamMetadata))
  : list (string * RouteParamMetadata) :=
  fold_right insert_by_index [] l.

(** [data ? ... : ...]: the empty string counts as no [data]. *)
Definition data_given (data : option string) : option string :=
  match data with
  | Some d => if String.eqb d "" then None else Some d
  | None => None
  end.

(** The classes of the request and the response of the platform. *)
Definition EventEmitter_class : OtherClass := OtherSubclass "EventEmitter" ObjectClass.
Definition Stream_class : OtherClass := OtherSubclass "Stream" EventEmitter_class.
Definition IncomingMessage_class : OtherClass :=
  OtherSubclass "IncomingMessage" (OtherSubclass "Readable" Stream_class).
Definition ServerResponse_class : OtherClass :=
  OtherSubclass "ServerResponse" (OtherSubclass "OutgoingMessage" Stream_class).

Section ParamsResolver.

Variable U : Type.

(** Services of the platform: the path of the request URL ([None] when
    [new URL] throws), [url.searchParams.get(name)],
    [Object.fromEntries(url.searchParams)], reading a property [o[name]] of
    an object or another value, which follows the prototypes,
    [req.headers[name]] and [req.headers]. *)
Variable URL_pathname : IncomingMessage -> option string.
Variable searchParams_get : IncomingMessage -> string -> JsValue.
Variable searchParams_entries : IncomingMessage -> JsValue.
Variable get_property : JsValue -> string -> JsValue.
Variable header_value : IncomingMessage -> string -> JsValue.
Variable headers_object : IncomingMessage -> JsValue.

(** The right-hand side of [args[index] = ...] in the [switch]. *)
Definition argument_for (req : IncomingMessage) (params : list (string * JsValue))
  (body : JsValue) (entry : RouteParamMetadata) : JsValue :=
  match type entry with
  | REQUEST => JsInstance IncomingMessage_class "req"
  | RESPONSE => JsInstance ServerResponse_class "res"
  | BODY =>
      match data_given (data entry) with
      | Some d => match body with
                  | JsUndefined | JsNull => JsUndefined
                  | _ => get_property body d
                  end
      | None => body
      end
  | PARAM =>
      match data_given (data entry) with
      | Some d => get_property (JsObject params) d
      | None => JsObject params
      end
  | QUERY =>
      match data_given (data entry) with
      | Some d => searchParams_get req d
      | None => searchParams_entries req
      end
  | HEADERS =>
      match data_given (data entry) with
      | Some d => header_value req (toLowerCase d)
      | None => headers_object req
      end
  end.

(** The [for (const key of sortedKeys)] loop. *)
Definition assign_arguments (req : IncomingMessage) (params : list (string * JsValue))
  (body : JsValue) (sorted : list (string * RouteParamMetadata)) (args : list JsValue)
  : list JsValue :=
  fold_left (fun args kv => array_set (index (snd kv)) (argument_for req params body (snd kv)) args)
            sorted args.

(** The function that [createParamsResolver] returns for a method. *)
Definition createParamsResolver (controllerClass : ControllerClass U)
  (method : HandlerMethod U) (routePath : string)
  : IncomingMessage -> JsValue -> Action (World U) (list JsValue) :=
  fun req body =>
    match URL_pathname req with
    | None => throw invalid_url
    | Some pathname =>
        let params := extractPathParams routePath pathname in
        ret (assign_arguments req params body (sort_by_index (method_args method)) [])
    end.

Lemma insert_by_index_perm (e : string * RouteParamMetadata)
  (l : list (string * RouteParamMetadata)) :
  Permutation (e :: l) (insert_by_index e l).
Proof.
  induction l as [ | x l IH ]; cbn [insert_by_index]; [ apply Permutation_refl | ].
  destruct (index (snd e) <=? index (snd x)); [ apply Permutation_refl | ].
  eapply perm_trans; [ apply perm_swap | ]. now apply perm_skip.
Qed.

Lemma sort_by_index_perm (l : list (string * RouteParamMetadata)) :
  Permutation l (sort_by_index l).
Proof.
  induction l as [ | x l IH ]; cbn; [ apply perm_nil | ].
  eapply perm_trans; [ apply perm_skip, IH | apply insert_by_index_perm ].
Qed.

Lemma assign_arguments_other (req : IncomingMessage) (params : list (string * JsValue))
  (body : JsValue) (entries : list (string * RouteParamMetadata)) :
  forall args j,
    ~ In j (map (fun kv => index (snd kv)) entries) ->
    array_get j (assign_arguments req params body entries args) = array_get j args.
Proof.
  unfold assign_arguments.
  induction entries as [ | kv rest IH ]; intros args j Hnot; [ reflexivity | ].
  cbn [fold_left]. rewrite IH by (intros H; apply Hnot; now right).
  rewrite array_get_set. destruct (Nat.eqb (index (snd kv)) j) eqn:E; [ | reflexivity ].
  apply Nat.eqb_eq in E. exfalso. apply Hnot. now left.
Qed.

Lemma assign_arguments_own (req : IncomingMessage) (params : list (string * JsValue))
  (body : JsValue) (entries : list (string * RouteParamMetadata)) :
  forall args kv,
    NoDup (map (fun kv => index (snd kv)) entries) -> In kv entries ->
    array_get (index (snd kv)) (assign_arguments req params body entries args) =
    argument_for req params body (snd kv).
Proof.
  induction entries as [ | x rest IH ]; intros args kv Hnodup Hin; [ destruct Hin | ].
  inversion Hnodup as [ | ? ? Hx Hrest ]; subst. destruct Hin as [-> | Hin].
  - unfold assign_arguments. cbn [fold_left].
    fold (assign_arguments req params body rest
            (array_set (index (snd kv)) (argument_for req params body (snd kv)) args)).
    rewrite assign_arguments_other by exact Hx.
    now rewrite array_get_set, Nat.eqb_refl.
  - unfold assign_arguments. cbn [fold_left]. now apply IH.
Qed.

Lemma length_assign_arguments (req : IncomingMessage) (params : list (string * JsValue))
  (body : JsValue) (entries : list (string * RouteParamMetadata)) :
  forall args,
    List.length (assign_arguments req params body entries args) =
    Nat.max (list_max (map (fun kv => S (index (snd kv))) entries)) (List.length args).
Proof.
  unfold assign_arguments.
  induction entries as [ | kv rest IH ]; intros args; [ reflexivity | ].
  cbn [fold_left map]. rewrite IH, length_array_set.
  change (list_max (S (index (snd kv)) :: map (fun kv0 => S (index (snd kv0))) rest))
    with (Nat.max (S (index (snd kv))) (list_max (map (fun kv0 => S (index (snd kv0))) rest))).
  lia.
Qed.

Lemma list_max_perm (l1 l2 : list nat) : Permutation l1 l2 -> list_max l1 = list_max l2.
Proof.
  induction 1 as [ | x l l' H IH | x y l | l l' l'' H1 IH1 H2 IH2 ].
  - reflexivity.
  - change (Nat.max x (list_max l) = Nat.max x (list_max l')). now rewrite IH.
  - change (Nat.max y (Nat.max x (list_max l)) = Nat.max x (Nat.max y (list_max l))). lia.
  - congruence.
Qed.

(** The arguments that the resolver builds for a handler whose parameter
    decorators name each position at most once: the array is as long as the
    highest decorated position requires, every decorated position holds the
    value that its decorator asks for, whatever the order of the metadata
    keys, and every position without a decorator holds [undefined].  The
    resolver touches nothing, and it throws only if the request URL does not
    parse.  Where reading a property gives the value of an own property,
    [@Param(name)] for a parameter segment [:name] of the route, [name] other
    than [__proto__], receives the segment of the request path at the same
    position. *)
Theorem resolved_arguments_by_position (controllerClass : ControllerClass U)
  (method : HandlerMethod U) (routePath : string) (req : IncomingMessage) (body : JsValue)
  (pathname : string) (w : World U) :
  URL_pathname req = Some pathname ->
  NoDup (map (fun kv => index (snd kv)) (method_args method)) ->
  exists args,
    createParamsResolver controllerClass method routePath req body w = (Normal args, w) /\
    List.length args = list_max (map (fun kv => S (index (snd kv))) (method_args method)) /\
    (forall key entry,
        In (key, entry) (method_args method) ->
        array_get (index entry) args =
        argument_for req (extractPathParams routePath pathname) body entry) /\
    (forall j, ~ In j (map (fun kv => index (snd kv)) (method_args method)) ->
               array_get j args = JsUndefined) /\
    ((forall fields k v, lookup_field k fields = Some v -> get_property (JsObject fields) k = v) ->
     forall key entry name pre post,
       In (key, entry) (method_args method) ->
       type entry = PARAM -> data entry = Some name ->
       name <> "" -> name <> "__proto__" ->
       split_slash routePath = pre ++ String ":" name :: post ->
       ~ In (String ":" name) post ->
       array_get (index entry) args = part_at (split_slash pathname) (List.length pre)).
Proof.
  intros Hurl Hnodup. unfold createParamsResolver. rewrite Hurl. cbv zeta.
  eexists. split; [ reflexivity | ].
  pose proof (sort_by_index_perm (method_args method)) as Hperm.
  assert (Hown : forall key entry,
             In (key, entry) (method_args method) ->
             array_get (index entry)
               (assign_arguments req (extractPathParams routePath pathname) body
                  (sort_by_index (method_args method)) []) =
             argument_for req (extractPathParams routePath pathname) body entry).
  { intros key entry Hin.
    apply (@assign_arguments_own req (extractPathParams routePath pathname) body
             (sort_by_index (method_args method)) [] (key, entry)).
    - eapply Permutation_NoDup; [ | exact Hnodup ]. now apply Permutation_map.
    - eapply Permutation_in; eassumption. }
  split; [ | split; [ exact Hown | split ] ].
  - rewrite length_assign_arguments. cbn [List.length]. rewrite Nat.max_0_r.
    apply list_max_perm. apply Permutation_map. now apply Permutation_sym.
  - intros j Hnot. rewrite assign_arguments_other.
    + unfold array_get. now destruct j.
    + intros H. apply Hnot. eapply Permutation_in; [ | exact H ].
      apply Permutation_map. now apply Permutation_sym.
  - intros Hread key entry name pre post Hin Htype Hdata Hgiven Hname Hroute Hpost.
    rewrite (Hown key entry Hin). unfold argument_for. rewrite Htype, Hdata.
    unfold data_given. apply String.eqb_neq in Hgiven. rewrite Hgiven.
    apply Hread. unfold extractPathParams. rewrite Hroute.
    now rewrite extractPathParams_loop_last.
Qed.

End ParamsResolver.

(** A reading of properties that looks at own properties only; the keys
    of the sample are not inherited names. *)
Definition own_property (o : JsValue) (k : string) : JsValue :=
  match o with
  | JsObject fields => match lookup_field k fields with
                       | Some v => v
                       | None => JsUndefined
                       end
  | _ => JsUndefined
  end.

Lemma own_property_own (fields : list (string * JsValue)) (k : string) (v : JsValue) :
  lookup_field k fields = Some v -> own_property (JsObject fields) k = v.
Proof. intros H. cbn [own_property]. now rewrite H. Qed.

Lemma resolved_arguments_by_position_witness :
  exists args,
    createParamsResolver (U := Journal) sample_URL_pathname
      (fun _ _ => JsNull) (fun _ => JsObject []) own_property
      (fun _ _ => JsUndefined) (fun _ => JsObject [])
      echo_controller echo_method "/echo/:id"
      (sample_request "GET" "/echo/42" [] "") (JsObject []) empty_world =
    (Normal args, empty_world) /\
    array_get 0 args = JsString "42".
Proof.
  destruct (@resolved_arguments_by_position Journal sample_URL_pathname
              (fun _ _ => JsNull) (fun _ => JsObject []) own_property
              (fun _ _ => JsUndefined) (fun _ => JsObject [])
              echo_controller echo_method "/echo/:id"
              (sample_request "GET" "/echo/42" [] "") (JsObject []) "/echo/42" empty_world
              eq_refl)
    as [args [Hrun [_ [_ [_ Hparam]]]]].
  - repeat constructor. intros [].
  - exists args. split; [ exact Hrun | ].
    apply (Hparam own_property_own
             "5:0" {| index := 0; data := Some "id"; type := PARAM |} "id" [""; "echo"] []);
      [ now left | reflexivity | reflexivity | discriminate | discriminate | reflexivity
      | intros [] ].
Defined.

(* ================================================================== *)
(** * Part VIII. Further properties of the container and the injector  *)
(* ================================================================== *)

(** ** Dependencies that cannot be resolved *)

Lemma run_both_single {A : Type} (t : Task A) :
  forall s,
    run_task (both t (Done [])) s =
    match run_task t s with
    | (Returned a, s') => (Returned [a], s')
    | (Threw e, s') => (Threw e, s')
    | (OutOfFuel, s') => (OutOfFuel, s')
    end.
Proof.
  induction t as [ a | e | | resume IH ] using Task_induction; cbn; intros s;
    try reflexivity.
  specialize (IH s). destruct (resume s) as [s1 t1]. cbn. apply IH.
Qed.

Lemma run_Promise_all_single {A : Type} (call : Async A) (s : NestState) :
  run_async (Promise_all [call]) s =
  match run_async call s with
  | (Returned a, s') => (Returned [a], s')
  | (Threw e, s') => (Threw e, s')
  | (OutOfFuel, s') => (OutOfFuel, s')
  end.
Proof.
  unfold run_async, Promise_all. cbn [start_all]. destruct (call s) as [s1 t].
  cbn [fold_right]. rewrite run_settle_then_resume. apply run_both_single.
Qed.

(** A task in the list has been rejected: the list as a whole is rejected
    or out of fuel, at once. *)
Lemma both_rejected {A : Type} (tasks : list (Task A)) (e : Exception) :
  In (Failed e) tasks ->
  (exists e', fold_right both (Done []) tasks = Failed e') \/
  fold_right both (Done []) tasks = Exhausted.
Proof.
  induction tasks as [ | t tasks IH ]; [ intros [] | ]. cbn [fold_right].
  intros [-> | Hin].
  - left. now exists e.
  - destruct (IH Hin) as [[e' ->] | ->]; destruct t as [ a | e0 | | resume ]; cbn;
      try (left; eexists; reflexivity); try (now right).
Qed.

Lemma start_all_rejected {A : Type} (calls : list (Async A)) (call : Async A) :
  In call calls -> (forall s, exists e, snd (call s) = Failed e) ->
  forall s, exists e, In (Failed e) (snd (start_all calls s)).
Proof.
  intros Hin Hcall. induction calls as [ | c calls IH ]; [ destruct Hin | ].
  intros s. cbn [start_all]. destruct Hin as [-> | Hin].
  - destruct (Hcall s) as [e He]. destruct (call s) as [s1 t]. cbn in He. subst t.
    destruct (start_all calls s1) as [s2 ts]. exists e. now left.
  - destruct (c s) as [s1 t]. destruct (IH Hin s1) as [e He].
    destruct (start_all calls s1) as [s2 ts]. exists e. now right.
Qed.

Lemma in_mapi_from_intro {A B : Type} (f : A -> nat -> B) (l : list A) (x : A) :
  In x l -> forall i, exists j, In (f x j) (mapi_from i f l).
Proof.
  induction l as [ | y l IH ]; [ intros [] | ]. intros [-> | Hin] i.
  - exists i. now left.
  - destruct (IH Hin (S i)) as [j Hj]. exists j. now right.
Qed.

Lemma Promise_all_rejected {A : Type} (calls : list (Async A)) (call : Async A) :
  In call calls -> (forall s, exists e, snd (call s) = Failed e) ->
  forall s, exists s',
    (exists e, run_async (Promise_all calls) s = (Threw e, s')) \/
    run_async (Promise_all calls) s = (OutOfFuel, s').
Proof.
  intros Hin Hcall s. unfold run_async, Promise_all.
  destruct (@start_all_rejected A calls call Hin Hcall s) as [e He].
  destruct (start_all calls s) as [s1 tasks]. cbn [snd] in He. exists s1.
  destruct tasks as [ | t tasks ]; [ destruct He | ].
  destruct (@both_rejected A _ _ He) as [[e' ->] | ->]; cbn.
  - left. now exists e'.
  - now right.
Qed.

(** A constructor parameter whose class is neither provided by the module
    nor visible through its imports: [resolveSingleParam] rejects with the
    error that names the class, and so does [loadProvider] for a class with
    that single parameter; nothing is built and the store is as before. *)
Theorem unresolvable_dependency_rejects (R : Reflection) (s : NestState)
  (rank : string -> nat) (fuel : nat) (moduleRef : string) (dep : Class)
  (wrapper index : nat) :
  acyclic_imports s rank ->
  rank moduleRef < fuel ->
  providers_get s moduleRef dep = None ->
  visible_bindings s fuel moduleRef dep = [] ->
  run_async (resolveSingleParam R fuel (Some dep) moduleRef wrapper index) s =
  (Threw (unresolved_dependency dep), s) /\
  (forall mt,
      wrapper_isResolved s wrapper = false ->
      wrapper_metatype s wrapper = Some mt ->
      getParamtypes R mt = [Some dep] ->
      run_async (loadProvider R (S fuel) wrapper moduleRef) s =
      (Threw (unresolved_dependency dep), s)).
Proof.
  intros Hacyclic Hrank Hget Hvisible.
  assert (Hparam : forall index',
             run_async (resolveSingleParam R fuel (Some dep) moduleRef wrapper index') s =
             (Threw (unresolved_dependency dep), s)).
  { intros index'. unfold resolveSingleParam, resolveSingleParam_with, run_async.
    rewrite Hget.
    change (run_async
              (found <~ await (lookupComponentInImports fuel moduleRef dep) ;;
               match found with
               | Some instanceWrapper =>
                   instance_of_wrapper_with (resolveConstructorParams R fuel) moduleRef
                     instanceWrapper
               | None => async_throw (unresolved_dependency dep)
               end) s = (Threw (unresolved_dependency dep), s)).
    rewrite run_async_bind, run_async_await.
    destruct (@lookup_quiet s rank dep Hacyclic fuel moduleRef s eq_refl Hrank)
      as [Hfst Hquiet].
    unfold run_async at 1.
    destruct (lookupComponentInImports fuel moduleRef dep s) as [s1 t]. cbn in Hfst, Hquiet.
    subst s1. rewrite (@quiet_run _ _ _ s Hquiet), Hvisible. reflexivity. }
  split; [ apply Hparam | ].
  intros mt Hres Hmt Hdeps. unfold loadProvider, loadProvider_with, run_async.
  rewrite Hres.
  change (run_async (await (resolveConstructorParams R (S fuel) wrapper moduleRef) ;;~
                     async_ret tt) s = (Threw (unresolved_dependency dep), s)).
  rewrite run_async_bind, run_async_await. unfold run_async at 1.
  cbn [resolveConstructorParams]. rewrite Hmt, Hdeps.
  change (match
             run_async
               (instances <~ await (Promise_all
                                [resolveSingleParam R fuel (Some dep) moduleRef wrapper 0]) ;;
                (fun s1 =>
                   let (ref, s2) := construct mt instances s1 in
                   (update_wrapper wrapper setResolved
                      (update_wrapper wrapper (set_instance (Some ref)) s2), Done tt))) s
           with
           | (Returned a, s1) => run_async (async_ret tt) s1
           | (Threw e, s1) => (Threw e, s1)
           | (OutOfFuel, s1) => (OutOfFuel, s1)
           end = (Threw (unresolved_dependency dep), s)).
  rewrite run_async_bind, run_async_await, run_Promise_all_single, Hparam. reflexivity.
Qed.

(** A constructor parameter for which the compiler recorded no class:
    [resolveSingleParam] rejects at once with the error that names the
    wrapper and the position, and [loadProvider] for a class with such a
    parameter, at any position, never returns normally. *)
Theorem undefined_parameter_rejects (R : Reflection) (fuel : nat) (s : NestState)
  (wrapper : nat) (moduleRef : string) (mt : Class) :
  wrapper_isResolved s wrapper = false ->
  wrapper_metatype s wrapper = Some mt ->
  In None (getParamtypes R mt) ->
  (forall index,
      run_async (resolveSingleParam R fuel None moduleRef wrapper index) s =
      (Threw (unresolved_parameter (wrapper_name s wrapper) index), s)) /\
  fst (run_async (loadProvider R (S fuel) wrapper moduleRef) s) <> Returned tt.
Proof.
  intros Hres Hmt Hnone. split; [ reflexivity | ].
  unfold loadProvider, loadProvider_with, run_async. rewrite Hres.
  change (fst (run_async (await (resolveConstructorParams R (S fuel) wrapper moduleRef) ;;~
                          async_ret tt) s) <> Returned tt).
  rewrite run_async_bind, run_async_await. unfold run_async at 1.
  cbn [resolveConstructorParams]. rewrite Hmt.
  set (param := fun dependency index =>
                  resolveSingleParam_with (resolveConstructorParams R fuel) fuel dependency
                    moduleRef wrapper index).
  set (k := fun instances : list (option InstanceRef) =>
              fun s1 : NestState =>
                let (ref, s2) := construct mt instances s1 in
                (update_wrapper wrapper setResolved
                   (update_wrapper wrapper (set_instance (Some ref)) s2), Done tt)).
  change (fst match run_async (async_bind (await (Promise_all
                                              (mapi param (getParamtypes R mt)))) k) s with
              | (Returned a, s1) => run_async (async_ret tt) s1
              | (Threw e, s1) => (Threw e, s1)
              | (OutOfFuel, s1) => (OutOfFuel, s1)
              end <> Returned tt).
  rewrite run_async_bind, run_async_await.
  destruct (in_mapi_from_intro param _ _ Hnone 0) as [j Hj].
  destruct (@Promise_all_rejected _ (mapi param (getParamtypes R mt)) (param None j) Hj)
    with (s := s) as [s' [[e Hrun] | Hrun]].
  - intros s0. eexists. reflexivity.
  - rewrite Hrun. cbn. discriminate.
  - rewrite Hrun. cbn. discriminate.
Qed.

(** [AppModule] of the three modules in a row sees no [CatsService]. *)
Lemma unresolvable_dependency_rejects_witness :
  run_async (resolveSingleParam look_through_reflection 10 (Some CatsService) "AppModule" 0 0)
            look_through_scanned =
  (Threw (unresolved_dependency CatsService), look_through_scanned).
Proof.
  assert (Hrank : look_through_rank "AppModule" < 10) by (cbn; lia).
  exact (proj1 (@unresolvable_dependency_rejects look_through_reflection look_through_scanned
                  look_through_rank 10 "AppModule" CatsService 0 0 look_through_acyclic
                  Hrank eq_refl eq_refl)).
Defined.

(** [ServiceB] with a constructor parameter typed by an interface. *)
Definition interface_parameter_reflection : Reflection :=
  {| module_metadata := []; paramtypes := [(ServiceB, [None])] |}.

Lemma undefined_parameter_rejects_witness :
  fst (run_async (loadProvider interface_parameter_reflection 10 ServiceB_binding
                    "DiamondModule") diamond_scanned) <> Returned tt.
Proof.
  exact (proj2 (@undefined_parameter_rejects interface_parameter_reflection 9 diamond_scanned
                  ServiceB_binding "DiamondModule" ServiceB eq_refl eq_refl
                  (or_introl eq_refl))).
Defined.

(** ** Tasks that move the store along a relation *)

(** The reasoning about [advances] above, for any reflexive and transitive
    relation [step] on stores, and with a promise for every one of the tasks
    that [Promise.all] joins. *)
Section Guarantee.

Variable step : NestState -> NestState -> Prop.
Hypothesis step_refl : forall s, step s s.
Hypothesis step_trans : forall s1 s2 s3, step s1 s2 -> step s2 s3 -> step s1 s3.

(** The task keeps its promise [Q] and moves the store by [step] only, as
    long as whatever runs between its resumptions does the same. *)
Fixpoint keeps {A : Type} (Q : A -> NestState -> Prop) (t : Task A) (s : NestState) : Prop :=
  match t with
  | Done a => Q a s
  | Failed _ => True
  | Exhausted => True
  | Suspended resume =>
      forall s1, step s s1 ->
                 step s1 (fst (resume s1)) /\ keeps Q (snd (resume s1)) (fst (resume s1))
  end.

Definition starts {A : Type} (call : Async A) (s : NestState) (Q : A -> NestState -> Prop)
  : Prop :=
  step s (fst (call s)) /\ keeps Q (snd (call s)) (fst (call s)).

Definition steady {A : Type} (Q : A -> NestState -> Prop) : Prop :=
  forall a s s', Q a s -> step s s' -> Q a s'.

Lemma keeps_weaken {A : Type} (Q Q' : A -> NestState -> Prop) (t : Task A) :
  (forall a s, Q a s -> Q' a s) -> forall s, keeps Q t s -> keeps Q' t s.
Proof.
  intros HQ. induction t as [ a | e | | resume IH ] using Task_induction; cbn; auto.
  intros s H s1 Hs1. destruct (H s1 Hs1) as [Hstep Hkeeps]. split; [ exact Hstep | ].
  now apply IH.
Qed.

Lemma keeps_step {A : Type} (Q : A -> NestState -> Prop) (t : Task A) (s s' : NestState) :
  steady Q -> keeps Q t s -> step s s' -> keeps Q t s'.
Proof.
  intros Hsteady. destruct t as [ a | e | | resume ]; cbn; auto.
  - intros HQ Hstep. eapply Hsteady; eassumption.
  - intros H Hstep s1 Hs1. apply H. eapply step_trans; eassumption.
Qed.

Lemma keeps_settle {A : Type} (Q : A -> NestState -> Prop) (t : Task A) :
  steady Q -> forall s, keeps Q t s -> keeps Q (settle_then_resume t) s.
Proof.
  intros Hsteady. induction t as [ a | e | | resume IH ] using Task_induction; cbn.
  - intros s HQ s1 Hs1. split; [ apply step_refl | ]. eapply Hsteady; eassumption.
  - intros s _ s1 Hs1. split; [ apply step_refl | exact I ].
  - auto.
  - intros s H s1 Hs1. destruct (H s1 Hs1) as [Hstep Hkeeps].
    specialize (IH s1). destruct (resume s1) as [s2 t2]. cbn in *.
    split; [ exact Hstep | now apply IH ].
Qed.

Lemma keeps_then {A B : Type} (Q : A -> NestState -> Prop) (Q' : B -> NestState -> Prop)
  (k : A -> Async B) (t : Task A) :
  forall s,
    keeps Q t s ->
    (forall a s1, step s s1 -> Q a s1 -> starts (k a) s1 Q') ->
    step s (fst (then_task t k s)) /\
    keeps Q' (snd (then_task t k s)) (fst (then_task t k s)).
Proof.
  induction t as [ a | e | | resume IH ] using Task_induction; cbn; intros s Ht Hk.
  - apply Hk; [ apply step_refl | exact Ht ].
  - split; [ apply step_refl | exact I ].
  - split; [ apply step_refl | exact I ].
  - split; [ apply step_refl | ]. intros s1 Hs1.
    destruct (Ht s1 Hs1) as [Hstep Hkeeps].
    specialize (IH s1). destruct (resume s1) as [s2 t2]. cbn in *.
    destruct (IH s2 Hkeeps) as [Hstep' Hkeeps'].
    { intros a s3 Hs3 HQ. apply Hk; [ | exact HQ ].
      eapply step_trans; [ exact Hs1 | ]. eapply step_trans; eassumption. }
    split; [ eapply step_trans; eassumption | exact Hkeeps' ].
Qed.

Lemma starts_bind {A B : Type} (Q : A -> NestState -> Prop) (Q' : B -> NestState -> Prop)
  (m : Async A) (k : A -> Async B) (s : NestState) :
  starts m s Q ->
  (forall a s1, step s s1 -> Q a s1 -> starts (k a) s1 Q') ->
  starts (async_bind m k) s Q'.
Proof.
  intros [Hstep Hkeeps] Hk. unfold starts, async_bind.
  destruct (m s) as [s1 t]. cbn in *.
  destruct (@keeps_then A B Q Q' k t s1 Hkeeps) as [Hstep' Hkeeps'].
  { intros a s2 Hs2 HQ. apply Hk; [ | exact HQ ]. eapply step_trans; eassumption. }
  split; [ eapply step_trans; eassumption | exact Hkeeps' ].
Qed.

Lemma starts_await {A : Type} (Q : A -> NestState -> Prop) (call : Async A) (s : NestState) :
  steady Q -> starts call s Q -> starts (await call) s Q.
Proof.
  intros Hsteady [Hstep Hkeeps]. unfold starts, await.
  destruct (call s) as [s1 t]. cbn in *. split; [ exact Hstep | ].
  now apply keeps_settle.
Qed.

Lemma starts_weaken {A : Type} (Q Q' : A -> NestState -> Prop) (call : Async A)
  (s : NestState) :
  (forall a s1, Q a s1 -> Q' a s1) -> starts call s Q -> starts call s Q'.
Proof.
  intros HQ [Hstep Hkeeps]. split; [ exact Hstep | ]. eapply keeps_weaken; eassumption.
Qed.

Lemma starts_ret {A : Type} (Q : A -> NestState -> Prop) (a : A) (s : NestState) :
  Q a s -> starts (async_ret a) s Q.
Proof. intros HQ. split; [ apply step_refl | exact HQ ]. Qed.

(** The promises of the tasks of a list, one for each. *)
Fixpoint all_posts {A : Type} (Qs : list (A -> NestState -> Prop)) (l : list A)
  (s : NestState) : Prop :=
  match Qs, l with
  | [], [] => True
  | Q :: Qs', a :: l' => Q a s /\ all_posts Qs' l' s
  | _, _ => False
  end.

Lemma steady_all_posts {A : Type} (Qs : list (A -> NestState -> Prop)) :
  (forall Q, In Q Qs -> steady Q) -> steady (all_posts Qs).
Proof.
  induction Qs as [ | Q Qs IH ]; intros H l s s'; destruct l as [ | a l ]; cbn; auto.
  intros [Ha Hl] Hstep. split.
  - eapply (H Q (or_introl eq_refl)); eassumption.
  - eapply IH; [ | exact Hl | exact Hstep ]. intros Q' HQ'. apply H. now right.
Qed.

Lemma keeps_both_done {A : Type} (Q : A -> NestState -> Prop)
  (Qs : list (A -> NestState -> Prop)) (a : A) (t2 : Task (list A)) :
  steady Q ->
  forall s, Q a s -> keeps (all_posts Qs) t2 s -> keeps (all_posts (Q :: Qs)) (both (Done a) t2) s.
Proof.
  intros Hsteady.
  induction t2 as [ l | e | | resume IH ] using Task_induction; cbn; auto.
  intros s Ha H s1 Hs1. destruct (H s1 Hs1) as [Hstep Hkeeps].
  specialize (IH s1). destruct (resume s1) as [s2 t2']. cbn in *.
  split; [ exact Hstep | ]. apply IH; [ | exact Hkeeps ].
  eapply Hsteady; [ exact Ha | ]. eapply step_trans; eassumption.
Qed.

Lemma keeps_resume {A : Type} (Q : A -> NestState -> Prop) (t : Task A) (s s1 : NestState) :
  steady Q -> keeps Q t s -> step s s1 ->
  step s1 (fst (resume_task t s1)) /\
  keeps Q (snd (resume_task t s1)) (fst (resume_task t s1)).
Proof.
  intros Hsteady. destruct t as [ a | e | | resume ]; cbn; intros H Hstep;
    try (split; [ apply step_refl | exact I ]).
  - split; [ apply step_refl | eapply Hsteady; eassumption ].
  - now apply H.
Qed.

Lemma keeps_both {A : Type} (Q : A -> NestState -> Prop)
  (Qs : list (A -> NestState -> Prop)) (t1 : Task A) :
  steady Q -> steady (all_posts Qs) ->
  forall (t2 : Task (list A)) s,
    keeps Q t1 s -> keeps (all_posts Qs) t2 s -> keeps (all_posts (Q :: Qs)) (both t1 t2) s.
Proof.
  intros Hsteady Hsteadys.
  induction t1 as [ a | e | | resume IH ] using Task_induction; intros t2 s H1 H2.
  - now apply keeps_both_done.
  - exact I.
  - exact I.
  - assert (Hnext : forall s1, step s s1 ->
              step s1 (fst (let (s1', t1') := resume s1 in
                            let (s2, t2') := resume_task t2 s1' in (s2, both t1' t2'))) /\
              keeps (all_posts (Q :: Qs))
                (snd (let (s1', t1') := resume s1 in
                      let (s2, t2') := resume_task t2 s1' in (s2, both t1' t2')))
                (fst (let (s1', t1') := resume s1 in
                      let (s2, t2') := resume_task t2 s1' in (s2, both t1' t2')))).
    { intros s1 Hs1. cbn in H1. destruct (H1 s1 Hs1) as [Hstep1 Hkeeps1].
      specialize (IH s1). destruct (resume s1) as [s1' t1']. cbn in *.
      destruct (@keeps_resume _ (all_posts Qs) t2 s s1' Hsteadys H2) as [Hstep2 Hkeeps2].
      { eapply step_trans; eassumption. }
      destruct (resume_task t2 s1') as [s2 t2']. cbn in *.
      split; [ eapply step_trans; eassumption | ].
      apply IH; [ | exact Hkeeps2 ].
      eapply keeps_step; [ exact Hsteady | exact Hkeeps1 | exact Hstep2 ]. }
    destruct t2 as [ l | e | | resume2 ]; cbn; auto.
Qed.

Lemma keeps_all {A : Type} (tasks : list (Task A)) (Qs : list (A -> NestState -> Prop))
  (s : NestState) :
  (forall Q, In Q Qs -> steady Q) ->
  Forall2 (fun t Q => keeps Q t s) tasks Qs ->
  keeps (all_posts Qs) (fold_right both (Done []) tasks) s.
Proof.
  intros Hsteady H. induction H as [ | t Q tasks Qs Ht Hrest IH ]; cbn [fold_right].
  - exact I.
  - apply keeps_both.
    + apply Hsteady. now left.
    + apply steady_all_posts. intros Q' HQ'. apply Hsteady. now right.
    + exact Ht.
    + apply IH. intros Q' HQ'. apply Hsteady. now right.
Qed.

Lemma start_all_starts {A : Type} (calls : list (Async A))
  (Qs : list (A -> NestState -> Prop)) :
  (forall Q, In Q Qs -> steady Q) ->
  forall s,
    Forall2 (fun call Q => forall s1, step s s1 -> starts call s1 Q) calls Qs ->
    step s (fst (start_all calls s)) /\
    Forall2 (fun t Q => keeps Q t (fst (start_all calls s))) (snd (start_all calls s)) Qs.
Proof.
  intros Hsteady s H. revert Qs s H Hsteady.
  induction calls as [ | call calls IH ]; intros Qs s H Hsteady;
    inversion H as [ | c Q cs Qs' Hcall Hrest ]; subst; cbn [start_all].
  - split; [ apply step_refl | constructor ].
  - destruct (Hcall s (step_refl s)) as [Hstep1 Hkeeps1].
    destruct (call s) as [s1 t1]. cbn in Hstep1, Hkeeps1.
    destruct (IH Qs' s1) as [Hstep2 Hkeeps2].
    + eapply Forall2_impl; [ | exact Hrest ]. cbn. intros c0 Q0 Hc s2 Hs2.
      apply Hc. eapply step_trans; eassumption.
    + intros Q0 HQ0. apply Hsteady. now right.
    + destruct (start_all calls s1) as [s2 ts]. cbn in *.
      split; [ eapply step_trans; eassumption | ].
      constructor; [ | exact Hkeeps2 ].
      eapply keeps_step; [ apply Hsteady; now left | exact Hkeeps1 | exact Hstep2 ].
Qed.

Lemma Promise_all_starts {A : Type} (calls : list (Async A))
  (Qs : list (A -> NestState -> Prop)) (s : NestState) :
  (forall Q, In Q Qs -> steady Q) ->
  Forall2 (fun call Q => forall s1, step s s1 -> starts call s1 Q) calls Qs ->
  starts (Promise_all calls) s (all_posts Qs).
Proof.
  intros Hsteady H. unfold starts, Promise_all.
  destruct (start_all_starts Hsteady H) as [Hstep Hkeeps].
  destruct (start_all calls s) as [s1 tasks]. cbn in Hstep, Hkeeps.
  destruct tasks as [ | t tasks ]; cbn [fst snd].
  - split; [ exact Hstep | ]. inversion Hkeeps; subst. exact I.
  - split; [ exact Hstep | ].
    apply keeps_settle; [ now apply steady_all_posts | ].
    now apply keeps_all.
Qed.

(** However the task ends, the store has moved by [step]; if it is
    fulfilled, the promise holds. *)
Lemma keeps_run {A : Type} (Q : A -> NestState -> Prop) (t : Task A) :
  forall s,
    keeps Q t s ->
    step s (snd (run_task t s)) /\
    forall a, fst (run_task t s) = Returned a -> Q a (snd (run_task t s)).
Proof.
  induction t as [ a' | e | | resume IH ] using Task_induction; cbn; intros s H.
  - split; [ apply step_refl | ]. intros a Ha. inversion Ha; subst. exact H.
  - split; [ apply step_refl | discriminate ].
  - split; [ apply step_refl | discriminate ].
  - destruct (H s (step_refl s)) as [Hstep Hkeeps].
    specialize (IH s). destruct (resume s) as [s1 t1]. cbn in *.
    destruct (IH s1 Hkeeps) as [Hstep' HQ].
    split; [ eapply step_trans; eassumption | exact HQ ].
Qed.

Lemma starts_run {A : Type} (Q : A -> NestState -> Prop) (call : Async A) (s : NestState) :
  starts call s Q ->
  step s (snd (run_async call s)) /\
  forall a, fst (run_async call s) = Returned a -> Q a (snd (run_async call s)).
Proof.
  intros [Hstep Hkeeps]. unfold run_async. destruct (call s) as [s1 t]. cbn in *.
  destruct (@keeps_run A Q t s1 Hkeeps) as [Hstep' HQ].
  split; [ eapply step_trans; eassumption | exact HQ ].
Qed.

Lemma await_each_starts {A : Type} (call : A -> Async unit) (l : list A)
  (Inv : NestState -> Prop) :
  (forall s s', Inv s -> step s s' -> Inv s') ->
  (forall b s, Inv s -> starts (call b) s (fun _ _ => True)) ->
  forall s, Inv s -> starts (await_each call l) s (fun _ _ => True).
Proof.
  intros HInv Hcall. induction l as [ | x rest IH ]; intros s Hs.
  - now apply starts_ret.
  - cbn [await_each]. apply (starts_bind (Q := fun _ _ => True)).
    + apply starts_await; [ intros a s1 s2 _ _; exact I | now apply Hcall ].
    + intros _ s1 Hs1 _. apply IH. eapply HInv; eassumption.
Qed.

End Guarantee.

(** ** What the constructors are given *)

(** [arg] is an object of the store, of the class [dep]. *)
Definition typed_ref (s : NestState) (dep : option Class) (arg : option InstanceRef) : Prop :=
  exists j obj,
    arg = Some j /\ nth_error (instances s) j = Some obj /\ dep = Some (instance_class obj).

(** The store is well typed: every wrapper has a class, and a resolved
    wrapper holds an object of its class; a binding of a module, of a
    provider or of a controller, is a wrapper of the class it is bound to; and
    every object was built with one argument for each parameter of its
    constructor, an object of the class declared for that parameter. *)
Definition store_typed (R : Reflection) (s : NestState) : Prop :=
  (forall w wr, wrapper_at s w = Some wr ->
     exists c, metatype wr = Some c /\
               (isResolved wr = true -> typed_ref s (Some c) (instance wr))) /\
  (forall tok m c w, In (tok, m) (modules s) ->
                     In (c, w) (providers m) \/ In (c, w) (controllers m) ->
                     wrapper_metatype s w = Some c) /\
  (forall j obj, nth_error (instances s) j = Some obj ->
     Forall2 (typed_ref s) (getParamtypes R (instance_class obj)) (instance_args obj)).

(** The store grows: modules and wrappers stay, with their classes, what is
    resolved stays resolved, and objects are only added. *)
Definition grows (s s' : NestState) : Prop :=
  modules s' = modules s /\
  List.length (wrappers s') = List.length (wrappers s) /\
  (forall w, wrapper_metatype s' w = wrapper_metatype s w) /\
  (forall w, wrapper_isResolved s w = true -> wrapper_isResolved s' w = true) /\
  exists ext, instances s' = instances s ++ ext.

Definition typed_step (R : Reflection) (s s' : NestState) : Prop :=
  store_typed R s -> store_typed R s' /\ grows s s'.

Lemma grows_refl (s : NestState) : grows s s.
Proof. repeat split; auto. exists []. now rewrite app_nil_r. Qed.

Lemma grows_trans (s1 s2 s3 : NestState) : grows s1 s2 -> grows s2 s3 -> grows s1 s3.
Proof.
  intros [Hm1 [Hl1 [Ht1 [Hr1 [e1 He1]]]]] [Hm2 [Hl2 [Ht2 [Hr2 [e2 He2]]]]].
  split; [ congruence | ]. split; [ congruence | ].
  split; [ intros w; now rewrite Ht2 | ]. split; [ auto | ].
  exists (e1 ++ e2). now rewrite He2, He1, app_assoc.
Qed.

Lemma typed_step_refl (R : Reflection) (s : NestState) : typed_step R s s.
Proof. intros H. split; [ exact H | apply grows_refl ]. Qed.

Lemma typed_step_trans (R : Reflection) (s1 s2 s3 : NestState) :
  typed_step R s1 s2 -> typed_step R s2 s3 -> typed_step R s1 s3.
Proof.
  intros H12 H23 H1. destruct (H12 H1) as [H2 G12]. destruct (H23 H2) as [H3 G23].
  split; [ exact H3 | eapply grows_trans; eassumption ].
Qed.

Lemma typed_ref_grows (s s' : NestState) (dep : option Class) (arg : option InstanceRef) :
  typed_ref s dep arg -> grows s s' -> typed_ref s' dep arg.
Proof.
  intros [j [obj [Harg [Hobj Hdep]]]] [_ [_ [_ [_ [ext Hext]]]]].
  exists j, obj. split; [ exact Harg | split; [ | exact Hdep ] ].
  rewrite Hext. rewrite nth_error_app1; [ exact Hobj | ].
  apply nth_error_Some. congruence.
Qed.

Lemma wrapper_at_update (w w' : nat) (f : InstanceWrapper -> InstanceWrapper) (s : NestState) :
  wrapper_at (update_wrapper w f s) w' =
  if Nat.eqb w w' then option_map f (wrapper_at s w') else wrapper_at s w'.
Proof. unfold wrapper_at, update_wrapper. cbn. apply nth_error_list_update. Qed.

Lemma wrapper_metatype_update (w w' : nat) (f : InstanceWrapper -> InstanceWrapper)
  (s : NestState) :
  (forall x, metatype (f x) = metatype x) ->
  wrapper_metatype (update_wrapper w f s) w' = wrapper_metatype s w'.
Proof.
  intros Hf. unfold wrapper_metatype. rewrite wrapper_at_update.
  destruct (Nat.eqb w w'); [ | reflexivity ].
  destruct (wrapper_at s w'); cbn; [ apply Hf | reflexivity ].
Qed.

Lemma nth_error_same_length {V : Type} (l1 l2 : list V) :
  (forall n, nth_error l1 n = nth_error l2 n) -> List.length l1 = List.length l2.
Proof.
  revert l2. induction l1 as [ | x l1 IH ]; intros [ | y l2 ] H; cbn.
  - reflexivity.
  - specialize (H 0). discriminate.
  - specialize (H 0). discriminate.
  - f_equal. apply IH. intros n. exact (H (S n)).
Qed.

(** A store that shows the same wrappers, modules and objects. *)
Lemma store_typed_ext (R : Reflection) (s s' : NestState) :
  (forall w, wrapper_at s' w = wrapper_at s w) ->
  modules s' = modules s -> instances s' = instances s ->
  store_typed R s -> store_typed R s' /\ grows s s'.
Proof.
  intros Hw Hm Hi [T1 [T2 T3]].
  assert (Href : forall dep arg, typed_ref s dep arg -> typed_ref s' dep arg).
  { intros dep arg [j [obj H]]. exists j, obj. now rewrite Hi. }
  split; [ split; [ | split ] | ].
  - intros w wr Hwr. rewrite Hw in Hwr. destruct (T1 w wr Hwr) as [c [Hc Hres]].
    exists c. split; [ exact Hc | ]. intros H. apply Href. now apply Hres.
  - intros tok m c w Hin Hcw. unfold wrapper_metatype. rewrite Hw.
    rewrite Hm in Hin. exact (T2 tok m c w Hin Hcw).
  - intros j obj Hobj. rewrite Hi in Hobj.
    eapply Forall2_impl; [ | exact (T3 j obj Hobj) ]. intros dep arg. apply Href.
  - split; [ exact Hm | ]. split.
    + apply nth_error_same_length. exact Hw.
    + split; [ intros w; unfold wrapper_metatype; now rewrite Hw | ].
      split; [ intros w; unfold wrapper_isResolved; now rewrite Hw | ].
      exists []. now rewrite app_nil_r.
Qed.

(** [wrapper.instance = new metatype(...instances); wrapper.setResolved()]
    with arguments of the declared classes keeps the store well typed. *)
Lemma construct_typed (R : Reflection) (s1 : NestState) (w : nat) (mt : Class)
  (args : list (option InstanceRef)) :
  store_typed R s1 ->
  wrapper_metatype s1 w = Some mt ->
  Forall2 (typed_ref s1) (getParamtypes R mt) args ->
  let s' := update_wrapper w setResolved
              (update_wrapper w (set_instance (Some (List.length (instances s1))))
                 (snd (construct mt args s1))) in
  store_typed R s' /\ grows s1 s' /\ wrapper_isResolved s' w = true.
Proof.
  intros [T1 [T2 T3]] Hmt Hargs s'.
  assert (Hat : forall w',
             wrapper_at s' w' =
             if Nat.eqb w w'
             then option_map (fun x => setResolved
                                         (set_instance (Some (List.length (instances s1))) x))
                             (wrapper_at s1 w')
             else wrapper_at s1 w').
  { intros w'. unfold s'. rewrite !wrapper_at_update.
    destruct (Nat.eqb w w'); [ | reflexivity ].
    unfold wrapper_at. cbn. now destruct (nth_error (wrappers s1) w'). }
  assert (Hinst : instances s' =
                  instances s1 ++ [{| instance_class := mt; instance_args := args |}])
    by reflexivity.
  assert (Hgrows : grows s1 s').
  { split; [ reflexivity | ]. split.
    - unfold s'. cbn. now rewrite !length_list_update.
    - split.
      + intros w'. unfold wrapper_metatype. rewrite Hat.
        destruct (Nat.eqb w w'); [ | reflexivity ]. now destruct (wrapper_at s1 w').
      + split.
        * intros w' Hres. unfold wrapper_isResolved in *. rewrite Hat.
          destruct (Nat.eqb w w'); [ | exact Hres ].
          destruct (wrapper_at s1 w'); [ reflexivity | discriminate ].
        * eexists. exact Hinst. }
  assert (Hnew : typed_ref s' (Some mt) (Some (List.length (instances s1)))).
  { exists (List.length (instances s1)), {| instance_class := mt; instance_args := args |}.
    split; [ reflexivity | split; [ | reflexivity ] ].
    rewrite Hinst, nth_error_app2 by lia. now rewrite Nat.sub_diag. }
  split; [ split; [ | split ] | split; [ exact Hgrows | ] ].
  - intros w' wr' Hwr'. rewrite Hat in Hwr'. destruct (Nat.eqb w w') eqn:E.
    + apply Nat.eqb_eq in E. subst w'. unfold wrapper_metatype in Hmt.
      destruct (wrapper_at s1 w) as [ wr | ]; [ | discriminate ].
      cbn in Hwr'. inversion Hwr'; subst wr'. exists mt. split; [ exact Hmt | ].
      intros _. exact Hnew.
    + destruct (T1 w' wr' Hwr') as [c [Hc Hres]]. exists c. split; [ exact Hc | ].
      intros H. eapply typed_ref_grows; [ now apply Hres | exact Hgrows ].
  - intros tok m c w' Hin Hcw. destruct Hgrows as [_ [_ [Hsame _]]]. rewrite Hsame.
    exact (T2 tok m c w' Hin Hcw).
  - intros j obj Hobj. rewrite Hinst in Hobj.
    destruct (Nat.lt_ge_cases j (List.length (instances s1))) as [Hj | Hj].
    + rewrite nth_error_app1 in Hobj by exact Hj.
      eapply Forall2_impl; [ | exact (T3 j obj Hobj) ].
      intros dep arg H. eapply typed_ref_grows; eassumption.
    + rewrite nth_error_app2 in Hobj by exact Hj.
      destruct (j - List.length (instances s1)) as [ | n ]; cbn in Hobj.
      * inversion Hobj; subst obj. cbn.
        eapply Forall2_impl; [ | exact Hargs ].
        intros dep arg H. eapply typed_ref_grows; eassumption.
      * now destruct n.
  - unfold wrapper_isResolved. rewrite Hat, Nat.eqb_refl.
    unfold wrapper_metatype in Hmt. destruct (wrapper_at s1 w); [ reflexivity | discriminate ].
Qed.

Lemma assoc_string_Some_In {V : Type} (k : string) (l : list (string * V)) (v : V) :
  assoc_string k l = Some v -> In (k, v) l.
Proof.
  induction l as [ | [k' v'] l IH ]; cbn; [ discriminate | ].
  destruct (String.eqb k k') eqn:E.
  - apply String.eqb_eq in E. subst. intros H. inversion H. now left.
  - intros H. right. now apply IH.
Qed.

(** [binding] is the wrapper that some module holds as its provider of
    [dep]. *)
Definition provides (s : NestState) (dep : Class) (binding : nat) : Prop :=
  exists tok m, In (tok, m) (modules s) /\ In (dep, binding) (providers m).

Lemma providers_get_provides (s : NestState) (moduleRef : string) (dep : Class)
  (binding : nat) :
  providers_get s moduleRef dep = Some binding -> provides s dep binding.
Proof.
  unfold providers_get, getModuleByKey.
  destruct (assoc_string moduleRef (modules s)) as [ m | ] eqn:E; [ | discriminate ].
  intros H. exists moduleRef, m. split; [ now apply assoc_string_Some_In | ].
  now apply assoc_class_In.
Qed.

Lemma provides_grows (s s' : NestState) (dep : Class) (binding : nat) :
  provides s dep binding -> grows s s' -> provides s' dep binding.
Proof. intros [tok [m H]] [Hm _]. exists tok, m. now rewrite Hm. Qed.

(** A resolved provider binding holds an object of the class it is bound
    to. *)
Lemma resolved_binding_typed (R : Reflection) (s : NestState) (dep : Class) (binding : nat) :
  store_typed R s -> provides s dep binding ->
  binding < List.length (wrappers s) /\
  (wrapper_isResolved s binding = true ->
   typed_ref s (Some dep) (wrapper_instance s binding)).
Proof.
  intros [T1 [T2 _]] [tok [m [Hm Hb]]]. specialize (T2 tok m dep binding Hm (or_introl Hb)).
  unfold wrapper_metatype, wrapper_isResolved, wrapper_instance in *.
  destruct (wrapper_at s binding) as [ wr | ] eqn:E; [ | discriminate ].
  split.
  - apply nth_error_Some. unfold wrapper_at in E. congruence.
  - destruct (T1 binding wr E) as [c [Hc Hres]]. intros H.
    assert (c = dep) by congruence. subst c. now apply Hres.
Qed.

Section TypedInjector.

Variable R : Reflection.

(** A promise made about a well-typed store. *)
Definition typed_post {A : Type} (P : A -> NestState -> Prop) : A -> NestState -> Prop :=
  fun a s => store_typed R s /\ P a s.

Definition monotone {A : Type} (P : A -> NestState -> Prop) : Prop :=
  forall a s s', P a s -> grows s s' -> P a s'.

Lemma steady_typed_post {A : Type} (P : A -> NestState -> Prop) :
  monotone P -> steady (typed_step R) (typed_post P).
Proof.
  intros Hmono a s s' [Ht HP] Hstep. destruct (Hstep Ht) as [Ht' Hg].
  split; [ exact Ht' | eapply Hmono; eassumption ].
Qed.

Lemma typed_ret {A : Type} (Q : A -> NestState -> Prop) (a : A) (s : NestState) :
  Q a s -> starts (typed_step R) (async_ret a) s Q.
Proof. apply starts_ret. apply typed_step_refl. Qed.

Lemma typed_bind {A B : Type} (Q : A -> NestState -> Prop) (Q' : B -> NestState -> Prop)
  (m : Async A) (k : A -> Async B) (s : NestState) :
  starts (typed_step R) m s Q ->
  (forall a s1, typed_step R s s1 -> Q a s1 -> starts (typed_step R) (k a) s1 Q') ->
  starts (typed_step R) (async_bind m k) s Q'.
Proof. apply starts_bind; [ apply typed_step_refl | apply typed_step_trans ]. Qed.

Lemma typed_await {A : Type} (Q : A -> NestState -> Prop) (call : Async A) (s : NestState) :
  steady (typed_step R) Q -> starts (typed_step R) call s Q ->
  starts (typed_step R) (await call) s Q.
Proof. apply starts_await. apply typed_step_refl. Qed.

Lemma typed_Promise_all {A : Type} (calls : list (Async A))
  (Qs : list (A -> NestState -> Prop)) (s : NestState) :
  (forall Q, In Q Qs -> steady (typed_step R) Q) ->
  Forall2 (fun call Q => forall s1, typed_step R s s1 -> starts (typed_step R) call s1 Q)
          calls Qs ->
  starts (typed_step R) (Promise_all calls) s (all_posts Qs).
Proof. apply Promise_all_starts; [ apply typed_step_refl | apply typed_step_trans ]. Qed.

Lemma typed_await_each {A : Type} (call : A -> Async unit) (l : list A)
  (Inv : NestState -> Prop) :
  (forall s s', Inv s -> typed_step R s s' -> Inv s') ->
  (forall b s, Inv s -> starts (typed_step R) (call b) s (fun _ _ => True)) ->
  forall s, Inv s -> starts (typed_step R) (await_each call l) s (fun _ _ => True).
Proof. apply await_each_starts; [ apply typed_step_refl | apply typed_step_trans ]. Qed.

Definition found_post (dep : Class) : option nat -> NestState -> Prop :=
  fun found s => forall binding, found = Some binding -> provides s dep binding.

Definition argument_post (dep : option Class) : option InstanceRef -> NestState -> Prop :=
  fun arg s => typed_ref s dep arg.

Lemma monotone_found_post (dep : Class) : monotone (found_post dep).
Proof. intros found s s' H Hg binding Hb. eapply provides_grows; [ now apply H | exact Hg ]. Qed.

Lemma monotone_argument_post (dep : option Class) : monotone (argument_post dep).
Proof. intros arg s s' H Hg. eapply typed_ref_grows; eassumption. Qed.

Lemma monotone_resolved (w : nat) : monotone (resolved_if_allocated w).
Proof.
  intros a s s' H [_ [Hlen [_ [Hres _]]]] Hw. apply Hres, H. now rewrite <- Hlen.
Qed.

Lemma typed_after (s s' : NestState) :
  store_typed R s -> typed_step R s s' -> store_typed R s' /\ grows s s'.
Proof. intros Hs Hstep. exact (Hstep Hs). Qed.

Lemma lookup_loop_typed (recurse : string -> Class -> Async (option nat)) (t : Class) :
  (forall moduleRef s,
      store_typed R s ->
      starts (typed_step R) (recurse moduleRef t) s (typed_post (found_post t))) ->
  forall related s,
    store_typed R s ->
    starts (typed_step R) (lookup_loop recurse related t) s (typed_post (found_post t)).
Proof.
  intros Hrec. induction related as [ | relatedModule rest IH ]; intros s Hs.
  - apply typed_ret. split; [ exact Hs | ].
    intros binding H. discriminate.
  - unfold starts. cbn [lookup_loop].
    destruct (negb (module_hasExport s relatedModule t)).
    + apply (typed_bind (Q := typed_post (found_post t))).
      * apply typed_await.
        -- apply steady_typed_post, monotone_found_post.
        -- now apply Hrec.
      * intros [ w | ] s1 _ [Hs1 HQ].
        -- apply typed_ret. now split.
        -- now apply IH.
    + destruct (providers_get s relatedModule t) as [ provider | ] eqn:Hget.
      * split; [ apply typed_step_refl | ]. cbn. split; [ exact Hs | ].
        intros binding H. inversion H; subst. eapply providers_get_provides; eassumption.
      * now apply IH.
Qed.

Lemma lookup_typed (fuel : nat) (t : Class) :
  forall moduleRef s,
    store_typed R s ->
    starts (typed_step R) (lookupComponentInImports fuel moduleRef t) s
      (typed_post (found_post t)).
Proof.
  induction fuel as [ | fuel IH ]; intros moduleRef s Hs.
  - split; [ apply typed_step_refl | exact I ].
  - unfold starts. cbn [lookupComponentInImports].
    now apply lookup_loop_typed.
Qed.

Lemma loadProvider_with_typed (rcp : nat -> string -> Async unit) :
  (forall w m s,
      store_typed R s ->
      starts (typed_step R) (rcp w m) s (typed_post (resolved_if_allocated w))) ->
  forall w m s,
    store_typed R s ->
    starts (typed_step R) (loadProvider_with rcp w m) s
      (typed_post (resolved_if_allocated w)).
Proof.
  intros Hrcp w m s Hs. unfold starts, loadProvider_with.
  destruct (wrapper_isResolved s w) eqn:Hres.
  - split; [ apply typed_step_refl | ]. cbn. split; [ exact Hs | ]. intros _. exact Hres.
  - apply (typed_bind (Q := typed_post (resolved_if_allocated w))).
    + apply typed_await.
      * apply steady_typed_post, monotone_resolved.
      * now apply Hrcp.
    + intros a s1 _ HQ. now apply typed_ret.
Qed.

Lemma instance_of_wrapper_typed (rcp : nat -> string -> Async unit) :
  (forall w m s,
      store_typed R s ->
      starts (typed_step R) (rcp w m) s (typed_post (resolved_if_allocated w))) ->
  forall moduleRef dep binding s,
    store_typed R s -> provides s dep binding ->
    starts (typed_step R) (instance_of_wrapper_with rcp moduleRef binding) s
      (typed_post (argument_post (Some dep))).
Proof.
  intros Hrcp moduleRef dep binding s Hs Hb. unfold starts, instance_of_wrapper_with.
  destruct (wrapper_isResolved s binding) eqn:Hres; cbn [negb].
  - split; [ apply typed_step_refl | ]. cbn. split; [ exact Hs | ].
    now apply (resolved_binding_typed Hs Hb).
  - apply (typed_bind (Q := typed_post (resolved_if_allocated binding))).
    + apply typed_await.
      * apply steady_typed_post, monotone_resolved.
      * now apply loadProvider_with_typed.
    + intros a s1 Hstep [Hs1 HQ]. split; [ apply typed_step_refl | ]. cbn.
      split; [ exact Hs1 | ].
      destruct (typed_after Hs Hstep) as [_ Hg].
      pose proof (provides_grows Hb Hg) as Hb1.
      destruct (resolved_binding_typed Hs1 Hb1) as [Halloc Htyped].
      apply Htyped. now apply HQ.
Qed.

Lemma resolveSingleParam_with_typed (rcp : nat -> string -> Async unit) (fuel : nat) :
  (forall w m s,
      store_typed R s ->
      starts (typed_step R) (rcp w m) s (typed_post (resolved_if_allocated w))) ->
  forall dependency moduleRef wrapper index s,
    store_typed R s ->
    starts (typed_step R)
      (resolveSingleParam_with rcp fuel dependency moduleRef wrapper index) s
      (typed_post (argument_post dependency)).
Proof.
  intros Hrcp dependency moduleRef wrapper index s Hs.
  unfold resolveSingleParam_with.
  destruct dependency as [ dep | ]; [ | split; [ apply typed_step_refl | exact I ] ].
  unfold starts.
  destruct (providers_get s moduleRef dep) as [ binding | ] eqn:Hget.
  - apply instance_of_wrapper_typed; [ exact Hrcp | exact Hs | ].
    eapply providers_get_provides; eassumption.
  - apply (typed_bind (Q := typed_post (found_post dep))).
    + apply typed_await.
      * apply steady_typed_post, monotone_found_post.
      * now apply lookup_typed.
    + intros [ binding | ] s1 _ [Hs1 HQ].
      * apply instance_of_wrapper_typed; [ exact Hrcp | exact Hs1 | now apply HQ ].
      * split; [ apply typed_step_refl | exact I ].
Qed.

Lemma Forall2_mapi_from {A B C : Type} (P : B -> C -> Prop) (f : A -> nat -> B) (g : A -> C)
  (l : list A) :
  (forall x i, P (f x i) (g x)) -> forall i, Forall2 P (mapi_from i f l) (map g l).
Proof.
  intros H. induction l as [ | x l IH ]; intros i; cbn; constructor; auto.
Qed.

Lemma all_posts_arguments (deps : list (option Class)) :
  forall args s,
    all_posts (map (fun dep => typed_post (argument_post dep)) deps) args s ->
    Forall2 (typed_ref s) deps args.
Proof.
  induction deps as [ | dep deps IH ]; intros [ | arg args ] s; cbn; try contradiction.
  - constructor.
  - intros [[_ Harg] Hrest]. constructor; [ exact Harg | now apply IH ].
Qed.

Lemma resolveConstructorParams_typed (fuel : nat) :
  forall w m s,
    store_typed R s ->
    starts (typed_step R) (resolveConstructorParams R fuel w m) s
      (typed_post (resolved_if_allocated w)).
Proof.
  induction fuel as [ | fuel IH ]; intros w m s Hs.
  - split; [ apply typed_step_refl | exact I ].
  - unfold starts. cbn [resolveConstructorParams].
    destruct (wrapper_metatype s w) as [ mt | ] eqn:Hmt.
    + apply (typed_bind (Q := all_posts (map (fun dep => typed_post (argument_post dep))
                                    (getParamtypes R mt)))).
      * assert (Hsteady : forall Q,
                   In Q (map (fun dep => typed_post (argument_post dep))
                             (getParamtypes R mt)) ->
                   steady (typed_step R) Q).
        { intros Q HQ. apply in_map_iff in HQ. destruct HQ as [dep [<- _]].
          apply steady_typed_post, monotone_argument_post. }
        apply typed_await.
        -- now apply steady_all_posts.
        -- apply typed_Promise_all;
             [ exact Hsteady | ].
           apply Forall2_mapi_from. intros dependency index s1 Hstep.
           apply resolveSingleParam_with_typed; [ exact IH | ].
           now apply (typed_after Hs Hstep).
      * intros args s1 Hstep Hargs.
        destruct (typed_after Hs Hstep) as [Hs1 [_ [_ [Hsame _]]]].
        assert (Hmt1 : wrapper_metatype s1 w = Some mt) by (now rewrite Hsame).
        destruct (@construct_typed R s1 w mt args Hs1 Hmt1
                    (@all_posts_arguments (getParamtypes R mt) args s1 Hargs))
          as [Hs' [Hg Hres]].
        unfold starts. cbn [construct fst snd] in *.
        split; [ intros _; now split | ].
        split; [ exact Hs' | ]. intros _. exact Hres.
    + assert (Hnone : wrapper_at s w = None).
      { destruct Hs as [T1 _]. unfold wrapper_metatype in Hmt.
        destruct (wrapper_at s w) as [ wr | ] eqn:E; [ | reflexivity ].
        destruct (T1 w wr E) as [c [Hc _]]. congruence. }
      assert (Hsame : forall w', wrapper_at (update_wrapper w setResolved s) w' =
                                 wrapper_at s w').
      { intros w'. rewrite wrapper_at_update. destruct (Nat.eqb w w') eqn:E; [ | reflexivity ].
        apply Nat.eqb_eq in E. subst w'. now rewrite Hnone. }
      destruct (@store_typed_ext R s (update_wrapper w setResolved s) Hsame
                  eq_refl eq_refl Hs) as [Hs' Hg].
      cbn [fst snd]. split; [ intros _; now split | ].
      split; [ exact Hs' | ]. intros Hw. exfalso.
      apply nth_error_Some in Hw. apply Hw. fold (wrapper_at (update_wrapper w setResolved s) w).
      now rewrite Hsame.
Qed.

Lemma loadProvider_typed (fuel : nat) (w : nat) (m : string) (s : NestState) :
  store_typed R s ->
  starts (typed_step R) (loadProvider R fuel w m) s (fun _ _ => True).
Proof.
  intros Hs. eapply starts_weaken;
    [ | apply loadProvider_with_typed; [ apply resolveConstructorParams_typed | exact Hs ] ].
  intros; exact I.
Qed.

Lemma createInstances_typed (fuel : nat) (s : NestState) :
  store_typed R s -> starts (typed_step R) (createInstances R fuel) s (fun _ _ => True).
Proof.
  intros Hs. unfold starts, createInstances. cbv zeta.
  assert (Hpass : forall (l : list (nat * string)) s1,
             store_typed R s1 ->
             starts (typed_step R)
               (await_each (fun b => loadProvider R fuel (fst b) (snd b)) l) s1
               (fun _ _ => True)).
  { intros l s1 Hs1.
    apply typed_await_each with
      (Inv := store_typed R); [ | | exact Hs1 ].
    - intros s2 s3 H2 Hstep. now apply (typed_after H2 Hstep).
    - intros b s2 H2. now apply loadProvider_typed. }
  apply (typed_bind (Q := fun _ _ => True)).
  - now apply Hpass.
  - intros _ s1 Hstep _. apply Hpass. now apply (typed_after Hs Hstep).
Qed.

End TypedInjector.

(** ** What the scanner leaves for the injector *)

(** A property of the store that the five mutations of the container keep
    is kept by the scanner, however the scan ends. *)
Section ScannerKeeps.

Variable Inv : NestState -> Prop.
Hypothesis Inv_addModule :
  forall metatype scope s, Inv s -> Inv (snd (addModule metatype scope s)).
Hypothesis Inv_addProvider : forall tok provider s, Inv s -> Inv (Module_addProvider tok provider s).
Hypothesis Inv_addController :
  forall tok controller s, Inv s -> Inv (Module_addController tok controller s).
Hypothesis Inv_addImport : forall tok related s, Inv s -> Inv (Module_addImport tok related s).
Hypothesis Inv_addExport : forall tok exportToken s, Inv s -> Inv (Module_addExport tok exportToken s).

Lemma scanForModules_keeps (R : Reflection) (fuel : nat) :
  forall module scope registry s registry' s',
    Inv s -> scanForModules R fuel module scope registry s = Some (registry', s') -> Inv s'.
Proof.
  induction fuel as [ | fuel IH ]; intros module scope registry s registry' s' Hs;
    cbn [scanForModules]; [ discriminate | ].
  destruct (existsb (Class_eqb module) registry).
  - intros H. inversion H; subst. exact Hs.
  - pose proof (Inv_addModule module scope Hs) as H1. revert H1.
    generalize (snd (addModule module scope s)) (registry ++ [module]).
    generalize (md_imports (getModuleMetadata R module)).
    intros l. induction l as [ | x l IHl ]; intros s1 reg H1; cbn [fold_left].
    + intros H. inversion H; subst. exact H1.
    + destruct (scanForModules R fuel x (scope ++ [module]) reg s1) as [[reg2 s2] | ] eqn:E.
      * apply IHl. eapply IH; eassumption.
      * intros H. exfalso. clear - H. induction l as [ | y l IHl' ]; cbn in H;
          [ discriminate | auto ].
Qed.

Definition action_keeps (m : Action NestState unit) : Prop :=
  forall s, Inv s -> Inv (snd (m s)).

Lemma action_keeps_bind (m : Action NestState unit) (k : unit -> Action NestState unit) :
  action_keeps m -> (forall a, action_keeps (k a)) -> action_keeps (bind m k).
Proof.
  intros Hm Hk s Hs. unfold bind. specialize (Hm s Hs).
  destruct (m s) as [[a | e] s1]; cbn in *; [ now apply Hk | exact Hm ].
Qed.

Lemma action_keeps_for_each {A : Type} (f : A -> Action NestState unit) (l : list A) :
  (forall x, action_keeps (f x)) -> action_keeps (for_each f l).
Proof.
  intros Hf. induction l as [ | x l IH ]; cbn [for_each].
  - intros s Hs. exact Hs.
  - apply action_keeps_bind; [ apply Hf | intros _; exact IH ].
Qed.

Lemma scanModulesForDependencies_action_keeps (R : Reflection) :
  action_keeps (scanModulesForDependencies R).
Proof.
  intros s Hs. unfold scanModulesForDependencies.
  apply action_keeps_for_each; [ | exact Hs ].
  intros [tok m]. cbn [fst snd].
  unfold reflectImports, reflectProviders, reflectControllers, reflectExports.
  repeat (apply action_keeps_bind; [ | intros _ ]);
    apply action_keeps_for_each; intros x s1 Hs1.
  - unfold addImport. destruct (getModuleByKey s1 tok); cbn; [ | exact Hs1 ].
    destruct (getModuleByKey s1 (class_name x)); cbn; [ now apply Inv_addImport | exact Hs1 ].
  - unfold addProvider. destruct (getModuleByKey s1 tok); cbn;
      [ now apply Inv_addProvider | exact Hs1 ].
  - unfold addController. destruct (getModuleByKey s1 tok); cbn;
      [ now apply Inv_addController | exact Hs1 ].
  - unfold addExport. destruct (getModuleByKey s1 tok); cbn;
      [ now apply Inv_addExport | exact Hs1 ].
Qed.

Lemma bindGlobalScope_keeps (s : NestState) : Inv s -> Inv (bindGlobalScope s).
Proof.
  unfold bindGlobalScope. generalize (globalModules s) as globals.
  generalize (map fst (modules s)) as toks. intros toks globals. revert s.
  induction toks as [ | tok toks IH ]; intros s Hs; cbn [fold_left]; [ exact Hs | ].
  apply IH. clear IH. revert s Hs.
  induction globals as [ | g globals IHg ]; intros s Hs; cbn [fold_left]; [ exact Hs | ].
  apply IHg. destruct (negb (String.eqb tok g)); [ | exact Hs ].
  now apply Inv_addImport.
Qed.

Lemma scan_keeps (R : Reflection) (fuel : nat) (module : Class) (s : NestState) :
  Inv s -> Inv (snd (scan R fuel module s)).
Proof.
  intros Hs. unfold scan.
  destruct (scanForModules R fuel module [] [] s) as [[reg s1] | ] eqn:E; [ | exact Hs ].
  pose proof (scanForModules_keeps _ _ _ _ _ Hs E) as H1.
  pose proof (scanModulesForDependencies_action_keeps R H1) as H2.
  destruct (scanModulesForDependencies R s1) as [[a | e] s2]; cbn in *;
    [ now apply bindGlobalScope_keeps | exact H2 ].
Qed.

End ScannerKeeps.

(** The store as the scanner leaves it: nothing is built or resolved,
    every wrapper has a class, and every binding of a module is a wrapper of
    the class it is bound to. *)
Definition fresh_store (s : NestState) : Prop :=
  instances s = [] /\
  (forall w wr, wrapper_at s w = Some wr ->
                isResolved wr = false /\ exists c, metatype wr = Some c) /\
  (forall tok m c w, In (tok, m) (modules s) ->
                     In (c, w) (providers m) \/ In (c, w) (controllers m) ->
                     wrapper_metatype s w = Some c).

Lemma fresh_store_new : fresh_store new_NestContainer.
Proof.
  split; [ reflexivity | split ].
  - intros w wr H. unfold wrapper_at in H. cbn in H. now destruct w.
  - intros tok m c w [].
Qed.

Lemma fresh_store_modules (s : NestState) (f : Module -> Module) (tok : string) :
  (forall m, providers (f m) = providers m /\ controllers (f m) = controllers m) ->
  fresh_store s -> fresh_store (update_module tok f s).
Proof.
  intros Hf [F1 [F2 F3]]. split; [ exact F1 | split; [ exact F2 | ] ].
  intros tok' m' c w Hin Hcw. apply in_update_module in Hin.
  destruct Hin as [m0 [Hin [-> | ->]]].
  - exact (F3 tok' m0 c w Hin Hcw).
  - destruct (Hf m0) as [Hp Hc]. rewrite Hp, Hc in Hcw. exact (F3 tok' m0 c w Hin Hcw).
Qed.

Lemma fresh_store_addModule (metatype : Class) (scope : list Class) (s : NestState) :
  fresh_store s -> fresh_store (snd (addModule metatype scope s)).
Proof.
  intros H. unfold addModule.
  destruct (getModuleByKey s (class_name metatype)); [ exact H | ].
  destruct H as [F1 [F2 F3]]. split; [ exact F1 | split; [ exact F2 | ] ]. cbn.
  intros tok m c w Hin Hcw. apply in_map_set_string in Hin.
  destruct Hin as [Heq | Hin]; [ | exact (F3 tok m c w Hin Hcw) ].
  inversion Heq; subst. cbn in Hcw. destruct Hcw as [[] | []].
Qed.

Lemma wrapper_at_new (s : NestState) (wrapper : InstanceWrapper) (w : nat) :
  wrapper_at (with_wrappers (wrappers s ++ [wrapper]) s) w =
  if w <? List.length (wrappers s) then wrapper_at s w
  else if Nat.eqb w (List.length (wrappers s)) then Some wrapper else None.
Proof.
  unfold wrapper_at, with_wrappers. cbn [wrappers].
  destruct (w <? List.length (wrappers s)) eqn:E.
  - apply Nat.ltb_lt in E. now rewrite nth_error_app1.
  - apply Nat.ltb_ge in E. rewrite nth_error_app2 by exact E.
    destruct (Nat.eqb w (List.length (wrappers s))) eqn:E'.
    + apply Nat.eqb_eq in E'. subst w. now rewrite Nat.sub_diag.
    + apply Nat.eqb_neq in E'.
      destruct (w - List.length (wrappers s)) as [ | n ] eqn:En; [ lia | ].
      cbn. now destruct n.
Qed.

(** A binding added with a new wrapper, to the providers or to the
    controllers of a module. *)
Lemma fresh_store_new_binding (s : NestState) (tok : string) (cl : Class)
  (f : Module -> Module) :
  (forall m c w,
      In (c, w) (providers (f m)) \/ In (c, w) (controllers (f m)) ->
      (c, w) = (cl, List.length (wrappers s)) \/
      In (c, w) (providers m) \/ In (c, w) (controllers m)) ->
  fresh_store s ->
  fresh_store
    (update_module tok f
       (with_wrappers
          (wrappers s ++ [new_InstanceWrapper (class_name cl) cl (Some cl) (Some tok)]) s)).
Proof.
  intros Hf [F1 [F2 F3]].
  set (wrapper := new_InstanceWrapper (class_name cl) cl (Some cl) (Some tok)).
  assert (Hat : forall w, wrapper_at (update_module tok f
                                        (with_wrappers (wrappers s ++ [wrapper]) s)) w =
                          wrapper_at (with_wrappers (wrappers s ++ [wrapper]) s) w)
    by reflexivity.
  assert (Hold : forall c w, wrapper_metatype s w = Some c ->
                             wrapper_metatype
                               (update_module tok f
                                  (with_wrappers (wrappers s ++ [wrapper]) s)) w = Some c).
  { intros c w H. unfold wrapper_metatype in *. rewrite Hat, wrapper_at_new.
    destruct (w <? List.length (wrappers s)) eqn:E; [ exact H | ].
    apply Nat.ltb_ge in E. unfold wrapper_at in H.
    destruct (nth_error (wrappers s) w) eqn:En; [ | discriminate ].
    assert (w < List.length (wrappers s)) by (apply nth_error_Some; congruence). lia. }
  split; [ exact F1 | split ].
  - intros w wr Hwr. rewrite Hat, wrapper_at_new in Hwr.
    destruct (w <? List.length (wrappers s)); [ now apply (F2 w) | ].
    destruct (Nat.eqb w (List.length (wrappers s))); [ | discriminate ].
    inversion Hwr; subst wr. split; [ reflexivity | now exists cl ].
  - intros tok' m' c w Hin Hcw. apply in_update_module in Hin.
    destruct Hin as [m0 [Hin [-> | ->]]].
    + apply Hold. exact (F3 tok' m0 c w Hin Hcw).
    + destruct (Hf m0 c w Hcw) as [Heq | Hcw0].
      * inversion Heq; subst. unfold wrapper_metatype. rewrite Hat, wrapper_at_new.
        rewrite Nat.ltb_irrefl, Nat.eqb_refl. reflexivity.
      * apply Hold. exact (F3 tok' m0 c w Hin Hcw0).
Qed.

Lemma fresh_store_scan (R : Reflection) (fuel : nat) (module : Class) :
  fresh_store (snd (scan R fuel module new_NestContainer)).
Proof.
  apply scan_keeps with (Inv := fresh_store); [ | | | | | apply fresh_store_new ].
  - apply fresh_store_addModule.
  - intros tok provider s Hs. unfold Module_addProvider.
    apply fresh_store_new_binding; [ | exact Hs ]. cbn.
    intros m c w [Hp | Hc]; [ | now (right; right) ].
    apply in_map_set_class in Hp. destruct Hp as [Heq | Hp]; [ now left | right; now left ].
  - intros tok controller s Hs. unfold Module_addController.
    apply fresh_store_new_binding; [ | exact Hs ]. cbn.
    intros m c w [Hp | Hc]; [ right; now left | ].
    apply in_map_set_class in Hc. destruct Hc as [Heq | Hc]; [ now left | now (right; right) ].
  - intros tok related s Hs. unfold Module_addImport.
    apply fresh_store_modules; [ | exact Hs ]. intros m. now split.
  - intros tok exportToken s Hs. unfold Module_addExport.
    apply fresh_store_modules; [ | exact Hs ]. intros m. now split.
Qed.

Lemma fresh_store_typed (R : Reflection) (s : NestState) : fresh_store s -> store_typed R s.
Proof.
  intros [F1 [F2 F3]]. split; [ | split ].
  - intros w wr Hwr. destruct (F2 w wr Hwr) as [Hres [c Hc]]. exists c.
    split; [ exact Hc | ]. intros H. congruence.
  - intros tok m c w Hin Hcw. exact (F3 tok m c w Hin Hcw).
  - intros j obj Hobj. rewrite F1 in Hobj. now destruct j.
Qed.

(** ** The objects that bootstrap builds *)

(** Injection is type-correct.  From a well-typed store, and the store
    that the scanner leaves is one, a [createInstances] and a [loadProvider]
    that return leave a well-typed store: every object that was built got, in
    the order of the constructor parameters, objects of exactly the classes
    that [design:paramtypes] declares, and every resolved binding holds an
    object of the class it is bound to.  Modules and wrappers stay, and
    objects are only added.  The statement is about the calls that return:
    after a rejection, calls that were started side by side run on, and the
    store that they leave is not followed. *)
Theorem injection_is_type_correct (R : Reflection) (fuel : nat) (s : NestState) :
  store_typed R s ->
  (forall s', run_async (createInstances R fuel) s = (Returned tt, s') ->
              store_typed R s' /\ grows s s') /\
  (forall w m s', run_async (loadProvider R fuel w m) s = (Returned tt, s') ->
                  store_typed R s' /\ grows s s') /\
  (forall root, store_typed R (snd (scan R fuel root new_NestContainer))).
Proof.
  intros Hs. split; [ | split ].
  - intros s' Hrun.
    destruct (starts_run (@typed_step_refl R) (@typed_step_trans R)
                (createInstances_typed fuel Hs)) as [Hstep _].
    rewrite Hrun in Hstep. exact (Hstep Hs).
  - intros w m s' Hrun.
    destruct (starts_run (@typed_step_refl R) (@typed_step_trans R)
                (loadProvider_typed fuel w m Hs)) as [Hstep _].
    rewrite Hrun in Hstep. exact (Hstep Hs).
  - intros root. apply fresh_store_typed, fresh_store_scan.
Qed.

(** The diamond, in which [createInstances] returns and [ServiceB] is
    built twice: all four objects got arguments of the declared classes. *)
Lemma injection_is_type_correct_witness :
  exists s',
    run_async (createInstances diamond_reflection 10) diamond_scanned = (Returned tt, s') /\
    List.length (instances s') = 4 /\
    store_typed diamond_reflection s' /\ grows diamond_scanned s'.
Proof.
  exists (snd (run_async (createInstances diamond_reflection 10) diamond_scanned)).
  assert (Hrun : run_async (createInstances diamond_reflection 10) diamond_scanned =
                 (Returned tt,
                  snd (run_async (createInstances diamond_reflection 10) diamond_scanned))).
  { vm_compute. reflexivity. }
  split; [ exact Hrun | ]. split; [ vm_compute; reflexivity | ].
  exact (proj1 (@injection_is_type_correct diamond_reflection 10 diamond_scanned
                  (fresh_store_typed diamond_reflection
                     (fresh_store_scan diamond_reflection 10 DiamondModule)))
               _ Hrun).
Defined.

(** ** [MiniNestApplication.get] *)

(** The [for (const [, moduleRef] of this.container.getModules())] loop. *)
Fixpoint get_loop (s : NestState) (ms : list (string * Module)) (token : Class)
  : option InstanceRef :=
  match ms with
  | [] => None
  | (_, moduleRef) :: rest =>
      match assoc_class token (providers moduleRef) with
      | Some wrapper =>
          match wrapper_instance s wrapper with
          | Some i => Some i
          | None => get_loop s rest token
          end
      | None => get_loop s rest token
      end
  end.

Definition MiniNestApplication_get {U : Type} (app : MiniNestApplication U) (token : Class)
  : option InstanceRef :=
  get_loop (app_container app) (modules (app_container app)) token.

Lemma assoc_class_bound {V : Type} (k : Class) (v : V) (l : list (Class * V)) :
  In (k, v) l -> exists v', assoc_class k l = Some v'.
Proof.
  induction l as [ | [k' v'] l IH ]; [ intros [] | ]. cbn.
  destruct (Class_eqb k k') eqn:E; [ intros _; now exists v' | ].
  intros [Heq | Hin]; [ | now apply IH ].
  inversion Heq; subst. now rewrite Class_eqb_refl in E.
Qed.

(** Every provider binding is resolved when [createInstances] returns. *)
Lemma createInstances_resolves (R : Reflection) (fuel : nat) (s s' : NestState) :
  bindings_allocated s ->
  run_async (createInstances R fuel) s = (Returned tt, s') ->
  forall tok m c w,
    In (tok, m) (modules s') -> In (c, w) (providers m) -> wrapper_isResolved s' w = true.
Proof.
  intros Halloc Hrun.
  set (sortedModules := sort_by_distance (map snd (modules s))).
  change (run_async (createInstances R fuel) s)
    with (run_async
            (async_bind
               (await_each (fun b => loadProvider R fuel (fst b) (snd b))
                           (provider_bindings sortedModules))
               (fun _ => await_each (fun b => loadController R fuel (fst b) (snd b))
                                    (controller_bindings sortedModules))) s) in Hrun.
  rewrite run_async_bind in Hrun.
  destruct (run_async (await_each (fun b => loadProvider R fuel (fst b) (snd b))
                                  (provider_bindings sortedModules)) s)
    as [[[] | e | ] smid] eqn:Hpass1; try discriminate.
  destruct (establishes_run (load_pass_establishes R fuel _ s) Hpass1) as [Hpost1 Hadv1].
  destruct (establishes_run (load_pass_establishes R fuel _ smid) Hrun) as [_ Hadv2].
  destruct Hadv1 as [Hmod1 [Hlen1 Hres1]]. destruct Hadv2 as [Hmod2 [Hlen2 Hres2]].
  intros tok m c w Hm Hw. rewrite Hmod2, Hmod1 in Hm. apply Hres2.
  apply (Hpost1 (w, module_token m)).
  - eapply in_provider_bindings; eassumption.
  - cbn. rewrite Hlen1. eapply Halloc; [ exact Hm | left; exact Hw ].
Qed.

Lemma get_loop_typed (R : Reflection) (s : NestState) (c : Class) :
  store_typed R s ->
  (forall tok m w, In (tok, m) (modules s) -> In (c, w) (providers m) ->
                   wrapper_isResolved s w = true) ->
  forall ms,
    incl ms (modules s) ->
    (exists tok m w, In (tok, m) ms /\ In (c, w) (providers m)) ->
    typed_ref s (Some c) (get_loop s ms c).
Proof.
  intros Hs Hres ms. induction ms as [ | [tok0 m0] rest IH ]; intros Hincl Hex.
  - destruct Hex as [tok [m [w [[] _]]]].
  - cbn [get_loop].
    destruct (assoc_class c (providers m0)) as [ w0 | ] eqn:E.
    + apply assoc_class_In in E.
      assert (Hm0 : In (tok0, m0) (modules s)) by (apply Hincl; now left).
      assert (Hb : provides s c w0) by (now exists tok0, m0).
      destruct (resolved_binding_typed Hs Hb) as [_ Htyped].
      specialize (Htyped (Hres tok0 m0 w0 Hm0 E)).
      destruct Htyped as [j [obj [Hj Hobj]]]. rewrite Hj. now exists j, obj.
    + apply IH.
      * intros x Hx. apply Hincl. now right.
      * destruct Hex as [tok [m [w [[Heq | Hin] Hw]]]]; [ | now exists tok, m, w ].
        inversion Heq; subst. destruct (assoc_class_bound _ _ _ Hw) as [v Hv]. congruence.
Qed.

Lemma get_loop_none (s : NestState) (c : Class) (ms : list (string * Module)) :
  (forall tok m, In (tok, m) ms -> assoc_class c (providers m) = None) ->
  get_loop s ms c = None.
Proof.
  induction ms as [ | [tok0 m0] rest IH ]; intros H; [ reflexivity | ].
  cbn [get_loop]. rewrite (H tok0 m0 (or_introl eq_refl)).
  apply IH. intros tok m Hin. apply (H tok m). now right.
Qed.

Section ApplicationGet.

Variable U : Type.
Variable controller_class : Class -> ControllerClass U.
Variable createParamsResolver :
  ControllerClass U -> HandlerMethod U -> string -> IncomingMessage -> JsValue ->
  Action (World U) (list JsValue).
Variable createBodyParser : IncomingMessage -> Action (World U) JsValue.

(** Once [MiniNestFactory.create] has returned the application,
    [app.get(token)] returns an object of the class [token] for every class
    that some module of the container provides, and [undefined] for a class
    that no module provides. *)
Theorem application_get_returns_provider (R : Reflection) (fuel : nat) (root : Class)
  (app : MiniNestApplication U) :
  MiniNestFactory_create controller_class createParamsResolver createBodyParser R fuel root =
  Returned app ->
  (forall tok m c w,
      In (tok, m) (modules (app_container app)) -> In (c, w) (providers m) ->
      typed_ref (app_container app) (Some c) (MiniNestApplication_get app c)) /\
  (forall c,
      (forall tok m, In (tok, m) (modules (app_container app)) ->
                     assoc_class c (providers m) = None) ->
      MiniNestApplication_get app c = None).
Proof.
  unfold MiniNestFactory_create.
  destruct (scan R fuel root new_NestContainer) as [[[] | e | ] s1] eqn:Hscan;
    try discriminate.
  destruct (run_async (createInstances R fuel) s1) as [[[] | e | ] s2] eqn:Hrun;
    try discriminate.
  intros Happ. inversion Happ; subst app; clear Happ.
  unfold MiniNestApplication_get. cbn [app_container].
  pose proof (scan_allocated _ _ _ new_NestContainer_allocated Hscan) as Halloc.
  assert (Hs1 : store_typed R s1).
  { change s1 with (snd (Returned tt, s1)). rewrite <- Hscan.
    apply fresh_store_typed, fresh_store_scan. }
  assert (Hs2 : store_typed R s2).
  { destruct (starts_run (@typed_step_refl R) (@typed_step_trans R)
                (createInstances_typed fuel Hs1)) as [Hstep _].
    rewrite Hrun in Hstep. exact (proj1 (Hstep Hs1)). }
  pose proof (createInstances_resolves R fuel Halloc Hrun) as Hres.
  split.
  - intros tok m c w Hm Hw. apply (get_loop_typed (R := R)); [ exact Hs2 | | | ].
    + intros tok' m' w' Hm' Hw'. eapply Hres; eassumption.
    + apply incl_refl.
    + now exists tok, m, w.
  - intros c Hnone. now apply get_loop_none.
Qed.

End ApplicationGet.

Lemma application_get_returns_provider_witness :
  exists app,
    cats_application = Returned app /\
    typed_ref (app_container app) (Some CatsService) (MiniNestApplication_get app CatsService).
Proof.
  assert (H : exists app, cats_application = Returned app /\
                          In ("CatsModule",
                              {| module_token := "CatsModule"; module_metatype := CatsModule;
                                 providers := [(CatsService, 0)];
                                 controllers := [(CatsController, 1)];
                                 imports := []; exports := [CatsService]; distance := 1 |})
                             (modules (app_container app))).
  { eexists. split; [ vm_compute; reflexivity | ]. right. left. reflexivity. }
  destruct H as [app [Happ Hin]]. exists app. split; [ exact Happ | ].
  exact (proj1 (@application_get_returns_provider Journal cats_controller_class
                  sample_createParamsResolver sample_parseBody cats_reflection 10
                  CatsAppModule app Happ)
               "CatsModule" _ CatsService 0 Hin (or_introl eq_refl)).
Defined.

(** ** What the scanner registers for a module *)

(** [Set] semantics for a list of additions, from the empty set. *)
Definition dedup_class (l : list Class) : list Class :=
  fold_left (fun acc x => set_add_class x acc) l [].

Definition dedup_string (l : list string) : list string :=
  fold_left (fun acc x => set_add_string x acc) l [].

(** What a module holds, without the addresses of its wrappers. *)
Record Shape : Type := {
  sh_token : string;
  sh_metatype : Class;
  sh_providers : list Class;
  sh_controllers : list Class;
  sh_imports : list string;
  sh_exports : list Class;
  sh_distance : nat
}.

Definition shape_of (m : Module) : Shape :=
  {| sh_token := module_token m; sh_metatype := module_metatype m;
     sh_providers := map fst (providers m); sh_controllers := map fst (controllers m);
     sh_imports := imports m; sh_exports := exports m; sh_distance := distance m |}.

Definition view (s : NestState) (tok : string) : option Shape :=
  option_map shape_of (getModuleByKey s tok).

Definition shape_addProvider (p : Class) (sh : Shape) : Shape :=
  {| sh_token := sh_token sh; sh_metatype := sh_metatype sh;
     sh_providers := set_add_class p (sh_providers sh);
     sh_controllers := sh_controllers sh; sh_imports := sh_imports sh;
     sh_exports := sh_exports sh; sh_distance := sh_distance sh |}.

Definition shape_addController (c : Class) (sh : Shape) : Shape :=
  {| sh_token := sh_token sh; sh_metatype := sh_metatype sh;
     sh_providers := sh_providers sh;
     sh_controllers := set_add_class c (sh_controllers sh); sh_imports := sh_imports sh;
     sh_exports := sh_exports sh; sh_distance := sh_distance sh |}.

Definition shape_addImport (related : Class) (sh : Shape) : Shape :=
  {| sh_token := sh_token sh; sh_metatype := sh_metatype sh;
     sh_providers := sh_providers sh; sh_controllers := sh_controllers sh;
     sh_imports := set_add_string (class_name related) (sh_imports sh);
     sh_exports := sh_exports sh; sh_distance := sh_distance sh |}.

Definition shape_addExport (e : Class) (sh : Shape) : Shape :=
  {| sh_token := sh_token sh; sh_metatype := sh_metatype sh;
     sh_providers := sh_providers sh; sh_controllers := sh_controllers sh;
     sh_imports := sh_imports sh;
     sh_exports := set_add_class e (sh_exports sh); sh_distance := sh_distance sh |}.

(** What the four [reflect...] calls for one module do to its shape. *)
Definition shape_reflect (md : ModuleMetadata) (sh : Shape) : Shape :=
  fold_left (fun sh e => shape_addExport e sh) (md_exports md)
    (fold_left (fun sh c => shape_addController c sh) (md_controllers md)
       (fold_left (fun sh p => shape_addProvider p sh) (md_providers md)
          (fold_left (fun sh r => shape_addImport r sh) (md_imports md) sh))).

Lemma map_set_class_keys {V : Type} (k : Class) (v : V) (l : list (Class * V)) :
  map fst (map_set_class k v l) = set_add_class k (map fst l).
Proof.
  unfold set_add_class. induction l as [ | [k' v'] l IH ]; [ reflexivity | ].
  cbn [map_set_class map fst existsb]. destruct (Class_eqb k k') eqn:E.
  - apply Class_eqb_eq in E. subst k'. reflexivity.
  - cbn [map fst orb]. rewrite IH. now destruct (existsb (Class_eqb k) (map fst l)).
Qed.

Lemma getModuleByKey_update_module (t : string) (f : Module -> Module) (s : NestState)
  (tok : string) :
  getModuleByKey (update_module t f s) tok =
  if String.eqb tok t then option_map f (getModuleByKey s tok) else getModuleByKey s tok.
Proof.
  unfold getModuleByKey, update_module. cbn [modules with_modules].
  induction (modules s) as [ | [k v] l IH ]; cbn [map assoc_string fst snd].
  - now destruct (String.eqb tok t).
  - destruct (String.eqb k t) eqn:Ek; cbn [assoc_string fst snd];
      destruct (String.eqb tok k) eqn:Etok.
    + apply String.eqb_eq in Etok. subst k. now rewrite Ek.
    + exact IH.
    + apply String.eqb_eq in Etok. subst k. now rewrite Ek.
    + exact IH.
Qed.

Lemma view_update_module (t : string) (f : Module -> Module) (g : Shape -> Shape)
  (s0 s : NestState) :
  modules s0 = modules s ->
  (forall m, shape_of (f m) = g (shape_of m)) ->
  forall tok,
    view (update_module t f s0) tok =
    if String.eqb tok t then option_map g (view s tok) else view s tok.
Proof.
  intros Hm Hf tok. unfold view. rewrite getModuleByKey_update_module.
  unfold getModuleByKey. rewrite Hm. destruct (String.eqb tok t); [ | reflexivity ].
  destruct (assoc_string tok (modules s)); cbn; [ now rewrite Hf | reflexivity ].
Qed.

(** The stores of the second phase: every module of the list [names] is
    there, under its own token. *)
Definition holds_modules (names : list string) (s : NestState) : Prop :=
  (forall tok, In tok names -> view s tok <> None) /\
  (forall tok sh, view s tok = Some sh -> sh_token sh = tok).

(** [s'] shows the shapes of [s], with [g] applied to the module [t]. *)
Definition reshaped (t : string) (g : Shape -> Shape) (s s' : NestState) : Prop :=
  forall tok, view s' tok = if String.eqb tok t then option_map g (view s tok) else view s tok.

Lemma reshaped_holds (names : list string) (t : string) (g : Shape -> Shape)
  (s s' : NestState) :
  (forall sh, sh_token (g sh) = sh_token sh) ->
  reshaped t g s s' -> holds_modules names s -> holds_modules names s'.
Proof.
  intros Hg Hre [H1 H2]. split.
  - intros tok Hin. rewrite Hre. specialize (H1 tok Hin).
    destruct (String.eqb tok t); [ | exact H1 ].
    destruct (view s tok); [ discriminate | congruence ].
  - intros tok sh. rewrite Hre. destruct (String.eqb tok t); [ | apply H2 ].
    destruct (view s tok) as [ sh0 | ] eqn:E; [ | discriminate ].
    cbn. intros H. inversion H; subst. rewrite Hg. now apply H2.
Qed.

Lemma reshaped_refl (t : string) (s : NestState) : reshaped t (fun sh => sh) s s.
Proof. intros tok. destruct (String.eqb tok t); [ | reflexivity ]. now destruct (view s tok). Qed.

Lemma reshaped_trans (t : string) (g1 g2 : Shape -> Shape) (s1 s2 s3 : NestState) :
  reshaped t g1 s1 s2 -> reshaped t g2 s2 s3 -> reshaped t (fun sh => g2 (g1 sh)) s1 s3.
Proof.
  intros H1 H2 tok. rewrite H2, H1. destruct (String.eqb tok t); [ | reflexivity ].
  now destruct (view s1 tok).
Qed.

Section SecondPhase.

Variable names : list string.
Variable t : string.
Hypothesis Ht : In t names.

Lemma addProvider_reshapes (p : Class) (s : NestState) :
  holds_modules names s ->
  exists s', addProvider p t s = (Normal tt, s') /\ reshaped t (shape_addProvider p) s s'.
Proof.
  intros [H1 _]. specialize (H1 t Ht). unfold addProvider, view in *.
  destruct (getModuleByKey s t); [ | now elim H1 ].
  eexists. split; [ reflexivity | ]. unfold Module_addProvider.
  intros tok. apply view_update_module; [ reflexivity | ].
  intros m'. unfold shape_of, shape_addProvider. cbn. now rewrite map_set_class_keys.
Qed.

Lemma addController_reshapes (c : Class) (s : NestState) :
  holds_modules names s ->
  exists s', addController c t s = (Normal tt, s') /\ reshaped t (shape_addController c) s s'.
Proof.
  intros [H1 _]. specialize (H1 t Ht). unfold addController, view in *.
  destruct (getModuleByKey s t); [ | now elim H1 ].
  eexists. split; [ reflexivity | ]. unfold Module_addController.
  intros tok. apply view_update_module; [ reflexivity | ].
  intros m'. unfold shape_of, shape_addController. cbn. now rewrite map_set_class_keys.
Qed.

Lemma addExport_reshapes (e : Class) (s : NestState) :
  holds_modules names s ->
  exists s', addExport t e s = (Normal tt, s') /\ reshaped t (shape_addExport e) s s'.
Proof.
  intros [H1 _]. specialize (H1 t Ht). unfold addExport, view in *.
  destruct (getModuleByKey s t); [ | now elim H1 ].
  eexists. split; [ reflexivity | ]. unfold Module_addExport.
  intros tok. apply view_update_module; [ reflexivity | ].
  intros m'. reflexivity.
Qed.

Lemma addImport_reshapes (related : Class) (s : NestState) :
  In (class_name related) names ->
  holds_modules names s ->
  exists s', addImport related t s = (Normal tt, s') /\ reshaped t (shape_addImport related) s s'.
Proof.
  intros Hrel [H1 H2]. pose proof (H1 t Ht) as Htok. pose proof (H1 _ Hrel) as Hr.
  pose proof (H2 (class_name related)) as Hname.
  unfold addImport, view in *.
  destruct (getModuleByKey s t); [ | now elim Htok ].
  destruct (getModuleByKey s (class_name related)) as [ relatedRef | ]; [ | now elim Hr ].
  eexists. split; [ reflexivity | ]. unfold Module_addImport.
  intros tok. apply view_update_module; [ reflexivity | ].
  intros m'. unfold shape_of, shape_addImport. cbn.
  specialize (Hname _ eq_refl). cbn in Hname. now rewrite Hname.
Qed.

(** A loop of additions to the module [t]. *)
Lemma for_each_reshapes {A : Type} (act : A -> Action NestState unit)
  (g : A -> Shape -> Shape) (l : list A) :
  (forall x sh, sh_token (g x sh) = sh_token sh) ->
  (forall x s, In x l -> holds_modules names s ->
               exists s', act x s = (Normal tt, s') /\ reshaped t (g x) s s') ->
  forall s,
    holds_modules names s ->
    exists s', for_each act l s = (Normal tt, s') /\
               reshaped t (fun sh => fold_left (fun sh x => g x sh) l sh) s s' /\
               holds_modules names s'.
Proof.
  intros Hg. induction l as [ | x l IH ]; intros Hact s Hs.
  - exists s. split; [ reflexivity | split; [ apply reshaped_refl | exact Hs ] ].
  - destruct (Hact x s (or_introl eq_refl) Hs) as [s1 [Hx Hre1]].
    assert (Hs1 : holds_modules names s1).
    { eapply reshaped_holds; [ apply Hg | exact Hre1 | exact Hs ]. }
    destruct (IH (fun y s0 Hy => Hact y s0 (or_intror Hy)) s1 Hs1) as [s2 [Hl [Hre2 Hs2]]].
    exists s2. split; [ | split; [ | exact Hs2 ] ].
    + cbn [for_each]. unfold bind. now rewrite Hx.
    + cbn [fold_left].
      exact (reshaped_trans Hre1 Hre2).
Qed.

Lemma fold_keeps_token {A : Type} (g : A -> Shape -> Shape) (l : list A) :
  (forall x sh, sh_token (g x sh) = sh_token sh) ->
  forall sh, sh_token (fold_left (fun sh x => g x sh) l sh) = sh_token sh.
Proof.
  intros Hg. induction l as [ | x l IH ]; intros sh; [ reflexivity | ].
  cbn [fold_left]. now rewrite IH, Hg.
Qed.

(** The body of the loop of [scanModulesForDependencies] for the module
    [t] of class [metatype]. *)
Lemma reflect_module_reshapes (R : Reflection) (metatype : Class) (s : NestState) :
  (forall related, In related (md_imports (getModuleMetadata R metatype)) ->
                   In (class_name related) names) ->
  holds_modules names s ->
  exists s',
    (reflectImports R metatype t ;;;
     reflectProviders R metatype t ;;;
     reflectControllers R metatype t ;;;
     reflectExports R metatype t) s = (Normal tt, s') /\
    reshaped t (shape_reflect (getModuleMetadata R metatype)) s s' /\
    holds_modules names s'.
Proof.
  intros Himports Hs.
  unfold reflectImports, reflectProviders, reflectControllers, reflectExports.
  destruct (@for_each_reshapes Class (fun r => addImport r t) shape_addImport
              (md_imports (getModuleMetadata R metatype)))
    with (s := s) as [s1 [H1 [Hre1 Hs1]]];
    [ reflexivity | intros x s0 Hx Hs0; apply addImport_reshapes; auto | exact Hs | ].
  destruct (@for_each_reshapes Class (fun p => addProvider p t) shape_addProvider
              (md_providers (getModuleMetadata R metatype)))
    with (s := s1) as [s2 [H2 [Hre2 Hs2]]];
    [ reflexivity | intros x s0 Hx Hs0; now apply addProvider_reshapes | exact Hs1 | ].
  destruct (@for_each_reshapes Class (fun c => addController c t) shape_addController
              (md_controllers (getModuleMetadata R metatype)))
    with (s := s2) as [s3 [H3 [Hre3 Hs3]]];
    [ reflexivity | intros x s0 Hx Hs0; now apply addController_reshapes | exact Hs2 | ].
  destruct (@for_each_reshapes Class (fun e => addExport t e) shape_addExport
              (md_exports (getModuleMetadata R metatype)))
    with (s := s3) as [s4 [H4 [Hre4 Hs4]]];
    [ reflexivity | intros x s0 Hx Hs0; now apply addExport_reshapes | exact Hs3 | ].
  exists s4. split; [ | split; [ | exact Hs4 ] ].
  - unfold bind. now rewrite H1, H2, H3.
  - exact (reshaped_trans (reshaped_trans (reshaped_trans Hre1 Hre2) Hre3) Hre4).
Qed.

End SecondPhase.

(** The body of the loop of [scanModulesForDependencies]. *)
Definition reflect_entry (R : Reflection) (entry : string * Module) : Action NestState unit :=
  let token := fst entry in
  let metatype := module_metatype (snd entry) in
  reflectImports R metatype token ;;;
  reflectProviders R metatype token ;;;
  reflectControllers R metatype token ;;;
  reflectExports R metatype token.

Lemma assoc_string_absent {V : Type} (k : string) (l : list (string * V)) :
  ~ In k (map fst l) -> assoc_string k l = None.
Proof.
  induction l as [ | [k' v] l IH ]; cbn; [ reflexivity | ].
  intros H. destruct (String.eqb k k') eqn:E.
  - apply String.eqb_eq in E. subst k'. exfalso. apply H. now left.
  - apply IH. intros Hin. apply H. now right.
Qed.

Lemma assoc_string_present {V : Type} (k : string) (l : list (string * V)) :
  In k (map fst l) -> assoc_string k l <> None.
Proof.
  induction l as [ | [k' v] l IH ]; cbn; [ intros [] | ].
  intros [Heq | Hin].
  - subst k'. now rewrite String.eqb_refl.
  - destruct (String.eqb k k'); [ discriminate | now apply IH ].
Qed.

(** The whole loop over a snapshot [entries] of the module map. *)
Lemma reflect_entries_reshape (R : Reflection) (names : list string) :
  forall (entries : list (string * Module)) (s : NestState),
    NoDup (map fst entries) ->
    (forall tok m, In (tok, m) entries ->
                   In tok names /\
                   forall related,
                     In related (md_imports (getModuleMetadata R (module_metatype m))) ->
                     In (class_name related) names) ->
    holds_modules names s ->
    exists s',
      for_each (reflect_entry R) entries s = (Normal tt, s') /\
      holds_modules names s' /\
      forall tok,
        view s' tok =
        match assoc_string tok entries with
        | Some m => option_map (shape_reflect (getModuleMetadata R (module_metatype m)))
                               (view s tok)
        | None => view s tok
        end.
Proof.
  induction entries as [ | [t m] entries IH ]; intros s Hnodup Hentries Hs.
  - exists s. split; [ reflexivity | split; [ exact Hs | reflexivity ] ].
  - cbn [map fst] in Hnodup. inversion Hnodup as [ | k ks Hnotin Hnodup' ]; subst.
    destruct (Hentries t m (or_introl eq_refl)) as [Ht Himports].
    destruct (@reflect_module_reshapes names t Ht R (module_metatype m) s Himports Hs)
      as [s1 [Hrun [Hre Hs1]]].
    destruct (IH s1 Hnodup' (fun tok m' H => Hentries tok m' (or_intror H)) Hs1)
      as [s2 [Hrest [Hs2 Hview]]].
    exists s2. split; [ | split; [ exact Hs2 | ] ].
    + cbn [for_each]. unfold bind at 1. unfold reflect_entry at 1. cbn [fst snd].
      now rewrite Hrun.
    + intros tok. rewrite Hview. cbn [assoc_string]. rewrite (Hre tok).
      destruct (String.eqb tok t) eqn:E; [ | reflexivity ].
      apply String.eqb_eq in E. subst tok.
      now rewrite (assoc_string_absent _ _ Hnotin).
Qed.

Lemma fold_addProvider (l : list Class) :
  forall sh,
    fold_left (fun sh p => shape_addProvider p sh) l sh =
    {| sh_token := sh_token sh; sh_metatype := sh_metatype sh;
       sh_providers := fold_left (fun acc p => set_add_class p acc) l (sh_providers sh);
       sh_controllers := sh_controllers sh; sh_imports := sh_imports sh;
       sh_exports := sh_exports sh; sh_distance := sh_distance sh |}.
Proof.
  induction l as [ | x l IH ]; intros sh; cbn [fold_left]; [ now destruct sh | ].
  now rewrite IH.
Qed.

Lemma fold_addController (l : list Class) :
  forall sh,
    fold_left (fun sh c => shape_addController c sh) l sh =
    {| sh_token := sh_token sh; sh_metatype := sh_metatype sh;
       sh_providers := sh_providers sh;
       sh_controllers := fold_left (fun acc c => set_add_class c acc) l (sh_controllers sh);
       sh_imports := sh_imports sh;
       sh_exports := sh_exports sh; sh_distance := sh_distance sh |}.
Proof.
  induction l as [ | x l IH ]; intros sh; cbn [fold_left]; [ now destruct sh | ].
  now rewrite IH.
Qed.

Lemma fold_addImport (l : list Class) :
  forall sh,
    fold_left (fun sh r => shape_addImport r sh) l sh =
    {| sh_token := sh_token sh; sh_metatype := sh_metatype sh;
       sh_providers := sh_providers sh; sh_controllers := sh_controllers sh;
       sh_imports := fold_left (fun acc r => set_add_string (class_name r) acc) l
                               (sh_imports sh);
       sh_exports := sh_exports sh; sh_distance := sh_distance sh |}.
Proof.
  induction l as [ | x l IH ]; intros sh; cbn [fold_left]; [ now destruct sh | ].
  now rewrite IH.
Qed.

Lemma fold_addExport (l : list Class) :
  forall sh,
    fold_left (fun sh e => shape_addExport e sh) l sh =
    {| sh_token := sh_token sh; sh_metatype := sh_metatype sh;
       sh_providers := sh_providers sh; sh_controllers := sh_controllers sh;
       sh_imports := sh_imports sh;
       sh_exports := fold_left (fun acc e => set_add_class e acc) l (sh_exports sh);
       sh_distance := sh_distance sh |}.
Proof.
  induction l as [ | x l IH ]; intros sh; cbn [fold_left]; [ now destruct sh | ].
  now rewrite IH.
Qed.

Lemma fold_set_add_string_map (l : list Class) (acc : list string) :
  fold_left (fun acc r => set_add_string (class_name r) acc) l acc =
  fold_left (fun acc x => set_add_string x acc) (map class_name l) acc.
Proof. revert acc. induction l as [ | x l IH ]; intros acc; cbn; [ reflexivity | apply IH ]. Qed.

(** No module is global: [bindGlobalScope] has nothing to bind. *)
Lemma bindGlobalScope_no_globals (s : NestState) : globalModules s = [] -> bindGlobalScope s = s.
Proof.
  unfold bindGlobalScope. intros ->. cbn [fold_left].
  generalize (map fst (modules s)) as toks. intros toks.
  induction toks as [ | tok toks IH ]; cbn [fold_left]; [ reflexivity | exact IH ].
Qed.

Lemma scan_no_globals (R : Reflection) (fuel : nat) (root : Class) (registry : list Class)
  (s1 : NestState) :
  scanForModules R fuel root [] [] new_NestContainer = Some (registry, s1) ->
  globalModules (snd (scanModulesForDependencies R s1)) = [].
Proof.
  intros Hscan.
  assert (Hadd : forall metatype scope s,
            globalModules s = [] -> globalModules (snd (addModule metatype scope s)) = []).
  { intros metatype scope s Hs. unfold addModule.
    now destruct (getModuleByKey s (class_name metatype)). }
  apply (@scanModulesForDependencies_action_keeps (fun s => globalModules s = []));
    try (intros ? ? s0 H; exact H).
  exact (@scanForModules_keeps (fun s => globalModules s = []) Hadd R fuel root [] []
           new_NestContainer registry s1 eq_refl Hscan).
Qed.

(** After [scan], the module of every class of the import graph holds what
    its [@Module] metadata declares and nothing else: providers and
    controllers under their classes in declared order, the tokens of its
    imports and its exports, each once.  The wrappers of the bindings are of
    the bound class and unresolved, and no object has been built. *)
Theorem scan_registers_declared_metadata (R : Reflection) (root : Class) (fuel : nat) :
  unique_names R root ->
  List.length (universe R root) < fuel ->
  exists s,
    scan R fuel root new_NestContainer = (Returned tt, s) /\
    instances s = [] /\
    forall c,
      reaches R root c ->
      exists m chain,
        getModuleByKey s (class_name c) = Some m /\
        module_metatype m = c /\
        import_chain R root chain c /\ distance m = List.length chain /\
        map fst (providers m) = dedup_class (md_providers (getModuleMetadata R c)) /\
        map fst (controllers m) = dedup_class (md_controllers (getModuleMetadata R c)) /\
        imports m = dedup_string (map class_name (md_imports (getModuleMetadata R c))) /\
        exports m = dedup_class (md_exports (getModuleMetadata R c)) /\
        forall p w,
          In (p, w) (providers m) \/ In (p, w) (controllers m) ->
          wrapper_metatype s w = Some p /\ wrapper_isResolved s w = false.
Proof.
  intros Hnames Hfuel.
  destruct (@scan_from_root R root Hnames fuel Hfuel)
    as [visits [s1 [_ [Hscan [Hmods [Hnodup [Hreach Hchains]]]]]]].
  pose proof (fresh_store_scan R fuel root) as Hfresh.
  pose proof (scan_no_globals _ _ _ Hscan) as Hglobals.
  set (names := map fst (modules s1)).
  assert (Hs1 : holds_modules names s1).
  { split.
    - intros tok Hin. unfold view, getModuleByKey.
      pose proof (assoc_string_present _ _ Hin) as H.
      destruct (assoc_string tok (modules s1)); [ discriminate | congruence ].
    - intros tok sh. unfold view, getModuleByKey.
      destruct (assoc_string tok (modules s1)) as [ m | ] eqn:E; [ | discriminate ].
      cbn. intros H. inversion H; subst. apply assoc_string_Some_In in E.
      rewrite Hmods in E. apply in_map_iff in E. destruct E as [v [Hv _]].
      unfold registered in Hv. inversion Hv; subst. reflexivity. }
  assert (Hentries : forall tok m, In (tok, m) (modules s1) ->
            In tok names /\
            forall related,
              In related (md_imports (getModuleMetadata R (module_metatype m))) ->
              In (class_name related) names).
  { intros tok m Hin. split; [ apply in_map_iff; now exists (tok, m) | ].
    intros related Hrel. pose proof Hin as Hin'.
    rewrite Hmods in Hin'. apply in_map_iff in Hin'. destruct Hin' as [v [Hv Hvin]].
    unfold registered in Hv. inversion Hv; subst. cbn [module_metatype] in Hrel.
    assert (Hr : reaches R root related).
    { apply reaches_import with (m := fst v); [ | exact Hrel ].
      apply Hreach. apply in_map_iff. now exists v. }
    apply Hreach in Hr. apply in_map_iff in Hr. destruct Hr as [v' [Hv' Hvin']].
    unfold names. rewrite Hmods. rewrite map_map. apply in_map_iff.
    exists v'. split; [ cbn; now rewrite Hv' | exact Hvin' ]. }
  destruct (@reflect_entries_reshape R names (modules s1) s1 Hnodup Hentries Hs1)
    as [s2 [Hrun [_ Hview]]].
  assert (Hrun' : scanModulesForDependencies R s1 = (Normal tt, s2)) by exact Hrun.
  rewrite Hrun' in Hglobals. cbn [snd] in Hglobals.
  assert (Hresult : scan R fuel root new_NestContainer = (Returned tt, s2)).
  { unfold scan. rewrite Hscan, Hrun'. now rewrite bindGlobalScope_no_globals. }
  rewrite Hresult in Hfresh. cbn [snd] in Hfresh.
  destruct Hfresh as [Hnone [Hwrappers Hbindings]].
  exists s2. split; [ exact Hresult | split; [ exact Hnone | ] ].
  intros c Hc. destruct (Hchains c Hc) as [chain [_ [Hchain Hget]]].
  specialize (Hview (class_name c)). unfold view in Hview.
  unfold getModuleByKey in Hget, Hview at 2. rewrite !Hget in Hview.
  cbn [registered snd module_metatype option_map] in Hview.
  destruct (getModuleByKey s2 (class_name c)) as [ m | ] eqn:Em; [ | discriminate ].
  cbn [option_map] in Hview. inversion Hview as [Hshape]. clear Hview.
  unfold shape_reflect in Hshape.
  rewrite fold_addExport, fold_addController, fold_addProvider, fold_addImport in Hshape.
  cbn in Hshape. rewrite fold_set_add_string_map in Hshape.
  exists m, chain.
  pose proof (f_equal sh_metatype Hshape) as Hmeta.
  pose proof (f_equal sh_providers Hshape) as Hp.
  pose proof (f_equal sh_controllers Hshape) as Hc'.
  pose proof (f_equal sh_imports Hshape) as Hi.
  pose proof (f_equal sh_exports Hshape) as He.
  pose proof (f_equal sh_distance Hshape) as Hd.
  cbn [shape_of sh_metatype sh_providers sh_controllers sh_imports sh_exports sh_distance]
    in Hmeta, Hp, Hc', Hi, He, Hd.
  unfold dedup_class, dedup_string.
  do 8 (split; [ first [ reflexivity | assumption ] | ]).
  intros p w Hin.
  assert (Hmt : wrapper_metatype s2 w = Some p).
  { apply Hbindings with (tok := class_name c) (m := m); [ | exact Hin ].
    now apply assoc_string_Some_In. }
  split; [ exact Hmt | ].
  unfold wrapper_metatype in Hmt. unfold wrapper_isResolved.
  destruct (wrapper_at s2 w) as [ wr | ] eqn:Ew; [ | reflexivity ].
  now destruct (Hwrappers w wr Ew).
Qed.

Lemma scan_registers_declared_metadata_witness :
  exists s,
    scan diamond_A_first 10 RootModule new_NestContainer = (Returned tt, s) /\
    instances s = [] /\
    forall c,
      reaches diamond_A_first RootModule c ->
      exists m chain,
        getModuleByKey s (class_name c) = Some m /\
        module_metatype m = c /\
        import_chain diamond_A_first RootModule chain c /\ distance m = List.length chain /\
        map fst (providers m) = dedup_class (md_providers (getModuleMetadata diamond_A_first c)) /\
        map fst (controllers m) =
        dedup_class (md_controllers (getModuleMetadata diamond_A_first c)) /\
        imports m = dedup_string (map class_name (md_imports (getModuleMetadata diamond_A_first c))) /\
        exports m = dedup_class (md_exports (getModuleMetadata diamond_A_first c)) /\
        forall p w,
          In (p, w) (providers m) \/ In (p, w) (controllers m) ->
          wrapper_metatype s w = Some p /\ wrapper_isResolved s w = false.
Proof.
  apply (@scan_registers_declared_metadata diamond_A_first RootModule 10).
  - intros a b Ha Hb Heq. cbn in Ha, Hb.
    repeat (destruct Ha as [Ha | Ha]; [ subst a | ]); try contradiction;
      repeat (destruct Hb as [Hb | Hb]; [ subst b | ]); try contradiction;
      first [ reflexivity | discriminate Heq ].
  - cbn. lia.
Defined.
